(** * web-weaver graph viewer: filters, layout normalisation, visual encoding

    A shallow embedding of [tools/graph-viewer/loader.py],
    [tools/graph-viewer/renderer.py] and the argument validation of
    [tools/graph-viewer/main.py], with the properties of the specification
    stated and proved over it.

    Modelling conventions.
    - A [networkx.DiGraph] is a value [DiGraph]: the node dictionary in
      insertion order (an association list, the order [G.nodes] iterates
      in) and the adjacency, flattened to one finite map from the ordered
      pair [(u, v)] to the edge's attributes.  Successor and predecessor
      views are read off that map.
    - Graph objects live in an object store and are named by references;
      [G.copy()] allocates, [remove_edges_from] and [remove_nodes_from]
      update the object in place, as networkx does.
    - [print] appends a line to the modelled standard output; [raise] ends
      the computation with the exception.
    - Python floats are modelled by exact rationals [Q]; [random.random()]
      by a stream of draws. *)

From Stdlib Require Import ZArith QArith Qminmax Qround Qabs Lqa Lia String Ascii List.
From stdpp Require Import base option list gmap sets fin_maps strings pretty sorting.

Local Open Scope string_scope.
Local Open Scope list_scope.
Local Open Scope Z_scope.

(* ===================================================================== *)
(** ** Graph values                                                       *)
(* ===================================================================== *)

Definition node := Z.

(** The attribute dictionary of a node: a key that is absent is [None]
    ([data.get(key)] then yields Python's [None]). *)
Record NodeData := mkNodeData {
  domain : option string;
  description : option string;
  crawl_count : option Z;
  depth : option Z
}.

(** The attribute dictionary of an edge. *)
Record EdgeData := mkEdgeData {
  weight : option Z
}.

Record DiGraph := mkDiGraph {
  _node : list (node * NodeData);
  _adj : gmap (node * node) EdgeData
}.

Definition empty_graph : DiGraph := mkDiGraph [] ∅.

Definition node_ids (g : DiGraph) : list node := fst <$> _node g.

(** [n in G] *)
Definition has_node (g : DiGraph) (n : node) : bool :=
  bool_decide (n ∈ node_ids g).

(** [G.number_of_nodes()], [G.number_of_edges()] *)
Definition number_of_nodes (g : DiGraph) : nat := length (_node g).
Definition number_of_edges (g : DiGraph) : nat := size (_adj g).

(** [G.edges(data=True)]: the triples [(u, v, data)]. *)
Definition edges_data (g : DiGraph) : list (node * node * EdgeData) :=
  (λ kv, (kv.1.1, kv.1.2, kv.2)) <$> map_to_list (_adj g).

(** [G.successors(n)] and [G.predecessors(n)], as sets.  networkx raises
    for an [n] that is not a node; under [wf_graph] the filters only ask
    for nodes of the graph, and the model answers from the adjacency
    alone. *)
Definition successors (g : DiGraph) (n : node) : gset node :=
  list_to_set (snd <$> filter (λ e : node * node, e.1 = n) (elements (dom (_adj g)))).
Definition predecessors (g : DiGraph) (n : node) : gset node :=
  list_to_set (fst <$> filter (λ e : node * node, e.2 = n) (elements (dom (_adj g)))).

(** [G.degree(n)] of a directed graph: out-degree plus in-degree (a
    self-loop counts twice). *)
Definition degree (g : DiGraph) (n : node) : nat :=
  length (filter (λ e : node * node, e.1 = n) (elements (dom (_adj g)))) +
  length (filter (λ e : node * node, e.2 = n) (elements (dom (_adj g)))).

(** [nx.isolates(G)]: the nodes of degree zero, in node order. *)
Definition isolates (g : DiGraph) : list node :=
  filter (λ n, degree g n = 0%nat) (node_ids g).

(** [G.add_node(n, **attr)]: a new node goes last; an existing node keeps
    its place and has its attributes updated. *)
Definition update_node_data (old new : NodeData) : NodeData :=
  mkNodeData (from_option Some (domain old) (domain new))
             (from_option Some (description old) (description new))
             (from_option Some (crawl_count old) (crawl_count new))
             (from_option Some (depth old) (depth new)).

Definition no_node_data : NodeData := mkNodeData None None None None.

Fixpoint upsert_node (l : list (node * NodeData)) (n : node) (attr : NodeData)
  : list (node * NodeData) :=
  match l with
  | [] => [(n, attr)]
  | (m, d) :: rest =>
      if decide (m = n) then (m, update_node_data d attr) :: rest
      else (m, d) :: upsert_node rest n attr
  end.

Definition add_node (g : DiGraph) (n : node) (attr : NodeData) : DiGraph :=
  mkDiGraph (upsert_node (_node g) n attr) (_adj g).

(** [G.add_edge(u, v, weight=w)]: missing endpoints are created without
    attributes; the weight of an existing edge is overwritten. *)
Definition add_edge (g : DiGraph) (u v : node) (w : Z) : DiGraph :=
  let g1 := if has_node g u then g else add_node g u no_node_data in
  let g2 := if has_node g1 v then g1 else add_node g1 v no_node_data in
  mkDiGraph (_node g2) (<[(u, v) := mkEdgeData (Some w)]> (_adj g2)).

(** [G.remove_edges_from(ebunch)]: pairs that are not edges are ignored. *)
Definition remove_edge (g : DiGraph) (e : node * node) : DiGraph :=
  mkDiGraph (_node g) (delete e (_adj g)).
Definition remove_edges_from (g : DiGraph) (ebunch : list (node * node)) : DiGraph :=
  foldl remove_edge g ebunch.

(** [G.remove_nodes_from(nodes)]: each node that is in the graph is
    deleted together with its incident edges; others are ignored. *)
Definition remove_node (g : DiGraph) (n : node) : DiGraph :=
  if has_node g n then
    mkDiGraph (filter (λ kv : node * NodeData, kv.1 ≠ n) (_node g))
              (filter (λ kv : (node * node) * EdgeData, kv.1.1 ≠ n ∧ kv.1.2 ≠ n) (_adj g))
  else g.
Definition remove_nodes_from (g : DiGraph) (nodes : list node) : DiGraph :=
  foldl remove_node g nodes.

(** [G.subgraph(nodes).copy()]: the nodes of [G] that are in [nodes], and
    every edge of [G] with both ends among them.  The nodes are listed
    here in the order of [G]; networkx lists them in that order or in the
    iteration order of the set, depending on the sizes.  The order of the
    result is not modelled: the properties below speak of membership, or
    hold for every order. *)
Definition subgraph (g : DiGraph) (nodes : gset node) : DiGraph :=
  mkDiGraph (filter (λ kv : node * NodeData, kv.1 ∈ nodes) (_node g))
            (filter (λ kv : (node * node) * EdgeData, kv.1.1 ∈ nodes ∧ kv.1.2 ∈ nodes) (_adj g)).

(** The invariant networkx maintains: node keys are unique and the ends of
    every edge are nodes. *)
Definition wf_graph (g : DiGraph) : Prop :=
  NoDup (node_ids g) ∧
  ∀ u v, is_Some (_adj g !! (u, v)) → u ∈ node_ids g ∧ v ∈ node_ids g.

(** [data.get("weight", 1)] *)
Definition get_weight (data : EdgeData) : Z := default 1 (weight data).

(* ===================================================================== *)
(** ** Effects: object store, standard output, exceptions                 *)
(* ===================================================================== *)

Inductive exn :=
| ValueError (msg : string)
| SystemExit (code : Z)
| UnboundReference.   (* a reference to no object; Python has no such name *)

Inductive outcome (A : Type) :=
| Return (a : A)
| Raise (e : exn).
Arguments Return {A} a.
Arguments Raise {A} e.

(** A reference to a graph object: its address in the store. *)
Definition ref := nat.

Record state := mkState {
  objects : list DiGraph;
  stdout : list string
}.

Definition M (A : Type) : Type := state → outcome A * state.

Definition ret {A} (a : A) : M A := λ s, (Return a, s).
Definition bind {A B} (m : M A) (k : A → M B) : M B :=
  λ s, match m s with
       | (Return a, s') => k a s'
       | (Raise e, s') => (Raise e, s')
       end.
Definition raise {A} (e : exn) : M A := λ s, (Raise e, s).

Declare Scope py_scope.
Delimit Scope py_scope with py.
Notation "x <- m ;; k" := (bind m (λ x, k))
  (at level 100, m at next level, right associativity) : py_scope.
Notation "m ;;; k" := (bind m (λ _, k))
  (at level 100, right associativity) : py_scope.

(** Reading the object a reference names. *)
Definition deref (r : ref) : M DiGraph :=
  λ s, match objects s !! r with
       | Some g => (Return g, s)
       | None => (Raise UnboundReference, s)
       end.

(** A new object, at the next free address. *)
Definition alloc (g : DiGraph) : M ref :=
  λ s, (Return (length (objects s)), mkState (objects s ++ [g]) (stdout s)).

(** In-place update of the object a reference names. *)
Definition mutate (r : ref) (f : DiGraph → DiGraph) : M unit :=
  λ s, match objects s !! r with
       | Some g => (Return tt, mkState (<[r := f g]> (objects s)) (stdout s))
       | None => (Raise UnboundReference, s)
       end.

Definition print (line : string) : M unit :=
  λ s, (Return tt, mkState (objects s) (stdout s ++ [line])).

(** The graph methods the filters call, on references. *)
Definition G_copy (G : ref) : M ref := (g <- deref G ;; alloc g)%py.
Definition G_edges_data (G : ref) : M (list (node * node * EdgeData)) :=
  (g <- deref G ;; ret (edges_data g))%py.
Definition G_nodes_data (G : ref) : M (list (node * NodeData)) :=
  (g <- deref G ;; ret (_node g))%py.
Definition G_remove_edges_from (G : ref) (ebunch : list (node * node)) : M unit :=
  mutate G (λ g, remove_edges_from g ebunch).
Definition G_remove_nodes_from (G : ref) (nodes : list node) : M unit :=
  mutate G (λ g, remove_nodes_from g nodes).
Definition G_number_of_nodes (G : ref) : M nat :=
  (g <- deref G ;; ret (number_of_nodes g))%py.
Definition G_number_of_edges (G : ref) : M nat :=
  (g <- deref G ;; ret (number_of_edges g))%py.
Definition G_successors (G : ref) (n : node) : M (gset node) :=
  (g <- deref G ;; ret (successors g n))%py.
Definition G_predecessors (G : ref) (n : node) : M (gset node) :=
  (g <- deref G ;; ret (predecessors g n))%py.
Definition nx_isolates (G : ref) : M (list node) :=
  (g <- deref G ;; ret (isolates g))%py.
Definition G_subgraph_copy (G : ref) (nodes : gset node) : M ref :=
  (g <- deref G ;; alloc (subgraph g nodes))%py.

(** [for x in xs: body], threading an accumulator. *)
Fixpoint for_each {A B} (xs : list A) (acc : B) (body : A → B → M B) : M B :=
  match xs with
  | [] => ret acc
  | x :: rest => (acc' <- body x acc ;; for_each rest acc' body)%py
  end.

(** [for _ in range(n): body] *)
Definition range (n : Z) : list nat := seq 0 (Z.to_nat n).

(* ===================================================================== *)
(** ** loader.py: the three filters                                       *)
(* ===================================================================== *)

Module loader.

(** [filter_by_weight(G, min_weight)] *)
Definition filter_by_weight (G : ref) (min_weight : Z) : M ref :=
  (es <- G_edges_data G ;;
   let edges_to_remove :=
     (λ e : node * node * EdgeData, (e.1.1, e.1.2)) <$>
       filter (λ e : node * node * EdgeData, get_weight e.2 < min_weight) es in
   G_filtered <- G_copy G ;;
   G_remove_edges_from G_filtered edges_to_remove ;;;
   n <- G_number_of_edges G_filtered ;;
   print ("Filtered by weight >= " +:+ pretty min_weight +:+ ": " +:+
          pretty n +:+ " edges remaining") ;;;
   ret G_filtered)%py.

(** [remove_isolated(G)] *)
Definition remove_isolated (G : ref) : M ref :=
  (isolated <- nx_isolates G ;;
   G_filtered <- G_copy G ;;
   G_remove_nodes_from G_filtered isolated ;;;
   print ("Removed " +:+ pretty (length isolated) +:+ " isolated nodes") ;;;
   ret G_filtered)%py.

(** The search loop of [extract_subgraph]: the first node, in iteration
    order, whose [domain] attribute equals [root_domain]. *)
Fixpoint find_root (nodes : list (node * NodeData)) (root_domain : string)
  : option node :=
  match nodes with
  | [] => None
  | (node_id, data) :: rest =>
      if decide (domain data = Some root_domain) then Some node_id
      else find_root rest root_domain
  end.

(** [extract_subgraph(G, root_domain, depth)] *)
Definition extract_subgraph (G : ref) (root_domain : string) (depth : Z) : M ref :=
  (nodes_data <- G_nodes_data G ;;
   match find_root nodes_data root_domain with
   | None => raise (ValueError ("Domain '" +:+ root_domain +:+ "' not found in graph"))
   | Some root_id =>
       nodes <- for_each (range depth) ({[root_id]} : gset node) (λ _ nodes,
         new_nodes <- for_each (elements nodes) (∅ : gset node) (λ node new_nodes,
           succs <- G_successors G node ;;
           preds <- G_predecessors G node ;;
           ret (new_nodes ∪ succs ∪ preds)) ;;
         ret (nodes ∪ new_nodes)) ;;
       subgraph <- G_subgraph_copy G nodes ;;
       n <- G_number_of_nodes subgraph ;;
       m <- G_number_of_edges subgraph ;;
       print ("Extracted subgraph: " +:+ pretty n +:+ " nodes, " +:+
              pretty m +:+ " edges") ;;;
       ret subgraph
   end)%py.

(** [_safe_decode_text(text)] for [None] and [str].  The [bytes] branch
    (UTF-8 decoding with replacement) runs inside sqlite3 through
    [text_factory]; the rows below already hold [str]. *)
Definition _safe_decode_text (text : option string) : string :=
  match text with
  | None => ""
  | Some text => text
  end.

(** A row of [SELECT node_id, domain_name, description, crawl_count
    [, last_depth] FROM nodes]; a NULL column is [None].  Rows of the
    legacy query have no [last_depth]: the field is not read then.  The
    id is an integer: on a NULL [node_id] networkx raises
    [ValueError('None cannot be a node')], and such a row is not a value
    of this type. *)
Record node_row := mkNodeRow {
  row_node_id : node;
  row_domain : option string;
  row_description : option string;
  row_crawl_count : option Z;
  row_last_depth : option Z
}.

(** A row of [SELECT from_node_id, to_node_id, weight FROM edges].  Both
    ids are integers: on a NULL id [G.add_edge] raises [ValueError], and
    such a row is not a value of this type. *)
Record edge_row := mkEdgeRow {
  row_from : node;
  row_to : node;
  row_weight : option Z
}.

(** What the cursor answers: the schema flag of
    [_detect_database_schema] and the rows of the two queries, in the
    order the queries return them. *)
Record database := mkDatabase {
  has_depth : bool;
  node_rows : list node_row;
  edge_rows : list edge_row
}.

(** [x or 1] for an integer column: NULL and 0 are falsy. *)
Definition or_1 (x : option Z) : Z :=
  match x with
  | None => 1
  | Some 0 => 1
  | Some x => x
  end.

(** The attributes [load_graph] gives the node of a row. *)
Definition node_attributes (has_depth : bool) (row : node_row) : NodeData :=
  let depth :=
    if has_depth then
      match row_last_depth row with Some last_depth => last_depth | None => 0 end
    else 0 in
  mkNodeData
    (Some (_safe_decode_text (row_domain row)))
    (Some (match row_description row with
           | None => ""
           | Some "" => ""
           | Some description => _safe_decode_text (Some description)
           end))
    (Some (or_1 (row_crawl_count row)))
    (Some depth).

(** [load_graph(db_path)], from the answers of the cursor on.  Opening
    and closing the connection and the three progress lines it prints
    are left out. *)
Definition load_graph (db : database) : M ref :=
  (G <- alloc empty_graph ;;
   for_each (node_rows db) tt (λ row _,
     mutate G (λ g, add_node g (row_node_id row)
                      (node_attributes (has_depth db) row))) ;;;
   for_each (edge_rows db) tt (λ row _,
     mutate G (λ g, add_edge g (row_from row) (row_to row)
                      (or_1 (row_weight row)))) ;;;
   ret G)%py.

(** [sorted(items, key=lambda x: x[1], reverse=True)]: a stable sort,
    largest degree first, equal degrees in their original order. *)
Fixpoint insert_by_degree (x : node * nat) (l : list (node * nat)) : list (node * nat) :=
  match l with
  | [] => [x]
  | y :: rest =>
      if (y.2 <=? x.2)%nat then x :: y :: rest
      else y :: insert_by_degree x rest
  end.
Definition sorted_by_degree (items : list (node * nat)) : list (node * nat) :=
  foldr insert_by_degree [] items.

(** [dict(G.degree())], in node order. *)
Definition degrees_of (g : DiGraph) : list (node * nat) :=
  (λ n, (n, degree g n)) <$> node_ids g.

(** [G.nodes[node_id].get("domain", "unknown")] *)
Definition domain_or_unknown (g : DiGraph) (node_id : node) : string :=
  match list_find (λ kv : node * NodeData, kv.1 = node_id) (_node g) with
  | Some (_, (_, data)) => default "unknown" (domain data)
  | None => "unknown"
  end.

(** [nx.density(G)] of a directed graph. *)
Definition density (g : DiGraph) : Q :=
  let n := number_of_nodes g in
  let m := number_of_edges g in
  if (m =? 0)%nat || (n <=? 1)%nat then 0%Q
  else (inject_Z (Z.of_nat m) / inject_Z (Z.of_nat n * (Z.of_nat n - 1)))%Q.

(** The dictionary [get_stats] returns; [top_nodes] is absent for a graph
    without nodes. *)
Record stats := mkStats {
  stats_nodes : nat;
  stats_edges : nat;
  stats_density : Q;
  stats_avg_degree : Q;
  stats_top_nodes : option (list (node * string * nat))
}.

(** [get_stats(G)] *)
Definition get_stats (G : ref) : M stats :=
  (g <- deref G ;;
   let degrees := degrees_of g in
   let avg_degree :=
     if (0 <? number_of_nodes g)%nat then
       (inject_Z (Z.of_nat (sum_list (snd <$> degrees)))
        / inject_Z (Z.of_nat (number_of_nodes g)))%Q
     else 0%Q in
   let top_nodes :=
     match degrees with
     | [] => None
     | _ => Some ((λ nd : node * nat, (nd.1, domain_or_unknown g nd.1, nd.2)) <$>
                    take 5 (sorted_by_degree degrees))
     end in
   ret (mkStats (number_of_nodes g) (number_of_edges g) (density g)
                avg_degree top_nodes))%py.

End loader.

(* ===================================================================== *)
(** ** renderer.py: position normalisation                                *)
(* ===================================================================== *)

Module renderer.

Definition position := (Q * Q)%type.

(** [min(xs)] and [max(xs)] of a non-empty list, given as head and tail. *)
Definition py_min (x : Q) (xs : list Q) : Q := foldl Qmin x xs.
Definition py_max (x : Q) (xs : list Q) : Q := foldl Qmax x xs.

(** [random.uniform(a, b)] is [a + (b - a) * random.random()]; [u] is the
    value drawn by [random.random()]. *)
Definition uniform (a b u : Q) : Q := (a + (b - a) * u)%Q.

(** The loop of [normalize_positions].  The state of the random generator
    is the number [k] of draws made so far from the sequence [random]. *)
Fixpoint normalize_loop (items : list (node * position))
    (min_x range_x min_y range_y scale jitter : Q)
    (random : nat → Q) (k : nat) : list (node * position) * nat :=
  match items with
  | [] => ([], k)
  | (node_id, (x, y)) :: rest =>
      let norm_x := ((x - min_x) / range_x * scale)%Q in
      let norm_y := ((y - min_y) / range_y * scale)%Q in
      let '(norm_x, norm_y, k) :=
        if negb (Qle_bool jitter 0) then
          ((norm_x + uniform (- jitter) jitter (random k))%Q,
           (norm_y + uniform (- jitter) jitter (random (S k)))%Q,
           S (S k))
        else (norm_x, norm_y, k) in
      let '(normalized, k') :=
        normalize_loop rest min_x range_x min_y range_y scale jitter random k in
      ((node_id, (norm_x, norm_y)) :: normalized, k')
  end.

(** [normalize_positions(pos, scale=10.0, jitter=0.0)]: an argument the
    caller leaves out is [None] and takes the default of the signature.
    The arithmetic is exact; the code computes in binary64, and the two
    agree up to rounding as long as no intermediate value overflows.  The
    properties of the coordinates are stated for inputs in that range. *)
Definition normalize_positions (pos : list (node * position))
    (scale jitter : option Q) (random : nat → Q) (k : nat)
  : list (node * position) * nat :=
  let scale := default 10%Q scale in
  let jitter := default 0%Q jitter in
  match pos with
  | [] => ([], k)
  | (_, (x0, y0)) :: rest =>
      let xs := (λ c : node * position, c.2.1) <$> rest in
      let ys := (λ c : node * position, c.2.2) <$> rest in
      let min_x := py_min x0 xs in
      let max_x := py_max x0 xs in
      let min_y := py_min y0 ys in
      let max_y := py_max y0 ys in
      let range_x := if negb (Qeq_bool max_x min_x) then (max_x - min_x)%Q else 1%Q in
      let range_y := if negb (Qeq_bool max_y min_y) then (max_y - min_y)%Q else 1%Q in
      normalize_loop pos min_x range_x min_y range_y scale jitter random k
  end.

(** The position step of [render_cosmograph_csv(G, output_path, layout,
    scale=50.0, jitter=0.05)]: [positions] is what [compute_layout]
    returned. *)
Definition render_cosmograph_csv_positions (positions : list (node * position))
    (scale jitter : option Q) (random : nat → Q) (k : nat)
  : list (node * position) * nat :=
  let scale := default 50%Q scale in
  let jitter := default (5 # 100)%Q jitter in
  normalize_positions positions (Some scale) (Some jitter) random k.

(* ===================================================================== *)
(** ** renderer.py: node colour                                           *)
(* ===================================================================== *)

(** [int(x)] of a float: truncation towards zero. *)
Definition py_int (x : Q) : Z := Z.quot (Qnum x) (Z.pos (Qden x)).

Definition hex_digit (d : N) : ascii :=
  match d with
  | 0 => "0" | 1 => "1" | 2 => "2" | 3 => "3" | 4 => "4" | 5 => "5"
  | 6 => "6" | 7 => "7" | 8 => "8" | 9 => "9" | 10 => "a" | 11 => "b"
  | 12 => "c" | 13 => "d" | 14 => "e" | _ => "f"
  end%N%char.

Fixpoint hex_go (fuel : nat) (n : N) (acc : string) : string :=
  match fuel with
  | O => acc
  | S fuel' =>
      if (n =? 0)%N then acc
      else hex_go fuel' (n / 16)%N (String (hex_digit (n mod 16)%N) acc)
  end.

(** [format(n, "x")] for [n >= 0] *)
Definition hex_of_N (n : N) : string :=
  if (n =? 0)%N then "0" else hex_go (N.size_nat n) n "".

(** [f"{n:02x}"]: lower-case hexadecimal, zero-padded to width two, the
    sign counted in the width. *)
Definition format_02x (n : Z) : string :=
  if (n <? 0)%Z then "-" +:+ hex_of_N (Z.to_N (- n))
  else
    let s := hex_of_N (Z.to_N n) in
    if (String.length s <? 2)%nat then "0" +:+ s else s.

(** The three segments of [calculate_node_color], as a function of the
    normalised degree: the channels [(red, green, blue)]. *)
Definition gradient (normalized : Q) : Z * Z * Z :=
  if Qle_bool normalized (33 # 100) then
    let factor := (normalized / (33 # 100))%Q in
    (py_int (factor * 255), 255, 0)
  else if Qle_bool normalized (66 # 100) then
    let factor := ((normalized - (33 # 100)) / (33 # 100))%Q in
    (255, py_int (255 * (1 - factor * (5 # 10))), 0)
  else
    let factor := ((normalized - (66 # 100)) / (34 # 100))%Q in
    (255, py_int (128 * (1 - factor)), 0).

Definition format_color (rgb : Z * Z * Z) : string :=
  "#" +:+ format_02x rgb.1.1 +:+ format_02x rgb.1.2 +:+ format_02x rgb.2.

Section NodeColor.
(** [math.log2] on a positive integer. *)
Variable log2 : Z → Q.

(** [min(math.log2(degree + 1) / 6.0, 1.0)]; [math.log2] raises
    [ValueError] on an argument that is not positive. *)
Definition normalized_degree (degree : Z) : outcome Q :=
  if (degree + 1 <=? 0)%Z then Raise (ValueError "math domain error")
  else Return (Qmin (log2 (degree + 1) / 6) 1).

(** [calculate_node_color(degree)] *)
Definition calculate_node_color (degree : Z) : outcome string :=
  match normalized_degree degree with
  | Raise e => Raise e
  | Return normalized => Return (format_color (gradient normalized))
  end.
End NodeColor.

(* ===================================================================== *)
(** ** renderer.py: domain-name sanitisation                              *)
(* ===================================================================== *)

(** A Python [str] is a sequence of code points; the model covers the code
    points below 256, one [ascii] each. *)
Definition code (c : ascii) : N := N_of_ascii c.

(** [c.isspace()] *)
Definition is_space (c : ascii) : bool :=
  let n := code c in
  ((9 <=? n) && (n <=? 13) || (28 <=? n) && (n <=? 32) ||
   (n =? 133) || (n =? 160))%N.

(** [c.isalnum()]: letters, digits and numeric characters. *)
Definition is_alnum (c : ascii) : bool :=
  let n := code c in
  ((48 <=? n) && (n <=? 57) || (65 <=? n) && (n <=? 90) ||
   (97 <=? n) && (n <=? 122) ||
   (n =? 170) || (n =? 178) || (n =? 179) || (n =? 181) ||
   (n =? 185) || (n =? 186) || (188 <=? n) && (n <=? 190) ||
   (192 <=? n) && (n <=? 214) || (216 <=? n) && (n <=? 246) ||
   (248 <=? n) && (n <=? 255))%N.

(** The characters the pattern [[^a-zA-Z0-9.-]] leaves in place. *)
Definition is_domain_char (c : ascii) : bool :=
  let n := code c in
  ((97 <=? n) && (n <=? 122) || (65 <=? n) && (n <=? 90) ||
   (48 <=? n) && (n <=? 57) || (n =? 46) || (n =? 45))%N.

Fixpoint lstrip_chars (l : list ascii) : list ascii :=
  match l with
  | [] => []
  | c :: rest => if is_space c then lstrip_chars rest else l
  end.

(** [s.strip()] *)
Definition py_strip (s : string) : string :=
  string_of_list_ascii
    (rev (lstrip_chars (rev (lstrip_chars (list_ascii_of_string s))))).

(** [c in s] for a single character [c] *)
Definition py_contains (c : ascii) (s : string) : bool :=
  bool_decide (c ∈ list_ascii_of_string s).

(** [s.split(sep)] for a single character [sep]: every occurrence
    splits, empty pieces are kept. *)
Fixpoint split_chars (sep : ascii) (l : list ascii) : list (list ascii) :=
  match l with
  | [] => [[]]
  | c :: rest =>
      match split_chars sep rest with
      | [] => [[]]
      | piece :: pieces =>
          if decide (c = sep) then [] :: piece :: pieces
          else (c :: piece) :: pieces
      end
  end.
Definition py_split (sep : ascii) (s : string) : list string :=
  string_of_list_ascii <$> split_chars sep (list_ascii_of_string s).

(** [sep.join(parts)] *)
Fixpoint py_join (sep : string) (parts : list string) : string :=
  match parts with
  | [] => ""
  | [p] => p
  | p :: rest => p +:+ sep +:+ py_join sep rest
  end.

(** [s.isalnum()]: non-empty and every character alphanumeric. *)
Definition py_isalnum (s : string) : bool :=
  match list_ascii_of_string s with
  | [] => false
  | l => forallb is_alnum l
  end.

(** [re.sub(r'[^a-zA-Z0-9.-]', '', s)] *)
Definition strip_invalid_chars (s : string) : string :=
  string_of_list_ascii (filter (λ c, is_domain_char c = true) (list_ascii_of_string s)).

Definition comma : ascii := ","%char.
Definition dot : ascii := "."%char.
Definition hyphen : ascii := "-"%char.

Section Sanitize.
(** [hash] of a [str]: some integer, fixed for the run of the process. *)
Variable hash : string → Z.

(** [sanitize_domain_name(domain)]; the argument is [None] or a [str].
    The two diagnostics it prints are left out. *)
Definition sanitize_domain_name (domain : option string) : string :=
  match domain with
  | None => "unknown"
  | Some "" => "unknown"
  | Some domain =>
      let cleaned := py_strip domain in
      let cleaned :=
        if py_contains comma cleaned && negb (py_contains dot cleaned) then
          let parts := py_split comma cleaned in
          if (2 <=? length parts)%nat &&
             forallb (λ part, py_isalnum part || py_contains hyphen part) parts
          then py_join "." parts
          else cleaned
        else cleaned in
      let cleaned := strip_invalid_chars cleaned in
      if bool_decide (cleaned = "") || bool_decide (cleaned ∈ ["."; "-"]) then
        "invalid_domain_" +:+ pretty (hash domain `mod` 10000)
      else cleaned
  end.

(** The label column of [export_nodes_to_csv]:
    [sanitize_domain_name(node_data.get("domain", str(node_id)))]. *)
Definition node_label (node_id : node) (node_data : NodeData) : string :=
  let raw_domain := default (pretty node_id) (domain node_data) in
  sanitize_domain_name (Some raw_domain).
End Sanitize.

(* ===================================================================== *)
(** ** renderer.py: node size, edge width and strength                    *)
(* ===================================================================== *)

Section NodeSize.
(** [math.log2] on a positive integer. *)
Variable log2 : Z → Q.

(** [calculate_node_size(degree, base_size=1.0, scale_factor=0.3,
    max_size=5.0)], in exact arithmetic.  The code computes in binary64:
    the two agree up to rounding as long as no product overflows, which
    is the case for the default parameters. *)
Definition calculate_node_size (degree : Z)
    (base_size scale_factor max_size : option Q) : Q :=
  let base_size := default 1%Q base_size in
  let scale_factor := default (3 # 10)%Q scale_factor in
  let max_size := default 5%Q max_size in
  if (degree <=? 1)%Z then base_size
  else
    let size := (base_size * (1 + scale_factor * log2 degree))%Q in
    Qmin size max_size.
End NodeSize.

(** [categorize_edge_strength(weight)] *)
Definition categorize_edge_strength (weight : Z) : string :=
  if (weight <=? 1)%Z then "weak"
  else if (weight <=? 5)%Z then "medium"
  else if (weight <=? 10)%Z then "strong"
  else "very_strong".

(** Rounding to the nearest integer, ties to the even one. *)
Definition round_half_even (q : Q) : Z :=
  let f := Qfloor q in
  match ((q - inject_Z f) ?= (1 # 2))%Q with
  | Lt => f
  | Gt => (f + 1)%Z
  | Eq => if Z.even f then f else (f + 1)%Z
  end.

(** [round(q, ndigits)] of a float *)
Definition py_round (q : Q) (ndigits : nat) : Q :=
  (inject_Z (round_half_even (q * inject_Z (10 ^ Z.of_nat ndigits)))
   / inject_Z (10 ^ Z.of_nat ndigits))%Q.

(** [tuple(sorted([str(source), str(target)]))] *)
Definition edge_key (source target : node) : string * string :=
  let a := pretty source in
  let b := pretty target in
  if String.ltb b a then (b, a) else (a, b).

(** The body of the counting loop: [edge_counts[edge_key] += 1] on a
    [defaultdict(int)]. *)
Definition count_edge (edge_counts : gmap (string * string) nat) (e : node * node)
  : gmap (string * string) nat :=
  let k := edge_key e.1 e.2 in
  <[k := S (default 0%nat (edge_counts !! k))]> edge_counts.

Definition min_width : Q := (1 # 10)%Q.
Definition max_width : Q := 3%Q.

(** [calculate_edge_weights(G)]; the line it prints is left out. *)
Definition calculate_edge_weights (g : DiGraph) : gmap (string * string) Q :=
  let edge_counts := foldl count_edge ∅ (elements (dom (_adj g))) in
  if decide (edge_counts = ∅) then ∅
  else
    let max_count := max_list (snd <$> map_to_list edge_counts) in
    (λ count : nat,
       let normalized_weight :=
         (min_width + (inject_Z (Z.of_nat count) / inject_Z (Z.of_nat max_count))
                      * (max_width - min_width))%Q in
       py_round normalized_weight 2) <$> edge_counts.

(* ===================================================================== *)
(** ** renderer.py: field sanitisation                                    *)
(* ===================================================================== *)

Definition double_quote : ascii := "034"%char.
Definition single_quote : ascii := "039"%char.
Definition line_feed : ascii := "010"%char.
Definition carriage_return : ascii := "013"%char.
Definition space : ascii := " "%char.

(** [re.sub(r'\s+', ' ', s)] on the characters of [s]: [in_run] says that
    the previous character was white space. *)
Fixpoint collapse_whitespace (in_run : bool) (l : list ascii) : list ascii :=
  match l with
  | [] => []
  | c :: rest =>
      if is_space c then
        if in_run then collapse_whitespace true rest
        else space :: collapse_whitespace true rest
      else c :: collapse_whitespace false rest
  end.

(** [sanitize_csv_field(value)]; the argument is [None] or a [str]. *)
Definition sanitize_csv_field (value : option string) : string :=
  match value with
  | None => ""
  | Some "" => ""
  | Some value =>
      let cleaned := list_ascii_of_string (py_strip value) in
      let cleaned :=
        filter (λ c, c ≠ single_quote)
          (filter (λ c, c ≠ double_quote) cleaned) in
      let cleaned :=
        (λ c, if decide (c = carriage_return) then space else c) <$>
          ((λ c, if decide (c = line_feed) then space else c) <$> cleaned) in
      let cleaned := collapse_whitespace false cleaned in
      py_strip (string_of_list_ascii cleaned)
  end.

(* ===================================================================== *)
(** ** renderer.py: the rows of the two CSV files                         *)
(* ===================================================================== *)

(** The dictionary handed to [writer.writerow] for a node. *)
Record nodes_csv_row := mkNodesCsvRow {
  csv_id : string;
  csv_label : string;
  csv_x : Q;
  csv_y : Q;
  csv_size : Q;
  csv_color : string;
  csv_cluster : string;
  csv_crawl_count : Z;
  csv_depth : Z
}.

(** The dictionary handed to [writer.writerow] for an edge. *)
Record edges_csv_row := mkEdgesCsvRow {
  csv_source : string;
  csv_target : string;
  csv_width : Q;
  csv_strength : string;
  csv_weight : Z
}.

(** How an export ends: the rows written, a [KeyError] of
    [positions[node_id]], or another exception. *)
Inductive export_result (A : Type) :=
| Written (rows : A)
| KeyError (key : node)
| Failed (e : exn).
Arguments Written {A} rows.
Arguments KeyError {A} key.
Arguments Failed {A} e.

(** [positions[node_id]] *)
Fixpoint positions_get (positions : list (node * position)) (node_id : node)
  : option position :=
  match positions with
  | [] => None
  | (n, xy) :: rest =>
      if decide (n = node_id) then Some xy else positions_get rest node_id
  end.

Section CsvExport.
Variable log2 : Z → Q.
Variable hash : string → Z.

(** The body of the loop of [export_nodes_to_csv] for one node: the row,
    and whether the label differs from the raw domain. *)
Definition export_node (g : DiGraph) (positions : list (node * position))
    (node_id : node) (node_data : NodeData)
  : export_result (nodes_csv_row * bool) :=
  let raw_domain := default (pretty node_id) (domain node_data) in
  let sanitized_domain := sanitize_domain_name hash (Some raw_domain) in
  let degree := Z.of_nat (degree g node_id) in
  let crawl_count := default 1%Z (crawl_count node_data) in
  let depth := default 0%Z (depth node_data) in
  match positions_get positions node_id with
  | None => KeyError node_id
  | Some (x, y) =>
      let size := calculate_node_size log2 degree None None None in
      match calculate_node_color log2 degree with
      | Raise e => Failed e
      | Return color =>
          let cluster := sanitize_csv_field (Some ("depth_" +:+ pretty depth)) in
          Written
            (mkNodesCsvRow (pretty node_id) sanitized_domain
               (py_round x 3) (py_round y 3) (py_round size 3)
               color cluster crawl_count depth,
             negb (bool_decide (sanitized_domain = raw_domain)))
      end
  end.

(** The loop of [export_nodes_to_csv]: the rows in node order and
    [sanitization_count]; it stops at the first exception. *)
Fixpoint export_nodes_loop (g : DiGraph) (positions : list (node * position))
    (nodes : list (node * NodeData))
  : export_result (list nodes_csv_row * nat) :=
  match nodes with
  | [] => Written ([], 0%nat)
  | (node_id, node_data) :: rest =>
      match export_node g positions node_id node_data with
      | KeyError k => KeyError k
      | Failed e => Failed e
      | Written (row, changed) =>
          match export_nodes_loop g positions rest with
          | KeyError k => KeyError k
          | Failed e => Failed e
          | Written (rows, count) =>
              Written (row :: rows, ((if changed then 1 else 0) + count)%nat)
          end
      end
  end.

(** [export_nodes_to_csv(G, positions, output_path)]: what it hands to
    the CSV writer after the header; opening the file and the lines it
    prints are left out. *)
Definition export_nodes_to_csv (g : DiGraph) (positions : list (node * position))
  : export_result (list nodes_csv_row * nat) :=
  export_nodes_loop g positions (_node g).
End CsvExport.

(** [export_edges_to_csv(G, output_path)]: what it hands to the CSV
    writer after the header, one row per edge of [G.edges()]. *)
Definition export_edges_to_csv (g : DiGraph) : list edges_csv_row :=
  let edge_weights := calculate_edge_weights g in
  (λ kv : (node * node) * EdgeData,
     let source := kv.1.1 in
     let target := kv.1.2 in
     let original_weight := get_weight kv.2 in
     let relative_width := default (1 # 10)%Q (edge_weights !! edge_key source target) in
     let strength_category := categorize_edge_strength original_weight in
     mkEdgesCsvRow (pretty source) (pretty target) relative_width
                   strength_category original_weight)
  <$> map_to_list (_adj g).

End renderer.

(* ===================================================================== *)
(** ** main.py: argument validation and the filter stage                  *)
(* ===================================================================== *)

Module main.

(** The parsed command line ([argparse.Namespace]). *)
Record Namespace := mkNamespace {
  db : string;
  output : string;
  min_weight : option Z;
  remove_isolated : bool;
  root : option string;
  depth : Z;
  layout : string;
  stats : bool
}.

(** What [Path.exists()] and [Path.is_file()] answer for each path. *)
Record filesystem := mkFilesystem {
  path_exists : string → bool;
  path_is_file : string → bool
}.

(** [validate_arguments(args)]: [sys.exit(1)] raises [SystemExit]; the
    messages written to stderr are left out. *)
Definition validate_arguments (fs : filesystem) (args : Namespace)
  : M unit :=
  let db_path := db args in
  if negb (path_exists fs db_path) then raise (SystemExit 1)
  else if negb (path_is_file fs db_path) then raise (SystemExit 1)
  else if (depth args <? 1)%Z then raise (SystemExit 1)
  else
    match min_weight args with
    | Some w => if (w <? 0)%Z then raise (SystemExit 1) else ret tt
    | None => ret tt
    end.

(** [try: body except ValueError: handler] *)
Definition try_except_ValueError {A} (body : M A) (handler : string → M A) : M A :=
  λ s, match body s with
       | (Raise (ValueError msg), s') => handler msg s'
       | r => r
       end.

(** [main()] from validation to the statistics, without the loading:
    validation first, the exit on an empty graph, then the filters that
    were asked for, in this order.  [G] is the graph [load_graph]
    returned. *)
Definition main_filters (fs : filesystem) (args : Namespace) (G : ref)
  : M ref :=
  (validate_arguments fs args ;;;
   n <- G_number_of_nodes G ;;
   (if (n =? 0)%nat then raise (SystemExit 1) else ret tt) ;;;
   G <- match min_weight args with
        | Some w => if (w =? 0)%Z then ret G else loader.filter_by_weight G w
        | None => ret G
        end ;;
   G <- (if remove_isolated args then loader.remove_isolated G else ret G) ;;
   match root args with
   | Some r =>
       if bool_decide (r = "") then ret G
       else try_except_ValueError
              (loader.extract_subgraph G r (depth args))
              (λ _, raise (SystemExit 1))
   | None => ret G
   end)%py.

End main.

Import loader renderer.

(* ===================================================================== *)
(** ** Vocabulary of the properties                                       *)
(* ===================================================================== *)

(** The pairs [filter_by_weight] collects in [edges_to_remove]. *)
Definition light_edges (g : DiGraph) (min_weight : Z) : list (node * node) :=
  (λ e : node * node * EdgeData, (e.1.1, e.1.2)) <$>
    filter (λ e : node * node * EdgeData, get_weight e.2 < min_weight) (edges_data g).

(** The graph [filter_by_weight] leaves in the new object. *)
Definition weight_filtered (g : DiGraph) (min_weight : Z) : DiGraph :=
  remove_edges_from g (light_edges g min_weight).

(** The line [filter_by_weight] prints. *)
Definition weight_message (g : DiGraph) (min_weight : Z) : string :=
  "Filtered by weight >= " +:+ pretty min_weight +:+ ": " +:+
  pretty (number_of_edges (weight_filtered g min_weight)) +:+ " edges remaining".

(** The graph [remove_isolated] leaves in the new object. *)
Definition without_isolated (g : DiGraph) : DiGraph :=
  remove_nodes_from g (isolates g).

(** The line [remove_isolated] prints. *)
Definition isolated_message (g : DiGraph) : string :=
  "Removed " +:+ pretty (length (isolates g)) +:+ " isolated nodes".

(** The body of the inner loop of [extract_subgraph]: the successors and
    predecessors of [n] join [new_nodes]. *)
Definition add_neighbours (g : DiGraph) (new_nodes : gset node) (n : node) : gset node :=
  new_nodes ∪ successors g n ∪ predecessors g n.

(** One round of the outer loop. *)
Definition hop_round (g : DiGraph) (nodes : gset node) : gset node :=
  nodes ∪ foldl (add_neighbours g) ∅ (elements nodes).

(** The node set after [rounds] rounds from [root]. *)
Fixpoint hop_set (g : DiGraph) (root : node) (rounds : nat) : gset node :=
  match rounds with
  | O => {[root]}
  | S i => hop_round g (hop_set g root i)
  end.

(** The line [extract_subgraph] prints, for the graph it returns. *)
Definition subgraph_message (g : DiGraph) : string :=
  "Extracted subgraph: " +:+ pretty (number_of_nodes g) +:+ " nodes, " +:+
  pretty (number_of_edges g) +:+ " edges".

(** The message of the [ValueError] of [extract_subgraph]. *)
Definition not_found_message (root_domain : string) : string :=
  "Domain '" +:+ root_domain +:+ "' not found in graph".

(** [has_edge g u v]: [(u, v)] is an edge of [g]. *)
Definition has_edge (g : DiGraph) (u v : node) : Prop := is_Some (_adj g !! (u, v)).

(** Adjacency with the direction forgotten, as the expansion uses it. *)
Definition adjacent (g : DiGraph) (n m : node) : Prop :=
  has_edge g n m ∨ has_edge g m n.

(** [within g k r m]: [m] is at most [k] edges away from [r], edges taken
    in either direction. *)
Inductive within (g : DiGraph) : nat → node → node → Prop :=
| within_here k r : within g k r r
| within_step k r n m : within g k r n → adjacent g n m → within g (S k) r m.

(** A node row as [load_graph] stores it. *)
Definition site (d : string) : NodeData :=
  mkNodeData (Some d) (Some "") (Some 1) (Some 0).

(** Nodes [{1: "a.com", 2: "b.com", 3: "c.com"}], edges
    [{(1, 2, w=1), (2, 3, w=5)}], built the way [load_graph] builds it. *)
Definition scenario_graph : DiGraph :=
  add_edge
    (add_edge
       (add_node (add_node (add_node empty_graph 1 (site "a.com")) 2 (site "b.com"))
                 3 (site "c.com"))
       1 2 1)
    2 3 5.

(** A store holding the scenario graph at address 0, nothing printed. *)
Definition scenario_state : state := mkState [scenario_graph] [].

(** The scenario graph after the weight filter at 2: node 1 is isolated. *)
Definition filtered_scenario_state : state :=
  mkState [weight_filtered scenario_graph 2] [].

(** [untouched s s']: every object of [s] is the same object in [s']. *)
Definition untouched (s s' : state) : Prop :=
  ∀ r g0, objects s !! r = Some g0 → objects s' !! r = Some g0.

(** [fresh_object s s' r]: [r] names no object of [s] and one of [s']. *)
Definition fresh_object (s s' : state) (r : ref) : Prop :=
  objects s !! r = None ∧ is_Some (objects s' !! r).

(** A command line asking for threshold -1 on an existing database. *)
Definition negative_args : main.Namespace :=
  main.mkNamespace "crawler.db" "./graph_data" (Some (-1)) false None 2 "sfdp" false.

(** A file system in which every path is an existing regular file. *)
Definition any_filesystem : main.filesystem :=
  main.mkFilesystem (λ _, true) (λ _, true).

(** [c] is one of [0-9a-f]. *)
Definition is_hex_digit (c : ascii) : bool :=
  let n := code c in
  ((48 <=? n) && (n <=? 57) || (97 <=? n) && (n <=? 102))%N.

(** [s] is exactly two hexadecimal digits. *)
Definition two_hex_digits (s : string) : bool :=
  match s with
  | String a (String b "") => is_hex_digit a && is_hex_digit b
  | _ => false
  end.

(** [s] is ["#"] followed by exactly six hexadecimal digits. *)
Definition is_hex_color (s : string) : bool :=
  match s with
  | String c rest =>
      bool_decide (c = "#"%char) && (String.length rest =? 6)%nat &&
      forallb is_hex_digit (list_ascii_of_string rest)
  | "" => false
  end.

(** The colours [c1] and [c2] differ by at most one unit in each channel. *)
Definition one_unit_apart (c1 c2 : Z * Z * Z) : Prop :=
  Z.abs (c1.1.1 - c2.1.1) ≤ 1 ∧ Z.abs (c1.1.2 - c2.1.2) ≤ 1 ∧
  Z.abs (c1.2 - c2.2) ≤ 1.

(** A stand-in for [math.log2] that is exact on the powers of two. *)
Definition log2_floor (z : Z) : Q := inject_Z (Z.log2 z).

(** The range [normalize_positions] divides by on one axis, from the
    smallest and the largest coordinate. *)
Definition axis_range (lo hi : Q) : Q :=
  if negb (Qeq_bool hi lo) then (hi - lo)%Q else 1%Q.

(** One coordinate rescaled, before any jitter. *)
Definition rescale (lo range scale v : Q) : Q := ((v - lo) / range * scale)%Q.

(** The first coordinates of a position dictionary, in its order. *)
Definition xs_of (pos : list (node * position)) : list Q :=
  (λ c : node * position, c.2.1) <$> pos.

(** Likewise for the second coordinate. *)
Definition ys_of (pos : list (node * position)) : list Q :=
  (λ c : node * position, c.2.2) <$> pos.

(** Positions [{1: (0, 0), 2: (1, 1)}]. *)
Definition two_positions : list (node * position) :=
  [(1, (0, 0)%Q); (2, (1, 1)%Q)].

(** A generator that always draws one half. *)
Definition draw_half : nat → Q := λ _, (1 # 2)%Q.

(** The place of a strength category on the scale weak, medium, strong,
    very strong. *)
Definition strength_rank (category : string) : nat :=
  if decide (category = "weak") then 0
  else if decide (category = "medium") then 1
  else if decide (category = "strong") then 2
  else 3.

(** One step of each loop of [load_graph], and the graph it builds. *)
Definition add_node_row (has_depth : bool) (g : DiGraph) (row : node_row) : DiGraph :=
  add_node g (row_node_id row) (node_attributes has_depth row).

Definition add_edge_row (g : DiGraph) (row : edge_row) : DiGraph :=
  add_edge g (row_from row) (row_to row) (or_1 (row_weight row)).

Definition loaded_nodes (db : database) : DiGraph :=
  foldl (add_node_row (has_depth db)) empty_graph (node_rows db).

Definition loaded_graph (db : database) : DiGraph :=
  foldl add_edge_row (loaded_nodes db) (edge_rows db).

(** The ordered pair an edge row is about. *)
Definition row_pair (row : edge_row) : node * node := (row_from row, row_to row).

(** The scenario as rows of a legacy database (no depth column). *)
Definition scenario_database : database :=
  mkDatabase false
    [mkNodeRow 1 (Some "a.com") None None None;
     mkNodeRow 2 (Some "b.com") None None None;
     mkNodeRow 3 (Some "c.com") None None None]
    [mkEdgeRow 1 2 (Some 1); mkEdgeRow 2 3 (Some 5)].

(** Rows that do not fit together: node 1 twice, a NULL domain, a zero
    crawl count, an edge to a node 7 without a row, the pair (1, 2)
    twice, NULL and zero weights. *)
Definition untidy_database : database :=
  mkDatabase true
    [mkNodeRow 1 (Some "a.com") None None None;
     mkNodeRow 2 None (Some "d") (Some 0) (Some 3);
     mkNodeRow 1 (Some "z.com") (Some "") (Some 4) None]
    [mkEdgeRow 1 2 None; mkEdgeRow 2 7 (Some 0); mkEdgeRow 1 2 (Some 9)].

(** A store with no object and nothing printed. *)
Definition empty_state : state := mkState [] [].

(** The command line passes [validate_arguments]. *)
Definition valid_arguments (fs : main.filesystem) (args : main.Namespace) : Prop :=
  main.path_exists fs (main.db args) = true ∧
  main.path_is_file fs (main.db args) = true ∧
  1 ≤ main.depth args ∧
  (∀ w, main.min_weight args = Some w → 0 ≤ w).

(** The graph after the weight stage of [main]: [if args.min_weight:]
    skips the filter for an absent and for a zero threshold. *)
Definition weight_stage (args : main.Namespace) (g : DiGraph) : DiGraph :=
  match main.min_weight args with
  | Some w => if w =? 0 then g else weight_filtered g w
  | None => g
  end.

(** The graph after the weight and the isolation stage. *)
Definition filtered_graph (args : main.Namespace) (g : DiGraph) : DiGraph :=
  if main.remove_isolated args then without_isolated (weight_stage args g)
  else weight_stage args g.

(** The root [main] extracts around: [if args.root:] skips an absent and
    an empty [--root]. *)
Definition requested_root (args : main.Namespace) : option string :=
  match main.root args with
  | Some r => if bool_decide (r = "") then None else Some r
  | None => None
  end.

(** The graph [main] goes on with after the three stages. *)
Definition final_graph (args : main.Namespace) (g : DiGraph) : DiGraph :=
  let g2 := filtered_graph args g in
  match requested_root args with
  | Some r =>
      match find_root (_node g2) r with
      | Some root_id => subgraph g2 (hop_set g2 root_id (Z.to_nat (main.depth args)))
      | None => g2
      end
  | None => g2
  end.

(** A command line with all three filters, and one with none. *)
Definition full_args : main.Namespace :=
  main.mkNamespace "crawler.db" "./graph_data" (Some 2) true (Some "b.com") 1 "sfdp" false.
Definition plain_args : main.Namespace :=
  main.mkNamespace "crawler.db" "./graph_data" (Some 0) false (Some "") 2 "sfdp" false.
Definition lost_root_args : main.Namespace :=
  main.mkNamespace "crawler.db" "./graph_data" (Some 2) true (Some "a.com") 2 "sfdp" false.

(** The order [get_stats] sorts by: a larger degree comes first. *)
Definition by_degree (a b : node * nat) : Prop := (b.2 ≤ a.2)%nat.

(** A store holding the empty graph at address 0. *)
Definition empty_graph_state : state := mkState [empty_graph] [].

(** [c] is one of the two quote characters. *)
Definition is_quote (c : ascii) : bool :=
  bool_decide (c = double_quote) || bool_decide (c = single_quote).

(** [tidy l]: no quote in [l], and every white-space character of [l] is
    a space that no white space follows. *)
Fixpoint tidy (l : list ascii) : bool :=
  match l with
  | [] => true
  | c :: rest =>
      (if is_space c then
         bool_decide (c = space) &&
         match rest with [] => true | d :: _ => negb (is_space d) end
       else negb (is_quote c)) && tidy rest
  end.

(** [l] is tidy and neither starts nor ends with white space. *)
Definition clean_field (l : list ascii) : Prop :=
  tidy l = true ∧
  (∀ c rest, l = c :: rest → is_space c = false) ∧
  (∀ c front, l = front ++ [c] → is_space c = false).

(** [s.strip()] on the characters. *)
Definition strip_chars (l : list ascii) : list ascii :=
  rev (lstrip_chars (rev (lstrip_chars l))).

(** [c] is a decimal digit. *)
Definition is_digit (c : ascii) : bool :=
  let n := code c in ((48 <=? n) && (n <=? 57))%N.

Definition underscore : ascii := "_"%char.

(** [u] and [v] are joined by an edge in each direction. *)
Definition reciprocal (g : DiGraph) (u v : node) : Prop :=
  u ≠ v ∧ has_edge g u v ∧ has_edge g v u.

(** How many of the edges [es] have the key [k]. *)
Definition key_count (k : string * string) (es : list (node * node)) : nat :=
  length (filter (λ e : node * node, edge_key e.1 e.2 = k) es).

(** The scenario graph with the edge [(2, 1)] added. *)
Definition reciprocal_graph : DiGraph := add_edge scenario_graph 2 1 3.

(** A layout of the scenario graph. *)
Definition scenario_positions : list (node * position) :=
  [(1, (0, 0)%Q); (2, (1, 2)%Q); (3, (2, 1)%Q)].

(** The magnitudes at which the code, which computes in binary64, agrees
    with exact arithmetic up to rounding: below [2^1022] no difference or
    sum of two values overflows.  Beyond it [max - min] can become [inf]
    and a coordinate [nan], which the rationals do not show. *)
Definition binary64_safe (q : Q) : Prop := (Qabs q <= inject_Z (2 ^ 1022))%Q.

(** Every coordinate of a position dictionary is in that range. *)
Definition positions_safe (pos : list (node * position)) : Prop :=
  ∀ n x y, (n, (x, y)) ∈ pos → binary64_safe x ∧ binary64_safe y.

(** The value of a hexadecimal digit [0-9a-f]. *)
Definition hex_digit_value (c : ascii) : option Z :=
  let n := code c in
  if ((48 <=? n) && (n <=? 57))%N then Some (Z.of_N n - 48)
  else if ((97 <=? n) && (n <=? 102))%N then Some (Z.of_N n - 87)
  else None.

(** The byte that two hexadecimal digits denote. *)
Definition hex_byte (a b : ascii) : option Z :=
  match hex_digit_value a, hex_digit_value b with
  | Some x, Some y => Some (16 * x + y)
  | _, _ => None
  end.

(** The channels [(red, green, blue)] that a colour ["#rrggbb"] denotes. *)
Definition parse_color (s : string) : option (Z * Z * Z) :=
  match s with
  | String h (String r1 (String r2 (String g1 (String g2 (String b1 (String b2 "")))))) =>
      if bool_decide (h = "#"%char) then
        match hex_byte r1 r2, hex_byte g1 g2, hex_byte b1 b2 with
        | Some r, Some g, Some b => Some (r, g, b)
        | _, _, _ => None
        end
      else None
  | _ => None
  end.

(** [format_02x] of [z] is two digits that denote [z]. *)
Definition denotes_byte (z : Z) : bool :=
  match format_02x z with
  | String a (String b "") => bool_decide (hex_byte a b = Some z)
  | _ => false
  end.

(* ===================================================================== *)
(** ** Graph operations: basic facts                                      *)
(* ===================================================================== *)

Lemma remove_edges_from_node g ebunch :
  _node (remove_edges_from g ebunch) = _node g.
Proof.
  revert g. induction ebunch as [|e es IH]; intros g; simpl; [done|].
  rewrite IH. done.
Qed.

Lemma remove_edges_from_lookup g ebunch k :
  _adj (remove_edges_from g ebunch) !! k
  = if decide (k ∈ ebunch) then None else _adj g !! k.
Proof.
  revert g. induction ebunch as [|e es IH]; intros g.
  - destruct (decide (k ∈ [])) as [H|]; [by apply elem_of_nil in H|done].
  - change (remove_edges_from g (e :: es)) with (remove_edges_from (remove_edge g e) es).
    rewrite IH. unfold remove_edge; cbn [_adj].
    destruct (decide (k ∈ es)) as [Hin|Hnin].
    + rewrite decide_True; [done|by right].
    + destruct (decide (k = e)) as [->|Hne].
      * rewrite decide_True; [|by left]. apply lookup_delete_eq.
      * rewrite decide_False; [by apply lookup_delete_ne|].
        intros [?|?]%elem_of_cons; done.
Qed.

Lemma elem_of_edges_data g u v d :
  (u, v, d) ∈ edges_data g ↔ _adj g !! (u, v) = Some d.
Proof.
  unfold edges_data. rewrite list_elem_of_fmap. split.
  - intros [[[u' v'] d'] [Heq Hin]]. simpl in Heq. simplify_eq.
    by apply elem_of_map_to_list in Hin.
  - intros H. exists ((u, v), d). split; [done|]. by apply elem_of_map_to_list.
Qed.

Lemma elem_of_light_edges g w u v :
  (u, v) ∈ light_edges g w ↔ ∃ d, _adj g !! (u, v) = Some d ∧ get_weight d < w.
Proof.
  unfold light_edges. rewrite list_elem_of_fmap. split.
  - intros [[[u' v'] d] [Heq Hin]]. simpl in Heq. simplify_eq.
    apply list_elem_of_filter in Hin as [Hw Hin]. simpl in Hw.
    exists d. split; [by apply elem_of_edges_data|done].
  - intros (d & Hd & Hw). exists (u, v, d). split; [done|].
    apply list_elem_of_filter. split; [done|]. by apply elem_of_edges_data.
Qed.

(** Removing the light edges leaves exactly the edges of weight at least
    the threshold. *)
Lemma remove_light_edges_lookup g w u v d :
  _adj (remove_edges_from g (light_edges g w)) !! (u, v) = Some d
  ↔ _adj g !! (u, v) = Some d ∧ w ≤ get_weight d.
Proof.
  rewrite remove_edges_from_lookup.
  destruct (decide ((u, v) ∈ light_edges g w)) as [Hin|Hnin].
  - apply elem_of_light_edges in Hin as (d' & Hd' & Hw).
    split; [done|]. intros [Hd Hle]. simplify_eq. lia.
  - split.
    + intros Hd. split; [done|].
      destruct (decide (w ≤ get_weight d)) as [|Hlt]; [done|].
      exfalso. apply Hnin, elem_of_light_edges. exists d. split; [done|lia].
    + by intros [? _].
Qed.

(* ===================================================================== *)
(** ** Running the store operations                                       *)
(* ===================================================================== *)

Lemma lookup_last_object (objs : list DiGraph) g :
  (objs ++ [g]) !! length objs = Some g.
Proof. rewrite lookup_app_r; [|lia]. by rewrite Nat.sub_diag. Qed.

Lemma insert_last_object (objs : list DiGraph) g g' :
  <[length objs := g']> (objs ++ [g]) = objs ++ [g'].
Proof.
  rewrite insert_app_r_alt; [|lia]. by rewrite Nat.sub_diag.
Qed.

Lemma lookup_older_object (objs : list DiGraph) g (r : ref) g0 :
  objs !! r = Some g0 → (objs ++ [g]) !! r = Some g0.
Proof. intros H. by apply lookup_app_l_Some. Qed.

Lemma deref_run r s g :
  objects s !! r = Some g → deref r s = (Return g, s).
Proof. intros H. unfold deref. by rewrite H. Qed.

Lemma mutate_run r f s g :
  objects s !! r = Some g →
  mutate r f s = (Return tt, mkState (<[r := f g]> (objects s)) (stdout s)).
Proof. intros H. unfold mutate. by rewrite H. Qed.

Lemma filter_by_weight_run G min_weight s g :
  objects s !! G = Some g →
  filter_by_weight G min_weight s =
    (Return (length (objects s)),
     mkState (objects s ++ [weight_filtered g min_weight])
             (stdout s ++ [weight_message g min_weight])).
Proof.
  intros HG.
  unfold filter_by_weight, G_edges_data, G_copy, G_remove_edges_from,
    G_number_of_edges, bind.
  rewrite (deref_run _ _ g HG); simpl.
  rewrite (deref_run _ _ g HG); simpl.
  erewrite mutate_run; [|apply lookup_last_object]; simpl.
  rewrite insert_last_object.
  erewrite deref_run; [|apply lookup_last_object]; simpl.
  done.
Qed.

Lemma remove_isolated_run G s g :
  objects s !! G = Some g →
  remove_isolated G s =
    (Return (length (objects s)),
     mkState (objects s ++ [without_isolated g])
             (stdout s ++ [isolated_message g])).
Proof.
  intros HG.
  unfold remove_isolated, nx_isolates, G_copy, G_remove_nodes_from, bind.
  rewrite (deref_run _ _ g HG); simpl.
  rewrite (deref_run _ _ g HG); simpl.
  erewrite mutate_run; [|apply lookup_last_object]; simpl.
  rewrite insert_last_object.
  done.
Qed.

Lemma for_each_pure {A B} (xs : list A) (acc : B) (body : A → B → M B)
    (f : B → A → B) s :
  (∀ x a, body x a s = (Return (f a x), s)) →
  for_each xs acc body s = (Return (foldl f acc xs), s).
Proof.
  intros Hbody. revert acc. induction xs as [|x xs IH]; intros acc; simpl.
  - done.
  - unfold bind. rewrite Hbody. apply IH.
Qed.

Lemma foldl_const_rounds {A} (f : A → A) (a : A) (start n : nat) :
  foldl (λ x (_ : nat), f x) a (seq start n) = Nat.iter n f a.
Proof.
  revert a start. induction n as [|n IH]; intros a start; simpl; [done|].
  rewrite IH. clear IH. induction n as [|n IH]; simpl; [done|]. by rewrite IH.
Qed.

Lemma hop_set_iter g root rounds :
  hop_set g root rounds = Nat.iter rounds (hop_round g) {[root]}.
Proof. induction rounds as [|i IH]; simpl; [done|]. by rewrite IH. Qed.

Lemma extract_subgraph_run_found G root_domain depth s g root_id :
  objects s !! G = Some g →
  find_root (_node g) root_domain = Some root_id →
  extract_subgraph G root_domain depth s =
    (Return (length (objects s)),
     mkState (objects s ++ [subgraph g (hop_set g root_id (Z.to_nat depth))])
             (stdout s ++ [subgraph_message
                             (subgraph g (hop_set g root_id (Z.to_nat depth)))])).
Proof.
  intros HG Hroot.
  unfold extract_subgraph, G_nodes_data, bind at 1 2.
  rewrite (deref_run _ _ g HG); simpl. rewrite Hroot.
  unfold bind at 1.
  rewrite (for_each_pure _ _ _ (λ nodes _, hop_round g nodes)).
  - unfold range. rewrite foldl_const_rounds, <- hop_set_iter.
    unfold G_subgraph_copy, G_number_of_nodes, G_number_of_edges, bind.
    rewrite (deref_run _ _ g HG); simpl.
    erewrite deref_run; [|apply lookup_last_object]; simpl.
    erewrite deref_run; [|apply lookup_last_object]; simpl.
    done.
  - intros _ nodes. unfold bind at 1.
    rewrite (for_each_pure _ _ _ (add_neighbours g)); [done|].
    intros n new_nodes. unfold G_successors, G_predecessors, bind.
    rewrite (deref_run _ _ g HG); simpl.
    by rewrite (deref_run _ _ g HG).
Qed.

Lemma extract_subgraph_run_missing G root_domain depth s g :
  objects s !! G = Some g →
  find_root (_node g) root_domain = None →
  extract_subgraph G root_domain depth s =
    (Raise (ValueError (not_found_message root_domain)), s).
Proof.
  intros HG Hroot.
  unfold extract_subgraph, G_nodes_data, bind.
  rewrite (deref_run _ _ g HG); simpl. by rewrite Hroot.
Qed.

(* ===================================================================== *)
(** ** Neighbourhoods and the expansion rounds                            *)
(* ===================================================================== *)

Lemma elem_of_successors g n m : m ∈ successors g n ↔ has_edge g n m.
Proof.
  unfold successors, has_edge.
  rewrite elem_of_list_to_set, list_elem_of_fmap. split.
  - intros [[u v] [-> Hin]]. apply list_elem_of_filter in Hin as [Hu Hin].
    simpl in *. subst u. by apply elem_of_elements, elem_of_dom in Hin.
  - intros H. exists (n, m). split; [done|].
    apply list_elem_of_filter. split; [done|].
    by apply elem_of_elements, elem_of_dom.
Qed.

Lemma elem_of_predecessors g n m : m ∈ predecessors g n ↔ has_edge g m n.
Proof.
  unfold predecessors, has_edge.
  rewrite elem_of_list_to_set, list_elem_of_fmap. split.
  - intros [[u v] [-> Hin]]. apply list_elem_of_filter in Hin as [Hv Hin].
    simpl in *. subst v. by apply elem_of_elements, elem_of_dom in Hin.
  - intros H. exists (m, n). split; [done|].
    apply list_elem_of_filter. split; [done|].
    by apply elem_of_elements, elem_of_dom.
Qed.

Lemma elem_of_add_neighbours g new_nodes n m :
  m ∈ add_neighbours g new_nodes n ↔ m ∈ new_nodes ∨ adjacent g n m.
Proof.
  unfold add_neighbours, adjacent.
  rewrite !elem_of_union, elem_of_successors, elem_of_predecessors. tauto.
Qed.

Lemma elem_of_foldl_add_neighbours g (l : list node) acc m :
  m ∈ foldl (add_neighbours g) acc l ↔ m ∈ acc ∨ ∃ n, n ∈ l ∧ adjacent g n m.
Proof.
  revert acc. induction l as [|x l IH]; intros acc; simpl.
  - split; [by left|]. intros [?|(n & Hn & _)]; [done|].
    by apply elem_of_nil in Hn.
  - rewrite IH, elem_of_add_neighbours. split.
    + intros [[?|?]|(n & Hn & Hadj)].
      * by left.
      * right. exists x. split; [by left|done].
      * right. exists n. split; [by right|done].
    + intros [?|(n & Hn & Hadj)].
      * by left; left.
      * apply elem_of_cons in Hn as [->|Hn].
        -- by left; right.
        -- right. by exists n.
Qed.

(** A round adds exactly the successors and predecessors of the nodes
    already included. *)
Lemma elem_of_hop_round g (nodes : gset node) m :
  m ∈ hop_round g nodes ↔ m ∈ nodes ∨ ∃ n, n ∈ nodes ∧ adjacent g n m.
Proof.
  unfold hop_round. rewrite elem_of_union, elem_of_foldl_add_neighbours.
  split.
  - intros [?|[H|(n & Hn & Hadj)]]; [by left|by apply elem_of_empty in H|].
    right. exists n. split; [by apply elem_of_elements in Hn|done].
  - intros [?|(n & Hn & Hadj)]; [by left|].
    right; right. exists n. split; [by apply elem_of_elements|done].
Qed.

Lemma within_S g k r m : within g k r m → within g (S k) r m.
Proof.
  induction 1 as [k r|k r n m _ IH Hadj]; [constructor|].
  by apply within_step with n.
Qed.

Lemma elem_of_hop_set g r k m : m ∈ hop_set g r k ↔ within g k r m.
Proof.
  revert m. induction k as [|k IH]; intros m; simpl.
  - rewrite elem_of_singleton. split; [intros ->; constructor|].
    by inversion 1.
  - rewrite elem_of_hop_round. split.
    + intros [Hm|(n & Hn & Hadj)].
      * by apply within_S, IH.
      * apply within_step with n; [by apply IH|done].
    + inversion 1 as [|k' r' n m' Hn Hadj]; subst.
      * left. apply IH. constructor.
      * right. exists n. split; [by apply IH|done].
Qed.

(** The search finds the first node, in iteration order, whose domain is
    the one asked for. *)
Lemma find_root_Some l d r :
  find_root l d = Some r ↔
  ∃ l1 data l2, l = l1 ++ (r, data) :: l2 ∧ domain data = Some d ∧
    ∀ n' data', (n', data') ∈ l1 → domain data' ≠ Some d.
Proof.
  induction l as [|[n data] l IH]; simpl.
  - split; [done|]. intros (l1 & ? & ? & Heq & _). by destruct l1.
  - destruct (decide (domain data = Some d)) as [Hd|Hd].
    + split.
      * intros [= ->]. exists [], data, l. split; [done|]. split; [done|].
        intros ?? Hin. by apply elem_of_nil in Hin.
      * intros (l1 & data1 & l2 & Heq & Hd1 & Hfirst).
        destruct l1 as [|[n1 d1] l1]; simpl in Heq; simplify_eq; [done|].
        exfalso. apply (Hfirst n1 d1); [by left|done].
    + rewrite IH. split.
      * intros (l1 & data1 & l2 & -> & Hd1 & Hfirst).
        exists ((n, data) :: l1), data1, l2. split; [done|]. split; [done|].
        intros n' data' [?|?]%elem_of_cons; [by simplify_eq|by eapply Hfirst].
      * intros (l1 & data1 & l2 & Heq & Hd1 & Hfirst).
        destruct l1 as [|[n1 d1] l1]; simpl in Heq; simplify_eq.
        exists l1, data1, l2. split; [done|]. split; [done|].
        intros n' data' Hin. apply (Hfirst n' data'). by right.
Qed.

Lemma find_root_None l d :
  find_root l d = None ↔ ∀ n data, (n, data) ∈ l → domain data ≠ Some d.
Proof.
  induction l as [|[n data] l IH]; simpl.
  - split; [|done]. intros _ ?? Hin. by apply elem_of_nil in Hin.
  - destruct (decide (domain data = Some d)) as [Hd|Hd].
    + split; [done|]. intros H. exfalso. apply (H n data); [by left|done].
    + rewrite IH. split.
      * intros H n' data' [?|?]%elem_of_cons; [by simplify_eq|by eapply H].
      * intros H n' data' Hin. apply (H n' data'). by right.
Qed.

Lemma subgraph_node g nodes n data :
  (n, data) ∈ _node (subgraph g nodes) ↔ (n, data) ∈ _node g ∧ n ∈ nodes.
Proof. unfold subgraph; simpl. rewrite list_elem_of_filter. simpl. tauto. Qed.

Lemma subgraph_edge g nodes u v e :
  _adj (subgraph g nodes) !! (u, v) = Some e
  ↔ _adj g !! (u, v) = Some e ∧ u ∈ nodes ∧ v ∈ nodes.
Proof. unfold subgraph; simpl. rewrite map_lookup_filter_Some. simpl. tauto. Qed.

(* ===================================================================== *)
(** ** Subgraph extraction                                                *)
(* ===================================================================== *)

(** C1.  For a graph [g] held at [G], a root domain and a hop depth:
    the root is the first node in iteration order whose [domain] equals
    the root domain exactly; when no node has that domain the call raises
    [ValueError] (the specification's NotFound) and changes nothing;
    otherwise it returns a new graph whose nodes are the nodes of [g] in
    the hop set after [depth] rounds and whose edges are all edges of [g]
    between two such nodes, where round 0 is the root alone and every
    round adds the successors and predecessors of the nodes included so
    far.  On the scenario graph, root ["b.com"] and depth 1 give nodes
    1, 2, 3 and both edges. *)
Theorem extract_subgraph_spec (s : state) (G : ref) (g : DiGraph)
    (root_domain : string) (depth : Z) :
  objects s !! G = Some g →
  (∀ r, find_root (_node g) root_domain = Some r ↔
     ∃ l1 data l2, _node g = l1 ++ (r, data) :: l2 ∧
       domain data = Some root_domain ∧
       ∀ n' data', (n', data') ∈ l1 → domain data' ≠ Some root_domain) ∧
  ((∀ n data, (n, data) ∈ _node g → domain data ≠ Some root_domain) →
     extract_subgraph G root_domain depth s
     = (Raise (ValueError ("Domain '" +:+ root_domain +:+ "' not found in graph")), s)) ∧
  (∀ r, find_root (_node g) root_domain = Some r →
     ∃ g', extract_subgraph G root_domain depth s
           = (Return (length (objects s)),
              mkState (objects s ++ [g']) (stdout s ++ [subgraph_message g'])) ∧
       (∀ n data, (n, data) ∈ _node g' ↔
          (n, data) ∈ _node g ∧ n ∈ hop_set g r (Z.to_nat depth)) ∧
       (∀ u v e, _adj g' !! (u, v) = Some e ↔
          _adj g !! (u, v) = Some e ∧
          u ∈ hop_set g r (Z.to_nat depth) ∧ v ∈ hop_set g r (Z.to_nat depth))) ∧
  (∀ r, hop_set g r 0 = {[r]}) ∧
  (∀ r i m, m ∈ hop_set g r (S i) ↔
     m ∈ hop_set g r i ∨
     ∃ n, n ∈ hop_set g r i ∧ (m ∈ successors g n ∨ m ∈ predecessors g n)) ∧
  (∃ g', extract_subgraph 0%nat "b.com" 1 scenario_state
         = (Return 1%nat,
            mkState [scenario_graph; g'] ["Extracted subgraph: 3 nodes, 2 edges"]) ∧
     node_ids g' = [1; 2; 3] ∧
     dom (_adj g') = {[(1, 2); (2, 3)]} ∧
     _adj g' !! (1, 2) = Some (mkEdgeData (Some 1)) ∧
     _adj g' !! (2, 3) = Some (mkEdgeData (Some 5))).
Proof.
  intros HG.
  split; [intros r; apply find_root_Some|].
  split.
  { intros Hnone. apply find_root_None in Hnone.
    by apply extract_subgraph_run_missing with g. }
  split.
  { intros r Hroot. eexists. split; [by apply extract_subgraph_run_found|].
    split.
    - intros n data. apply subgraph_node.
    - intros u v e. apply subgraph_edge. }
  split; [done|].
  split.
  { intros r i m. simpl. rewrite elem_of_hop_round.
    unfold adjacent. setoid_rewrite elem_of_successors.
    setoid_rewrite elem_of_predecessors. done. }
  exists (subgraph scenario_graph (hop_set scenario_graph 2 1)).
  split; [|split; [|split; [|split]]].
  - rewrite (extract_subgraph_run_found 0%nat "b.com" 1 scenario_state
               scenario_graph 2); [|done|done].
    change (Z.to_nat 1) with 1%nat.
    replace (subgraph_message (subgraph scenario_graph (hop_set scenario_graph 2 1)))
      with "Extracted subgraph: 3 nodes, 2 edges" by (by vm_compute).
    done.
  - by vm_compute.
  - by vm_compute.
  - by vm_compute.
  - by vm_compute.
Qed.

Lemma extract_subgraph_spec_witness :
  objects scenario_state !! 0%nat = Some scenario_graph ∧
  ∃ g', extract_subgraph 0%nat "b.com" 1 scenario_state
        = (Return (length (objects scenario_state)),
           mkState (objects scenario_state ++ [g'])
                   (stdout scenario_state ++ [subgraph_message g'])) ∧
    (∀ n data, (n, data) ∈ _node g' ↔
       (n, data) ∈ _node scenario_graph ∧
       n ∈ hop_set scenario_graph 2 (Z.to_nat 1)) ∧
    (∀ u v e, _adj g' !! (u, v) = Some e ↔
       _adj scenario_graph !! (u, v) = Some e ∧
       u ∈ hop_set scenario_graph 2 (Z.to_nat 1) ∧
       v ∈ hop_set scenario_graph 2 (Z.to_nat 1)).
Proof.
  split; [reflexivity|].
  destruct (extract_subgraph_spec scenario_state 0%nat scenario_graph "b.com" 1
              eq_refl) as (_ & _ & Hfound & _).
  exact (Hfound 2 eq_refl).
Defined.

(* ===================================================================== *)
(** ** Weight filter                                                      *)
(* ===================================================================== *)

(** C2.  The weight filter returns a new graph with the node dictionary
    of the input and exactly the edges of the input whose weight (1 when
    the attribute is absent) is at least the threshold.  On the scenario
    graph the threshold 2 keeps only edge (2, 3); node 1 is then isolated
    and still a node. *)
Theorem filter_by_weight_spec (s : state) (G : ref) (g : DiGraph) (min_weight : Z) :
  objects s !! G = Some g →
  (∃ g', filter_by_weight G min_weight s
         = (Return (length (objects s)),
            mkState (objects s ++ [g'])
                    (stdout s ++ [weight_message g min_weight])) ∧
     (∀ u v d, _adj g' !! (u, v) = Some d ↔
        _adj g !! (u, v) = Some d ∧ min_weight ≤ get_weight d) ∧
     _node g' = _node g) ∧
  (∃ g', filter_by_weight 0%nat 2 scenario_state
         = (Return 1%nat,
            mkState [scenario_graph; g']
                    ["Filtered by weight >= 2: 1 edges remaining"]) ∧
     dom (_adj g') = {[(2, 3)]} ∧
     _adj g' !! (2, 3) = Some (mkEdgeData (Some 5)) ∧
     node_ids g' = [1; 2; 3] ∧
     isolates g' = [1]).
Proof.
  intros HG. split.
  - exists (weight_filtered g min_weight).
    split; [by apply filter_by_weight_run|]. split.
    + intros u v d. apply remove_light_edges_lookup.
    + apply remove_edges_from_node.
  - exists (weight_filtered scenario_graph 2).
    split; [|split; [|split; [|split]]].
    + rewrite (filter_by_weight_run 0%nat 2 scenario_state scenario_graph); [|done].
      replace (weight_message scenario_graph 2)
        with "Filtered by weight >= 2: 1 edges remaining" by (by vm_compute).
      done.
    + by vm_compute.
    + by vm_compute.
    + by vm_compute.
    + by vm_compute.
Qed.

Lemma filter_by_weight_spec_witness :
  objects scenario_state !! 0%nat = Some scenario_graph ∧
  ∃ g', filter_by_weight 0%nat 2 scenario_state
        = (Return (length (objects scenario_state)),
           mkState (objects scenario_state ++ [g'])
                   (stdout scenario_state ++ [weight_message scenario_graph 2])) ∧
    (∀ u v d, _adj g' !! (u, v) = Some d ↔
       _adj scenario_graph !! (u, v) = Some d ∧ 2 ≤ get_weight d) ∧
    _node g' = _node scenario_graph.
Proof.
  split; [reflexivity|].
  exact (proj1 (filter_by_weight_spec scenario_state 0%nat scenario_graph 2 eq_refl)).
Defined.

(* ===================================================================== *)
(** ** Isolation filter                                                   *)
(* ===================================================================== *)

Lemma filter_all {A} (P : A → Prop) `{!∀ x, Decision (P x)} (l : list A) :
  Forall P l → filter P l = l.
Proof.
  induction 1 as [|x l Hx _ IH]; [done|].
  by rewrite filter_cons_True, IH.
Qed.

Lemma filter_none {A} (P : A → Prop) `{!∀ x, Decision (P x)} (l : list A) :
  Forall (λ x, ¬ P x) l → filter P l = [].
Proof.
  induction 1 as [|x l Hx _ IH]; [done|].
  by rewrite filter_cons_False.
Qed.

Lemma degree_same_adj g g' n : _adj g' = _adj g → degree g' n = degree g n.
Proof. intros H. unfold degree. by rewrite H. Qed.

Lemma degree_zero_no_edge g n u v :
  degree g n = 0%nat → has_edge g u v → u ≠ n ∧ v ≠ n.
Proof.
  unfold degree, has_edge. intros Hdeg Hedge.
  apply Nat.eq_add_0 in Hdeg as [Hout Hin].
  apply length_zero_iff_nil in Hout, Hin.
  assert ((u, v) ∈ elements (dom (_adj g))) as Hel
    by by apply elem_of_elements, elem_of_dom.
  split; intros ->.
  - assert ((n, v) ∈ filter (λ e : node * node, e.1 = n) (elements (dom (_adj g)))) as H
      by (by apply list_elem_of_filter).
    rewrite Hout in H. by apply elem_of_nil in H.
  - assert ((u, n) ∈ filter (λ e : node * node, e.2 = n) (elements (dom (_adj g)))) as H
      by (by apply list_elem_of_filter).
    rewrite Hin in H. by apply elem_of_nil in H.
Qed.

(** Deleting a node of degree zero deletes no edge. *)
Lemma remove_node_isolated_adj g n :
  degree g n = 0%nat → _adj (remove_node g n) = _adj g.
Proof.
  intros Hdeg. unfold remove_node. destruct (has_node g n); [|done]. simpl.
  apply map_filter_id. intros [u v] d Hd. simpl.
  apply (degree_zero_no_edge g n u v Hdeg). by exists d.
Qed.

Lemma remove_node_node g n :
  _node (remove_node g n) = filter (λ kv : node * NodeData, kv.1 ≠ n) (_node g).
Proof.
  unfold remove_node, has_node. case_bool_decide as Hn; [done|].
  symmetry. apply filter_all. apply Forall_forall.
  intros [m d] Hin Hm. simpl in Hm. subst m. apply Hn. unfold node_ids.
  apply list_elem_of_fmap. by exists (n, d).
Qed.

Lemma remove_isolated_nodes g (ns : list node) :
  Forall (λ n, degree g n = 0%nat) ns →
  _adj (remove_nodes_from g ns) = _adj g ∧
  _node (remove_nodes_from g ns)
  = filter (λ kv : node * NodeData, kv.1 ∉ ns) (_node g).
Proof.
  revert g. induction ns as [|n ns IH]; intros g Hall.
  - split; [done|]. simpl. symmetry. apply filter_all.
    apply Forall_forall. intros ? _. apply not_elem_of_nil.
  - apply Forall_cons in Hall as [Hn Hns].
    change (remove_nodes_from g (n :: ns))
      with (remove_nodes_from (remove_node g n) ns).
    pose proof (remove_node_isolated_adj g n Hn) as Hadj.
    destruct (IH (remove_node g n)) as [IHadj IHnode].
    { eapply Forall_impl; [exact Hns|]. intros m Hm. simpl in *.
      by rewrite (degree_same_adj g (remove_node g n) m Hadj). }
    split; [by rewrite IHadj|].
    rewrite IHnode, remove_node_node, list_filter_filter.
    apply list_filter_iff. intros [m d]. simpl.
    rewrite elem_of_cons. tauto.
Qed.

Lemma isolates_degree g : Forall (λ n, degree g n = 0%nat) (isolates g).
Proof.
  apply Forall_forall. intros n Hn.
  by apply list_elem_of_filter in Hn as [? _].
Qed.

Lemma without_isolated_adj g : _adj (without_isolated g) = _adj g.
Proof. apply remove_isolated_nodes, isolates_degree. Qed.

Lemma without_isolated_node g :
  _node (without_isolated g)
  = filter (λ kv : node * NodeData, kv.1 ∉ isolates g) (_node g).
Proof. apply remove_isolated_nodes, isolates_degree. Qed.

(** After the isolation filter no node is isolated. *)
Lemma isolates_without_isolated g : isolates (without_isolated g) = [].
Proof.
  unfold isolates at 1. apply filter_none, Forall_forall.
  intros n Hn Hdeg.
  rewrite (degree_same_adj g _ n (without_isolated_adj g)) in Hdeg.
  unfold node_ids in Hn. rewrite without_isolated_node in Hn.
  apply list_elem_of_fmap in Hn as [[m d] [-> Hin]].
  apply list_elem_of_filter in Hin as [Hnot Hin]. simpl in *.
  apply Hnot. unfold isolates. apply list_elem_of_filter. split; [done|].
  unfold node_ids. apply list_elem_of_fmap. by exists (m, d).
Qed.

Lemma without_isolated_idemp g :
  without_isolated (without_isolated g) = without_isolated g.
Proof.
  unfold without_isolated at 1. by rewrite isolates_without_isolated.
Qed.

(** C6.  Running the isolation filter on its own result changes neither
    the node count nor the edge count: the second run removes nothing and
    returns a graph equal to the first result.  The first result has the
    edges of the input and those of its nodes that have an incident
    edge. *)
Theorem remove_isolated_idempotent (s : state) (G : ref) (g : DiGraph) :
  objects s !! G = Some g →
  ∃ G1 s1 g1 G2 s2 g2,
    remove_isolated G s = (Return G1, s1) ∧ objects s1 !! G1 = Some g1 ∧
    remove_isolated G1 s1 = (Return G2, s2) ∧ objects s2 !! G2 = Some g2 ∧
    number_of_nodes g2 = number_of_nodes g1 ∧
    number_of_edges g2 = number_of_edges g1 ∧
    g2 = g1 ∧
    _adj g1 = _adj g ∧
    (∀ n d, (n, d) ∈ _node g1 ↔ (n, d) ∈ _node g ∧ degree g n ≠ 0%nat).
Proof.
  intros HG.
  pose proof (remove_isolated_run G s g HG) as Hrun1.
  set (s1 := mkState (objects s ++ [without_isolated g])
                     (stdout s ++ [isolated_message g])) in *.
  assert (objects s1 !! length (objects s) = Some (without_isolated g)) as HG1
    by apply lookup_last_object.
  pose proof (remove_isolated_run _ s1 _ HG1) as Hrun2.
  rewrite without_isolated_idemp in Hrun2.
  eexists _, s1, (without_isolated g), _, _, (without_isolated g).
  split; [exact Hrun1|]. split; [exact HG1|]. split; [exact Hrun2|].
  split; [apply lookup_last_object|].
  split; [done|]. split; [done|]. split; [done|].
  split; [apply without_isolated_adj|].
  intros n d. rewrite without_isolated_node, list_elem_of_filter. simpl.
  split.
  - intros [Hnot Hin]. split; [done|]. intros Hdeg. apply Hnot.
    apply list_elem_of_filter. split; [done|].
    apply list_elem_of_fmap. by exists (n, d).
  - intros [Hin Hdeg]. split; [|done].
    intros Hiso. by apply list_elem_of_filter in Hiso as [? _].
Qed.

Lemma remove_isolated_idempotent_witness :
  objects filtered_scenario_state !! 0%nat = Some (weight_filtered scenario_graph 2) ∧
  ∃ G1 s1 g1 G2 s2 g2,
    remove_isolated 0%nat filtered_scenario_state = (Return G1, s1) ∧
    objects s1 !! G1 = Some g1 ∧
    remove_isolated G1 s1 = (Return G2, s2) ∧ objects s2 !! G2 = Some g2 ∧
    number_of_nodes g2 = number_of_nodes g1 ∧
    number_of_edges g2 = number_of_edges g1 ∧
    g2 = g1 ∧
    _adj g1 = _adj (weight_filtered scenario_graph 2) ∧
    (∀ n d, (n, d) ∈ _node g1 ↔
       (n, d) ∈ _node (weight_filtered scenario_graph 2) ∧
       degree (weight_filtered scenario_graph 2) n ≠ 0%nat).
Proof.
  split; [reflexivity|].
  exact (remove_isolated_idempotent filtered_scenario_state 0%nat
           (weight_filtered scenario_graph 2) eq_refl).
Defined.

(* ===================================================================== *)
(** ** The filters do not touch their input                               *)
(* ===================================================================== *)

Lemma alloc_untouched s g out :
  untouched s (mkState (objects s ++ [g]) out).
Proof. intros r g0 H. simpl. by apply lookup_older_object. Qed.

Lemma alloc_fresh s g out :
  fresh_object s (mkState (objects s ++ [g]) out) (length (objects s)).
Proof.
  split; [by apply lookup_ge_None_2|]. simpl. exists g. apply lookup_last_object.
Qed.

Lemma allocated_ne_fresh s (G : ref) g :
  objects s !! G = Some g → length (objects s) ≠ G.
Proof. intros H%lookup_lt_Some. lia. Qed.

(** C7.  Each of the three filters, run on a graph [g] held at [G],
    returns a reference to an object that did not exist before, different
    from [G], and leaves [G] naming the same graph value [g] (nodes, edges
    and attributes) and every other object as it was.  Subgraph extraction
    that fails changes nothing at all. *)
Theorem filters_leave_input_unchanged (s : state) (G : ref) (g : DiGraph) :
  objects s !! G = Some g →
  (∀ min_weight, ∃ G' s',
     filter_by_weight G min_weight s = (Return G', s') ∧
     G' ≠ G ∧ fresh_object s s' G' ∧
     objects s' !! G = Some g ∧ untouched s s') ∧
  (∃ G' s',
     remove_isolated G s = (Return G', s') ∧
     G' ≠ G ∧ fresh_object s s' G' ∧
     objects s' !! G = Some g ∧ untouched s s') ∧
  (∀ root_domain depth,
     (∃ G' s',
        extract_subgraph G root_domain depth s = (Return G', s') ∧
        G' ≠ G ∧ fresh_object s s' G' ∧
        objects s' !! G = Some g ∧ untouched s s') ∨
     (∃ e, extract_subgraph G root_domain depth s = (Raise e, s))).
Proof.
  intros HG. split; [|split].
  - intros w. eexists _, _. split; [by apply filter_by_weight_run|].
    split; [by eapply allocated_ne_fresh|]. split; [apply alloc_fresh|].
    split; [by apply alloc_untouched|apply alloc_untouched].
  - eexists _, _. split; [by apply remove_isolated_run|].
    split; [by eapply allocated_ne_fresh|]. split; [apply alloc_fresh|].
    split; [by apply alloc_untouched|apply alloc_untouched].
  - intros d k. destruct (find_root (_node g) d) as [r|] eqn:Hroot.
    + left. eexists _, _.
      split; [by eapply extract_subgraph_run_found|].
      split; [by eapply allocated_ne_fresh|]. split; [apply alloc_fresh|].
      split; [by apply alloc_untouched|apply alloc_untouched].
    + right. eexists. by eapply extract_subgraph_run_missing.
Qed.

Lemma filters_leave_input_unchanged_witness :
  objects scenario_state !! 0%nat = Some scenario_graph ∧
  ∃ G' s',
    filter_by_weight 0%nat 2 scenario_state = (Return G', s') ∧
    G' ≠ 0%nat ∧ fresh_object scenario_state s' G' ∧
    objects s' !! 0%nat = Some scenario_graph ∧ untouched scenario_state s'.
Proof.
  split; [reflexivity|].
  exact (proj1 (filters_leave_input_unchanged scenario_state 0%nat
                  scenario_graph eq_refl) 2).
Defined.

(* ===================================================================== *)
(** ** A negative weight threshold                                        *)
(* ===================================================================== *)

(** The weight filter does not fail on a negative threshold: on the
    scenario graph, threshold -1, it returns a new graph with both
    edges. *)
Lemma filter_by_weight_negative_returns :
  (∀ e s', filter_by_weight 0%nat (-1) scenario_state ≠ (Raise e, s')) ∧
  ∃ g', filter_by_weight 0%nat (-1) scenario_state
        = (Return 1%nat,
           mkState [scenario_graph; g']
                   ["Filtered by weight >= -1: 2 edges remaining"]) ∧
    dom (_adj g') = {[(1, 2); (2, 3)]} ∧
    node_ids g' = [1; 2; 3].
Proof.
  pose proof (filter_by_weight_run 0%nat (-1) scenario_state scenario_graph
                eq_refl) as Hrun.
  split.
  - intros e s' Heq. rewrite Hrun in Heq. discriminate Heq.
  - exists (weight_filtered scenario_graph (-1)). split; [|split].
    + rewrite Hrun.
      replace (weight_message scenario_graph (-1))
        with "Filtered by weight >= -1: 2 edges remaining" by (by vm_compute).
      done.
    + by vm_compute.
    + by vm_compute.
Qed.

(** C3, amended.  A negative threshold is refused by the validation of
    the command line, not by the filter: [validate_arguments] exits with
    status 1 whatever the other arguments are, so [main] stops before any
    filter runs and the store is as it was; [filter_by_weight] called
    with the same threshold returns a new graph with the nodes of the
    input and its edges of weight at least the threshold. *)
Theorem negative_min_weight_refused_by_validation
    (fs : main.filesystem) (args : main.Namespace) (s : state) (G : ref)
    (g : DiGraph) (w : Z) :
  main.min_weight args = Some w → w < 0 → objects s !! G = Some g →
  main.validate_arguments fs args s = (Raise (SystemExit 1), s) ∧
  main.main_filters fs args G s = (Raise (SystemExit 1), s) ∧
  ∃ g', filter_by_weight G w s
        = (Return (length (objects s)),
           mkState (objects s ++ [g']) (stdout s ++ [weight_message g w])) ∧
    (∀ u v d, _adj g' !! (u, v) = Some d ↔
       _adj g !! (u, v) = Some d ∧ w ≤ get_weight d) ∧
    _node g' = _node g.
Proof.
  intros Hw Hneg HG.
  assert (main.validate_arguments fs args s = (Raise (SystemExit 1), s)) as Hval.
  { unfold main.validate_arguments. rewrite Hw.
    destruct (negb (main.path_exists fs (main.db args))); [done|].
    destruct (negb (main.path_is_file fs (main.db args))); [done|].
    destruct (main.depth args <? 1); [done|].
    by rewrite (proj2 (Z.ltb_lt w 0) Hneg). }
  split; [exact Hval|]. split.
  - unfold main.main_filters, bind at 1. by rewrite Hval.
  - exists (weight_filtered g w). split; [by apply filter_by_weight_run|].
    split; [|apply remove_edges_from_node].
    intros u v d. apply remove_light_edges_lookup.
Qed.

Lemma negative_min_weight_refused_by_validation_witness :
  (main.min_weight negative_args = Some (-1) ∧ -1 < 0 ∧
   objects scenario_state !! 0%nat = Some scenario_graph) ∧
  main.validate_arguments any_filesystem negative_args scenario_state
  = (Raise (SystemExit 1), scenario_state) ∧
  main.main_filters any_filesystem negative_args 0%nat scenario_state
  = (Raise (SystemExit 1), scenario_state).
Proof.
  split; [split; [reflexivity|split; [reflexivity|reflexivity]]|].
  destruct (negative_min_weight_refused_by_validation any_filesystem
              negative_args scenario_state 0%nat scenario_graph (-1)
              eq_refl eq_refl eq_refl) as (Hval & Hmain & _).
  exact (conj Hval Hmain).
Defined.

(* ===================================================================== *)
(** ** Domain-name sanitisation                                           *)
(* ===================================================================== *)

Lemma placeholder_nonempty (n : Z) : "invalid_domain_" +:+ pretty n ≠ "".
Proof. discriminate. Qed.

Lemma sanitize_domain_name_nonempty (hash : string → Z) (domain : option string) :
  sanitize_domain_name hash domain ≠ "".
Proof.
  destruct domain as [[|c s]|]; [discriminate| |discriminate].
  unfold sanitize_domain_name.
  match goal with
  | |- context [strip_invalid_chars ?x] => generalize (strip_invalid_chars x)
  end.
  intros cleaned.
  destruct (bool_decide (cleaned = "")) eqn:Hempty; simpl.
  - apply placeholder_nonempty.
  - destruct (bool_decide (cleaned ∈ ["."; "-"])).
    + apply placeholder_nonempty.
    + by apply bool_decide_eq_false in Hempty.
Qed.

(** C8.  Sanitisation never returns the empty string, whatever the hash
    function of the process is; ["example,com"] becomes ["example.com"];
    ["!!!"] becomes the placeholder ["invalid_domain_"] followed by the
    hash of ["!!!"] modulo 10000, which is not empty. *)
Theorem sanitize_domain_name_spec (hash : string → Z) :
  (∀ domain : string, sanitize_domain_name hash (Some domain) ≠ "") ∧
  sanitize_domain_name hash None ≠ "" ∧
  sanitize_domain_name hash (Some "example,com") = "example.com" ∧
  py_contains comma "example,com" = true ∧
  py_contains dot "example,com" = false ∧
  py_split comma "example,com" = ["example"; "com"] ∧
  forallb (λ part, py_isalnum part || py_contains hyphen part)
          ["example"; "com"] = true ∧
  sanitize_domain_name hash (Some "!!!")
  = "invalid_domain_" +:+ pretty (hash "!!!" `mod` 10000) ∧
  sanitize_domain_name hash (Some "!!!") ≠ "".
Proof.
  split; [intros domain; apply sanitize_domain_name_nonempty|].
  split; [apply sanitize_domain_name_nonempty|].
  split; [by vm_compute|]. split; [by vm_compute|]. split; [by vm_compute|].
  split; [by vm_compute|]. split; [by vm_compute|].
  split; [reflexivity|apply sanitize_domain_name_nonempty].
Qed.

(* ===================================================================== *)
(** ** Node colour                                                        *)
(* ===================================================================== *)

Lemma py_int_range (q : Q) (a b : Z) :
  0 ≤ a → (inject_Z a <= q)%Q → (q < inject_Z b + 1)%Q → a ≤ py_int q ≤ b.
Proof.
  destruct q as [n d]. unfold py_int, Qle, Qlt; simpl.
  rewrite !Z.mul_1_r. intros Ha Hlo Hhi.
  assert (0 ≤ n) as Hn by nia.
  rewrite Z.quot_div_nonneg by lia.
  split.
  - apply Z.div_le_lower_bound; lia.
  - apply Z.lt_succ_r. apply Z.div_lt_upper_bound; lia.
Qed.

Lemma format_02x_byte (z : Z) :
  0 ≤ z ≤ 255 → two_hex_digits (format_02x z) = true.
Proof.
  intros Hz.
  assert (forallb (λ k, two_hex_digits (format_02x (Z.of_nat k))) (seq 0 256) = true)
    as Hall by (by vm_compute).
  rewrite forallb_forall in Hall.
  rewrite <- (Z2Nat.id z) by lia. apply Hall, in_seq. lia.
Qed.

Lemma format_color_hex (r g b : Z) :
  0 ≤ r ≤ 255 → 0 ≤ g ≤ 255 → 0 ≤ b ≤ 255 →
  is_hex_color (format_color (r, g, b)) = true.
Proof.
  intros Hr Hg Hb. unfold format_color; simpl.
  pose proof (format_02x_byte r Hr) as Fr.
  pose proof (format_02x_byte g Hg) as Fg.
  pose proof (format_02x_byte b Hb) as Fb.
  destruct (format_02x r) as [|r1 [|r2 [|]]]; try discriminate Fr.
  destruct (format_02x g) as [|g1 [|g2 [|]]]; try discriminate Fg.
  destruct (format_02x b) as [|b1 [|b2 [|]]]; try discriminate Fb.
  simpl in *.
  apply andb_prop in Fr as [-> ->], Fg as [-> ->], Fb as [-> ->].
  done.
Qed.

Lemma gradient_low (n : Q) :
  (n <= 33 # 100)%Q →
  gradient n = (py_int (n / (33 # 100) * 255), 255, 0).
Proof. intros H%Qle_bool_iff. unfold gradient. by rewrite H. Qed.

Lemma gradient_mid (n : Q) :
  (33 # 100 < n)%Q → (n <= 66 # 100)%Q →
  gradient n = (255, py_int (255 * (1 - (n - (33 # 100)) / (33 # 100) * (5 # 10))), 0).
Proof.
  intros Hlo Hhi%Qle_bool_iff. unfold gradient. rewrite Hhi.
  destruct (Qle_bool n (33 # 100)) eqn:E; [|done].
  apply Qle_bool_iff in E. lra.
Qed.

Lemma gradient_high (n : Q) :
  (66 # 100 < n)%Q →
  gradient n = (255, py_int (128 * (1 - (n - (66 # 100)) / (34 # 100))), 0).
Proof.
  intros Hlo. unfold gradient.
  destruct (Qle_bool n (33 # 100)) eqn:E1; [apply Qle_bool_iff in E1; lra|].
  destruct (Qle_bool n (66 # 100)) eqn:E2; [apply Qle_bool_iff in E2; lra|].
  done.
Qed.

Ltac const_div :=
  unfold Qdiv;
  change (/ (33 # 100))%Q with (100 # 33)%Q;
  change (/ (34 # 100))%Q with (100 # 34)%Q.

(** Bounds of [py_int_range] at constant [a] and [b]: linear arithmetic
    once the constant divisions are multiplications. *)
Ltac byte_bounds :=
  apply py_int_range; [lia| |]; unfold inject_Z; const_div; lra.

(** Every channel of the gradient is a byte. *)
Lemma gradient_channels (n : Q) :
  (0 <= n)%Q → (n <= 1)%Q →
  ∃ r g, gradient n = (r, g, 0) ∧ 0 ≤ r ≤ 255 ∧ 0 ≤ g ≤ 255.
Proof.
  intros H0 H1.
  destruct (Qlt_le_dec (33 # 100) n) as [Hlo|Hlo].
  - destruct (Qlt_le_dec (66 # 100) n) as [Hmid|Hmid].
    + rewrite gradient_high by done. eexists _, _. split; [done|].
      split; [lia|].
      assert (0 ≤ py_int (128 * (1 - (n - (66 # 100)) / (34 # 100))) ≤ 127);
        [|lia].
      byte_bounds.
    + rewrite gradient_mid by done. eexists _, _. split; [done|].
      split; [lia|].
      assert (127 ≤ py_int (255 * (1 - (n - (33 # 100)) / (33 # 100) * (5 # 10))) ≤ 254);
        [|lia].
      byte_bounds.
  - rewrite gradient_low by done. eexists _, _. split; [done|].
    split; [|lia].
    byte_bounds.
Qed.

Lemma gradient_continuous_first (n1 n2 : Q) :
  ((33 # 100) - (1 # 1000) <= n1)%Q → (n1 <= 33 # 100)%Q →
  (33 # 100 < n2)%Q → (n2 <= (33 # 100) + (1 # 1000))%Q →
  one_unit_apart (gradient n1) (gradient n2).
Proof.
  intros H1 H2 H3 H4.
  rewrite gradient_low by done. rewrite gradient_mid by lra.
  assert (254 ≤ py_int (n1 / (33 # 100) * 255) ≤ 255) by byte_bounds.
  assert (254 ≤ py_int (255 * (1 - (n2 - (33 # 100)) / (33 # 100) * (5 # 10))) ≤ 254)
    by byte_bounds.
  unfold one_unit_apart; simpl. lia.
Qed.

Lemma gradient_continuous_second (n1 n2 : Q) :
  ((66 # 100) - (1 # 1000) <= n1)%Q → (n1 <= 66 # 100)%Q →
  (66 # 100 < n2)%Q → (n2 <= (66 # 100) + (1 # 1000))%Q →
  one_unit_apart (gradient n1) (gradient n2).
Proof.
  intros H1 H2 H3 H4.
  rewrite gradient_mid by lra. rewrite gradient_high by done.
  assert (127 ≤ py_int (255 * (1 - (n1 - (33 # 100)) / (33 # 100) * (5 # 10))) ≤ 127)
    by byte_bounds.
  assert (127 ≤ py_int (128 * (1 - (n2 - (66 # 100)) / (34 # 100))) ≤ 127)
    by byte_bounds.
  unfold one_unit_apart; simpl. lia.
Qed.

Lemma normalized_degree_range (log2 : Z → Q) (degree : Z) :
  0 ≤ degree → (0 <= log2 (degree + 1)%Z)%Q →
  ∃ n, normalized_degree log2 degree = Return n ∧
       n = Qmin (log2 (degree + 1) / 6) 1 ∧ (0 <= n)%Q ∧ (n <= 1)%Q.
Proof.
  intros Hdeg Hlog. unfold normalized_degree.
  rewrite (proj2 (Z.leb_gt (degree + 1) 0)) by lia.
  eexists. split; [done|]. split; [done|]. split.
  - apply Q.min_glb; [|lra]. unfold Qdiv. change (/ 6)%Q with (1 # 6)%Q. lra.
  - apply Q.le_min_r.
Qed.

Lemma format_02x_denotes (z : Z) : 0 ≤ z ≤ 255 → denotes_byte z = true.
Proof.
  intros Hz.
  assert (forallb (λ k, denotes_byte (Z.of_nat k)) (seq 0 256) = true)
    as Hall by (by vm_compute).
  rewrite forallb_forall in Hall.
  rewrite <- (Z2Nat.id z) by lia. apply Hall, in_seq. lia.
Qed.

(** The colour string denotes the channels it was made from. *)
Lemma parse_format_color (r g b : Z) :
  0 ≤ r ≤ 255 → 0 ≤ g ≤ 255 → 0 ≤ b ≤ 255 →
  parse_color (format_color (r, g, b)) = Some (r, g, b).
Proof.
  intros Hr Hg Hb. unfold format_color; simpl.
  pose proof (format_02x_denotes r Hr) as Fr.
  pose proof (format_02x_denotes g Hg) as Fg.
  pose proof (format_02x_denotes b Hb) as Fb.
  unfold denotes_byte in *.
  destruct (format_02x r) as [|r1 [|r2 [|]]]; try discriminate Fr.
  destruct (format_02x g) as [|g1 [|g2 [|]]]; try discriminate Fg.
  destruct (format_02x b) as [|b1 [|b2 [|]]]; try discriminate Fb.
  apply bool_decide_eq_true in Fr, Fg, Fb.
  simpl. by rewrite Fr, Fg, Fb.
Qed.

Lemma py_int_floor (q : Q) : (0 <= q)%Q → py_int q = Qfloor q.
Proof.
  destruct q as [n d]. unfold py_int, Qle; simpl. intros Hn.
  apply Z.quot_div_nonneg; lia.
Qed.

Lemma py_int_mono (q1 q2 : Q) :
  (0 <= q1)%Q → (q1 <= q2)%Q → py_int q1 ≤ py_int q2.
Proof.
  intros H0 Hle. rewrite !py_int_floor by lra. by apply Qfloor_resp_le.
Qed.

(** [int] of a value that is not negative is within one unit of it. *)
Lemma py_int_near (q : Q) :
  (0 <= q)%Q → (q - 1 <= inject_Z (py_int q))%Q ∧ (inject_Z (py_int q) <= q + 1)%Q.
Proof.
  intros H0. rewrite py_int_floor by done.
  pose proof (Qfloor_le q) as Hlo. pose proof (Qlt_floor q) as Hhi.
  rewrite inject_Z_plus in Hhi. change (inject_Z 1) with 1%Q in Hhi.
  split; lra.
Qed.

(** On each segment one channel follows the straight line between the
    colours at its ends, within one unit. *)
Lemma gradient_linear_first (n : Q) :
  (0 <= n)%Q → (n <= 33 # 100)%Q →
  ∃ r, gradient n = (r, 255, 0) ∧
    (n / (33 # 100) * 255 - 1 <= inject_Z r)%Q ∧
    (inject_Z r <= n / (33 # 100) * 255 + 1)%Q.
Proof.
  intros H0 H1. rewrite gradient_low by done. eexists. split; [done|].
  apply py_int_near. const_div. lra.
Qed.

Lemma gradient_linear_second (n : Q) :
  (33 # 100 < n)%Q → (n <= 66 # 100)%Q →
  ∃ g, gradient n = (255, g, 0) ∧
    (255 * (1 - (n - (33 # 100)) / (33 # 100) * (5 # 10)) - 1 <= inject_Z g)%Q ∧
    (inject_Z g <= 255 * (1 - (n - (33 # 100)) / (33 # 100) * (5 # 10)) + 1)%Q.
Proof.
  intros H0 H1. rewrite gradient_mid by done. eexists. split; [done|].
  apply py_int_near. const_div. lra.
Qed.

Lemma gradient_linear_third (n : Q) :
  (66 # 100 < n)%Q → (n <= 1)%Q →
  ∃ g, gradient n = (255, g, 0) ∧
    (128 * (1 - (n - (66 # 100)) / (34 # 100)) - 1 <= inject_Z g)%Q ∧
    (inject_Z g <= 128 * (1 - (n - (66 # 100)) / (34 # 100)) + 1)%Q.
Proof.
  intros H0 H1. rewrite gradient_high by done. eexists. split; [done|].
  apply py_int_near. const_div. lra.
Qed.

(** From green to red: along the gradient the red channel never falls
    and the green channel never rises. *)
Lemma gradient_monotone (n1 n2 : Q) :
  (0 <= n1)%Q → (n1 <= n2)%Q → (n2 <= 1)%Q →
  (gradient n1).1.1 ≤ (gradient n2).1.1 ∧ (gradient n2).1.2 ≤ (gradient n1).1.2.
Proof.
  intros H0 Hle H1.
  assert (∀ n, (0 <= n)%Q → (n <= 33 # 100)%Q →
            0 ≤ py_int (n / (33 # 100) * 255) ≤ 255) as Hlow
    by (intros n ? ?; byte_bounds).
  assert (∀ n, (33 # 100 < n)%Q → (n <= 66 # 100)%Q →
            127 ≤ py_int (255 * (1 - (n - (33 # 100)) / (33 # 100) * (5 # 10))) ≤ 254)
    as Hmid by (intros n ? ?; byte_bounds).
  assert (∀ n, (66 # 100 < n)%Q → (n <= 1)%Q →
            0 ≤ py_int (128 * (1 - (n - (66 # 100)) / (34 # 100))) ≤ 127)
    as Hhigh by (intros n ? ?; byte_bounds).
  destruct (Qlt_le_dec (33 # 100) n1) as [Ha|Ha];
    destruct (Qlt_le_dec (66 # 100) n1) as [Hb|Hb];
    destruct (Qlt_le_dec (33 # 100) n2) as [Hc|Hc];
    destruct (Qlt_le_dec (66 # 100) n2) as [Hd|Hd];
    try (exfalso; lra).
  - rewrite !gradient_high by done. simpl. split; [done|].
    apply py_int_mono; const_div; lra.
  - rewrite (gradient_mid n1), (gradient_high n2) by done. simpl. split; [done|].
    specialize (Hmid n1 Ha Hb). specialize (Hhigh n2 Hd H1). lia.
  - rewrite !gradient_mid by done. simpl. split; [done|].
    apply py_int_mono; const_div; lra.
  - rewrite (gradient_low n1), (gradient_high n2) by done. simpl.
    specialize (Hlow n1 H0 Ha). specialize (Hhigh n2 Hd H1). lia.
  - rewrite (gradient_low n1), (gradient_mid n2) by done. simpl.
    specialize (Hlow n1 H0 Ha). specialize (Hmid n2 Hc Hd). lia.
  - rewrite !gradient_low by done. simpl. split; [|done].
    apply py_int_mono; const_div; lra.
Qed.

(** C9.  For a degree that is not negative the colour is the gradient at
    [min(log2(degree + 1) / 6, 1)], formatted as ["#"] and six hexadecimal
    digits that denote its three channels.  The gradient runs from green
    ["#00ff00"] at 0 through yellow ["#ffff00"] at 0.33 and orange
    ["#ff7f00"] at 0.66 to red ["#ff0000"] at 1, and every value in
    [[0, 1]] gives byte channels.  Between these colours it is linear
    within one unit: red rises on the first segment, green falls on the
    second and on the third, and blue is 0.  Along the gradient red
    never falls and green never rises, so a node of larger degree is
    never less red and never more green.  Within 0.001 of either segment
    boundary, a value at or below the boundary and a value above it give
    colours at most one unit apart in each channel.  [log2] is any
    function that is not negative on [degree + 1] where that is used,
    and monotone where degrees are compared. *)
Theorem calculate_node_color_spec (log2 : Z → Q) :
  (∀ degree, 0 ≤ degree →
     calculate_node_color log2 degree
     = Return (format_color (gradient (Qmin (log2 (degree + 1) / 6) 1)))) ∧
  (gradient 0 = (0, 255, 0) ∧ gradient (33 # 100) = (255, 255, 0) ∧
   gradient (66 # 100) = (255, 127, 0) ∧ gradient 1 = (255, 0, 0)) ∧
  (∀ n, (0 <= n)%Q → (n <= 1)%Q → is_hex_color (format_color (gradient n)) = true) ∧
  (∀ degree, 0 ≤ degree → (0 <= log2 (degree + 1)%Z)%Q →
     ∃ c, calculate_node_color log2 degree = Return c ∧ is_hex_color c = true) ∧
  (∀ n1 n2,
     ((33 # 100) - (1 # 1000) <= n1)%Q → (n1 <= 33 # 100)%Q →
     (33 # 100 < n2)%Q → (n2 <= (33 # 100) + (1 # 1000))%Q →
     one_unit_apart (gradient n1) (gradient n2)) ∧
  (∀ n1 n2,
     ((66 # 100) - (1 # 1000) <= n1)%Q → (n1 <= 66 # 100)%Q →
     (66 # 100 < n2)%Q → (n2 <= (66 # 100) + (1 # 1000))%Q →
     one_unit_apart (gradient n1) (gradient n2)) ∧
  (format_color (gradient 0) = "#00ff00" ∧
   format_color (gradient (33 # 100)) = "#ffff00" ∧
   format_color (gradient (66 # 100)) = "#ff7f00" ∧
   format_color (gradient 1) = "#ff0000") ∧
  (∀ r g b, 0 ≤ r ≤ 255 → 0 ≤ g ≤ 255 → 0 ≤ b ≤ 255 →
     parse_color (format_color (r, g, b)) = Some (r, g, b)) ∧
  (∀ degree, 0 ≤ degree → (0 <= log2 (degree + 1)%Z)%Q →
     ∃ c, calculate_node_color log2 degree = Return c ∧
          parse_color c = Some (gradient (Qmin (log2 (degree + 1) / 6) 1))) ∧
  (∀ n, (0 <= n)%Q → (n <= 33 # 100)%Q →
     ∃ r, gradient n = (r, 255, 0) ∧
       (n / (33 # 100) * 255 - 1 <= inject_Z r)%Q ∧
       (inject_Z r <= n / (33 # 100) * 255 + 1)%Q) ∧
  (∀ n, (33 # 100 < n)%Q → (n <= 66 # 100)%Q →
     ∃ g, gradient n = (255, g, 0) ∧
       (255 * (1 - (n - (33 # 100)) / (33 # 100) * (5 # 10)) - 1 <= inject_Z g)%Q ∧
       (inject_Z g <= 255 * (1 - (n - (33 # 100)) / (33 # 100) * (5 # 10)) + 1)%Q) ∧
  (∀ n, (66 # 100 < n)%Q → (n <= 1)%Q →
     ∃ g, gradient n = (255, g, 0) ∧
       (128 * (1 - (n - (66 # 100)) / (34 # 100)) - 1 <= inject_Z g)%Q ∧
       (inject_Z g <= 128 * (1 - (n - (66 # 100)) / (34 # 100)) + 1)%Q) ∧
  (∀ n1 n2, (0 <= n1)%Q → (n1 <= n2)%Q → (n2 <= 1)%Q →
     (gradient n1).1.1 ≤ (gradient n2).1.1 ∧
     (gradient n2).1.2 ≤ (gradient n1).1.2) ∧
  ((∀ a b, 1 ≤ a → a ≤ b → (log2 a <= log2 b)%Q) → (0 <= log2 1%Z)%Q →
   ∀ d1 d2, 0 ≤ d1 → d1 ≤ d2 →
     ∃ c1 c2 r1 g1 r2 g2,
       calculate_node_color log2 d1 = Return c1 ∧
       calculate_node_color log2 d2 = Return c2 ∧
       parse_color c1 = Some (r1, g1, 0) ∧ parse_color c2 = Some (r2, g2, 0) ∧
       r1 ≤ r2 ∧ g2 ≤ g1).
Proof.
  assert (∀ n, (0 <= n)%Q → (n <= 1)%Q →
               is_hex_color (format_color (gradient n)) = true) as Hhex.
  { intros n H0 H1.
    destruct (gradient_channels n H0 H1) as (r & g & -> & Hr & Hg).
    apply format_color_hex; lia. }
  assert (∀ n, (0 <= n)%Q → (n <= 1)%Q →
               parse_color (format_color (gradient n)) = Some (gradient n)) as Hparse.
  { intros n H0 H1.
    destruct (gradient_channels n H0 H1) as (r & g & -> & Hr & Hg).
    apply parse_format_color; lia. }
  assert (∀ degree, 0 ≤ degree →
            calculate_node_color log2 degree
            = Return (format_color (gradient (Qmin (log2 (degree + 1) / 6) 1))))
    as Hrun.
  { intros degree Hdeg. unfold calculate_node_color, normalized_degree.
    by rewrite (proj2 (Z.leb_gt (degree + 1) 0)) by lia. }
  assert (∀ degree, 0 ≤ degree → (0 <= log2 (degree + 1)%Z)%Q →
            (0 <= Qmin (log2 (degree + 1)%Z / 6) 1)%Q ∧
            (Qmin (log2 (degree + 1)%Z / 6) 1 <= 1)%Q) as Hrange.
  { intros degree Hdeg Hlog.
    destruct (normalized_degree_range log2 degree Hdeg Hlog)
      as (n & _ & -> & H0 & H1). done. }
  split; [exact Hrun|].
  split; [by vm_compute|].
  split; [exact Hhex|].
  split.
  { intros degree Hdeg Hlog. destruct (Hrange degree Hdeg Hlog) as [H0 H1].
    eexists. split; [by apply Hrun|by apply Hhex]. }
  split; [apply gradient_continuous_first|].
  split; [apply gradient_continuous_second|].
  split; [by vm_compute|].
  split; [apply parse_format_color|].
  split.
  { intros degree Hdeg Hlog. destruct (Hrange degree Hdeg Hlog) as [H0 H1].
    eexists. split; [by apply Hrun|by apply Hparse]. }
  split; [apply gradient_linear_first|].
  split; [apply gradient_linear_second|].
  split; [apply gradient_linear_third|].
  split; [apply gradient_monotone|].
  intros Hmono Hlog1 d1 d2 Hd1 Hd.
  assert (∀ d, 0 ≤ d → (0 <= log2 (d + 1)%Z)%Q) as Hlog.
  { intros d Hd0. pose proof (Hmono 1 (d + 1) ltac:(lia) ltac:(lia)). lra. }
  destruct (Hrange d1 Hd1 (Hlog d1 Hd1)) as [Ha0 Ha1].
  destruct (Hrange d2 ltac:(lia) (Hlog d2 ltac:(lia))) as [Hb0 Hb1].
  assert (Qmin (log2 (d1 + 1)%Z / 6) 1 <= Qmin (log2 (d2 + 1)%Z / 6) 1)%Q as Hle.
  { apply Q.min_le_compat_r. unfold Qdiv. apply Qmult_le_compat_r; [|done].
    apply Hmono; lia. }
  destruct (gradient_monotone _ _ Ha0 Hle Hb1) as [Hred Hgreen].
  destruct (gradient_channels _ Ha0 Ha1) as (r1 & g1 & E1 & _ & _).
  destruct (gradient_channels _ Hb0 Hb1) as (r2 & g2 & E2 & _ & _).
  exists (format_color (gradient (Qmin (log2 (d1 + 1) / 6) 1))),
         (format_color (gradient (Qmin (log2 (d2 + 1) / 6) 1))), r1, g1, r2, g2.
  split; [by apply Hrun|]. split; [apply Hrun; lia|].
  split; [rewrite Hparse by done; by rewrite E1|].
  split; [rewrite Hparse by done; by rewrite E2|].
  rewrite E1, E2 in Hred, Hgreen. simpl in Hred, Hgreen. done.
Qed.

Lemma calculate_node_color_spec_witness :
  (0 ≤ 1 ∧ (0 <= log2_floor (1 + 1))%Q ∧
   ∃ c, calculate_node_color log2_floor 1 = Return c ∧ is_hex_color c = true) ∧
  ((((33 # 100) - (1 # 1000) <= 33 # 100)%Q ∧ (33 # 100 <= 33 # 100)%Q ∧
    (33 # 100 < 331 # 1000)%Q ∧ (331 # 1000 <= (33 # 100) + (1 # 1000))%Q) ∧
   one_unit_apart (gradient (33 # 100)) (gradient (331 # 1000))).
Proof.
  destruct (calculate_node_color_spec log2_floor)
    as (_ & _ & _ & Hcolor & Hfirst & _).
  assert (0 ≤ 1) as H0 by discriminate.
  assert (0 <= log2_floor (1 + 1))%Q as H1 by discriminate.
  assert ((33 # 100) - (1 # 1000) <= 33 # 100)%Q as Ha by discriminate.
  assert (33 # 100 <= 33 # 100)%Q as Hb by discriminate.
  assert (33 # 100 < 331 # 1000)%Q as Hc by reflexivity.
  assert (331 # 1000 <= (33 # 100) + (1 # 1000))%Q as Hd by discriminate.
  split.
  - exact (conj H0 (conj H1 (Hcolor 1 H0 H1))).
  - exact (conj (conj Ha (conj Hb (conj Hc Hd)))
                (Hfirst (33 # 100)%Q (331 # 1000)%Q Ha Hb Hc Hd)).
Defined.

(* ===================================================================== *)
(** ** Position normalisation                                             *)
(* ===================================================================== *)

Lemma foldl_Qmin_le (acc : Q) (xs : list Q) :
  (foldl Qmin acc xs <= acc)%Q ∧ Forall (λ y, (foldl Qmin acc xs <= y)%Q) xs.
Proof.
  revert acc. induction xs as [|x xs IH]; intros acc; simpl.
  - split; [lra|constructor].
  - destruct (IH (Qmin acc x)) as [Hacc Hall].
    pose proof (Q.le_min_l acc x). pose proof (Q.le_min_r acc x).
    split; [lra|]. constructor; [lra|done].
Qed.

Lemma foldl_Qmax_ge (acc : Q) (xs : list Q) :
  (acc <= foldl Qmax acc xs)%Q ∧ Forall (λ y, (y <= foldl Qmax acc xs)%Q) xs.
Proof.
  revert acc. induction xs as [|x xs IH]; intros acc; simpl.
  - split; [lra|constructor].
  - destruct (IH (Qmax acc x)) as [Hacc Hall].
    pose proof (Q.le_max_l acc x). pose proof (Q.le_max_r acc x).
    split; [lra|]. constructor; [lra|done].
Qed.

Lemma Qmin_either (a b : Q) : Qmin a b = a ∨ Qmin a b = b.
Proof. unfold Qmin, GenericMinMax.gmin. destruct (a ?= b)%Q; auto. Qed.

Lemma Qmax_either (a b : Q) : Qmax a b = a ∨ Qmax a b = b.
Proof. unfold Qmax, GenericMinMax.gmax. destruct (a ?= b)%Q; auto. Qed.

Lemma foldl_Qmin_elem (acc : Q) (xs : list Q) : foldl Qmin acc xs ∈ acc :: xs.
Proof.
  revert acc. induction xs as [|x xs IH]; intros acc; simpl; [by left|].
  specialize (IH (Qmin acc x)). apply elem_of_cons in IH as [IH|IH].
  - rewrite IH. destruct (Qmin_either acc x) as [->| ->]; [by left|by right; left].
  - by right; right.
Qed.

Lemma foldl_Qmax_elem (acc : Q) (xs : list Q) : foldl Qmax acc xs ∈ acc :: xs.
Proof.
  revert acc. induction xs as [|x xs IH]; intros acc; simpl; [by left|].
  specialize (IH (Qmax acc x)). apply elem_of_cons in IH as [IH|IH].
  - rewrite IH. destruct (Qmax_either acc x) as [->| ->]; [by left|by right; left].
  - by right; right.
Qed.

Section Axis.
Variables (v0 : Q) (vs : list Q).
Let lo := py_min v0 vs.
Let hi := py_max v0 vs.

Lemma axis_bounds v : v ∈ v0 :: vs → (lo <= v)%Q ∧ (v <= hi)%Q.
Proof.
  destruct (foldl_Qmin_le v0 vs) as [Hlo0 Hlo].
  destruct (foldl_Qmax_ge v0 vs) as [Hhi0 Hhi].
  rewrite Forall_forall in Hlo, Hhi.
  intros [->|Hin]%elem_of_cons; [done|].
  split; [by apply Hlo|by apply Hhi].
Qed.

Lemma axis_lo_hi : (lo <= hi)%Q.
Proof.
  destruct (axis_bounds v0) as [? ?]; [by left|]. lra.
Qed.

Lemma axis_range_pos : (0 < axis_range lo hi)%Q.
Proof.
  unfold axis_range. pose proof axis_lo_hi.
  destruct (Qeq_bool hi lo) eqn:E; simpl; [lra|].
  apply Qeq_bool_neq in E.
  destruct (Qlt_le_dec lo hi) as [?|?]; [lra|].
  exfalso. apply E. lra.
Qed.

Lemma axis_in_range v :
  v ∈ v0 :: vs → (0 <= v - lo)%Q ∧ (v - lo <= axis_range lo hi)%Q.
Proof.
  intros [Hlo Hhi]%axis_bounds. split; [lra|].
  unfold axis_range. destruct (Qeq_bool hi lo) eqn:E; simpl; [|lra].
  apply Qeq_bool_eq in E. lra.
Qed.

Lemma axis_lo_attained : lo ∈ v0 :: vs.
Proof. apply foldl_Qmin_elem. Qed.

Lemma axis_hi_attained : hi ∈ v0 :: vs.
Proof. apply foldl_Qmax_elem. Qed.

(** Rescaled coordinates lie between 0 and the scale. *)
Lemma rescale_range scale v :
  (0 <= scale)%Q → v ∈ v0 :: vs →
  (0 <= rescale lo (axis_range lo hi) scale v)%Q ∧
  (rescale lo (axis_range lo hi) scale v <= scale)%Q.
Proof.
  intros Hs [H0 H1]%axis_in_range. pose proof axis_range_pos as Hr.
  unfold rescale.
  assert (0 <= (v - lo) / axis_range lo hi)%Q
    by (apply Qle_shift_div_l; lra).
  assert ((v - lo) / axis_range lo hi <= 1)%Q
    by (apply Qle_shift_div_r; lra).
  split; nra.
Qed.

(** The smallest coordinate is sent to 0. *)
Lemma rescale_lo scale : (rescale lo (axis_range lo hi) scale lo == 0)%Q.
Proof.
  unfold rescale. pose proof axis_range_pos. field. lra.
Qed.

(** On an axis with two different coordinates the largest is sent to the
    scale. *)
Lemma rescale_hi scale :
  (∃ a b, a ∈ v0 :: vs ∧ b ∈ v0 :: vs ∧ ¬ (a == b)%Q) →
  (rescale lo (axis_range lo hi) scale hi == scale)%Q.
Proof.
  intros (a & b & [Ha1 Ha2]%axis_bounds & [Hb1 Hb2]%axis_bounds & Hab).
  unfold rescale, axis_range.
  destruct (Qeq_bool hi lo) eqn:E; simpl.
  - apply Qeq_bool_eq in E. exfalso. apply Hab. lra.
  - apply Qeq_bool_neq in E. field. intros Hz. apply E. lra.
Qed.

(** On an axis where all coordinates agree every coordinate is sent to 0,
    the range being taken as 1. *)
Lemma rescale_degenerate scale v :
  (∀ a b, a ∈ v0 :: vs → b ∈ v0 :: vs → (a == b)%Q) →
  v ∈ v0 :: vs →
  axis_range lo hi = 1%Q ∧ (rescale lo (axis_range lo hi) scale v == 0)%Q.
Proof.
  intros Hall Hv.
  assert (hi == lo)%Q as E
    by (apply Hall; [apply axis_hi_attained|apply axis_lo_attained]).
  assert (v == lo)%Q as Ev by (apply Hall; [done|apply axis_lo_attained]).
  unfold rescale, axis_range. rewrite (Qeq_eq_bool _ _ E). simpl.
  split; [done|]. rewrite Ev. field.
Qed.
End Axis.

Lemma uniform_range (j u : Q) :
  (0 <= j)%Q → (0 <= u)%Q → (u <= 1)%Q →
  (- j <= uniform (- j) j u)%Q ∧ (uniform (- j) j u <= j)%Q.
Proof. intros Hj H0 H1. unfold uniform. split; nra. Qed.

(** Without jitter the loop rescales every entry and draws nothing. *)
Lemma normalize_loop_no_jitter items min_x range_x min_y range_y scale jitter
    random k :
  Qle_bool jitter 0 = true →
  normalize_loop items min_x range_x min_y range_y scale jitter random k
  = ((λ c : node * position,
        (c.1, (rescale min_x range_x scale c.2.1,
               rescale min_y range_y scale c.2.2))) <$> items, k).
Proof.
  intros Hj. induction items as [|[n [x y]] items IH]; simpl; [done|].
  rewrite Hj; simpl. by rewrite IH.
Qed.

(** Every entry of the result comes from an entry of the input: its
    coordinates are the rescaled ones, plus one draw each when the jitter
    is positive. *)
Lemma normalize_loop_elem items min_x range_x min_y range_y scale jitter
    random k n x y :
  (n, (x, y)) ∈ (normalize_loop items min_x range_x min_y range_y scale jitter
                   random k).1 →
  ∃ x0 y0, (n, (x0, y0)) ∈ items ∧
    if Qle_bool jitter 0 then
      x = rescale min_x range_x scale x0 ∧ y = rescale min_y range_y scale y0
    else
      ∃ i i',
        x = (rescale min_x range_x scale x0 + uniform (- jitter) jitter (random i))%Q ∧
        y = (rescale min_y range_y scale y0 + uniform (- jitter) jitter (random i'))%Q.
Proof.
  revert k. induction items as [|[m [a b]] items IH]; intros k; simpl.
  - intros H. by apply elem_of_nil in H.
  - destruct (Qle_bool jitter 0) eqn:Hj; simpl.
    + destruct (normalize_loop items _ _ _ _ _ _ _ k) as [out k'] eqn:E.
      simpl. intros [Heq|Hin]%elem_of_cons.
      * simplify_eq. exists a, b. split; [by left|done].
      * specialize (IH k). rewrite E in IH. simpl in IH.
        destruct (IH Hin) as (x0 & y0 & Hin0 & Hxy).
        exists x0, y0. split; [by right|done].
    + destruct (normalize_loop items _ _ _ _ _ _ _ (S (S k))) as [out k'] eqn:E.
      simpl. intros [Heq|Hin]%elem_of_cons.
      * simplify_eq. exists a, b. split; [by left|]. by exists k, (S k).
      * specialize (IH (S (S k))). rewrite E in IH. simpl in IH.
        destruct (IH Hin) as (x0 & y0 & Hin0 & Hxy).
        exists x0, y0. split; [by right|done].
Qed.

Lemma normalize_positions_unfold n0 x0 y0 rest scale jitter random k :
  normalize_positions ((n0, (x0, y0)) :: rest) (Some scale) (Some jitter) random k
  = normalize_loop ((n0, (x0, y0)) :: rest)
      (py_min x0 (xs_of rest))
      (axis_range (py_min x0 (xs_of rest)) (py_max x0 (xs_of rest)))
      (py_min y0 (ys_of rest))
      (axis_range (py_min y0 (ys_of rest)) (py_max y0 (ys_of rest)))
      scale jitter random k.
Proof. reflexivity. Qed.

Lemma elem_of_xs n x y (pos : list (node * position)) :
  (n, (x, y)) ∈ pos → x ∈ xs_of pos.
Proof. intros H. apply list_elem_of_fmap. by exists (n, (x, y)). Qed.

Lemma elem_of_ys n x y (pos : list (node * position)) :
  (n, (x, y)) ∈ pos → y ∈ ys_of pos.
Proof. intros H. apply list_elem_of_fmap. by exists (n, (x, y)). Qed.

(** For a scale and a jitter that are not negative, and draws of
    [random.random()] in [[0, 1]] (they matter only when the jitter is
    positive), every coordinate of the result lies in
    [[0 - jitter, scale + jitter]]. *)
Lemma normalize_positions_within pos scale jitter random k n x y :
  (0 <= scale)%Q → (0 <= jitter)%Q →
  ((0 < jitter)%Q → ∀ i, (0 <= random i)%Q ∧ (random i <= 1)%Q) →
  (n, (x, y)) ∈ (normalize_positions pos (Some scale) (Some jitter) random k).1 →
  ((0 - jitter <= x)%Q ∧ (x <= scale + jitter)%Q) ∧
  ((0 - jitter <= y)%Q ∧ (y <= scale + jitter)%Q).
Proof.
  intros Hs Hj Hrand.
  destruct pos as [|[n0 [x0 y0]] rest].
  { simpl. intros H. by apply elem_of_nil in H. }
  rewrite normalize_positions_unfold.
  intros (a & b & Hin & Hxy)%normalize_loop_elem.
  pose proof (rescale_range x0 (xs_of rest) scale a Hs
                (elem_of_xs _ _ _ ((n0, (x0, y0)) :: rest) Hin)) as [Hx0 Hx1].
  pose proof (rescale_range y0 (ys_of rest) scale b Hs
                (elem_of_ys _ _ _ ((n0, (x0, y0)) :: rest) Hin)) as [Hy0 Hy1].
  destruct (Qle_bool jitter 0) eqn:E.
  - destruct Hxy as [-> ->]. split; split; lra.
  - destruct Hxy as (i & i' & -> & ->).
    assert (0 < jitter)%Q as Hpos.
    { destruct (Qlt_le_dec 0 jitter) as [?|Hle]; [done|].
      apply Qle_bool_iff in Hle. congruence. }
    destruct (Hrand Hpos i) as [? ?]. destruct (Hrand Hpos i') as [? ?].
    destruct (uniform_range jitter (random i) Hj) as [? ?]; [done|done|].
    destruct (uniform_range jitter (random i') Hj) as [? ?]; [done|done|].
    split; split; lra.
Qed.

Lemma small_binary64_safe (q : Q) :
  Qle_bool (Qabs q) (inject_Z (2 ^ 1022)) = true → binary64_safe q.
Proof. intros H. by apply Qle_bool_iff. Qed.

Lemma two_positions_safe : positions_safe two_positions.
Proof.
  intros n x y Hin. unfold two_positions in Hin.
  apply elem_of_cons in Hin as [[= -> -> ->]|Hin].
  - split; by apply small_binary64_safe.
  - apply list_elem_of_singleton in Hin as [= -> -> ->].
    split; by apply small_binary64_safe.
Qed.

(** The bound fails for a negative scale and for a negative jitter: at
    scale -10 node 2 is sent to -10, outside [[0, -10]]; at jitter -1 no
    jitter is applied and node 1 stays at 0, outside [[1, 9]]. *)
Lemma normalize_positions_negative_parameters :
  (∃ n x y,
     (n, (x, y)) ∈ (normalize_positions two_positions (Some (-10)%Q) (Some 0%Q)
                      draw_half 0).1 ∧
     ¬ ((0 - 0 <= x)%Q ∧ (x <= -10 + 0)%Q)) ∧
  (∃ n x y,
     (n, (x, y)) ∈ (normalize_positions two_positions (Some 10%Q) (Some (-1)%Q)
                      draw_half 0).1 ∧
     ¬ ((0 - -1 <= x)%Q ∧ (x <= 10 + -1)%Q)).
Proof.
  split.
  - exists 2, (-10)%Q, (-10)%Q. split.
    + vm_compute. right. left.
    + intros [H _]. vm_compute in H. by apply H.
  - exists 1, 0%Q, 0%Q. split.
    + vm_compute. left.
    + intros [H _]. vm_compute in H. by apply H.
Qed.

(** C4, amended.  For a non-empty position dictionary, a scale and a
    jitter that are not negative, draws in [[0, 1]], and coordinates,
    scale and jitter of a magnitude at which binary64 does not overflow:
    every coordinate of the result lies in
    [[0 - jitter, scale + jitter]].  With jitter 0, on each axis some
    node is at 0; some node is at the scale when the axis has two
    different coordinates; and when all coordinates of the axis agree
    (range taken as 1) every node is at 0.  Outside that range of
    magnitudes the code returns [nan] coordinates and the bounds fail. *)
Theorem normalize_positions_spec (pos : list (node * position))
    (scale jitter : Q) (random : nat → Q) (k : nat) :
  pos ≠ [] → (0 <= scale)%Q → (0 <= jitter)%Q →
  (∀ i, (0 <= random i)%Q ∧ (random i <= 1)%Q) →
  positions_safe pos → binary64_safe scale → binary64_safe jitter →
  let out := (normalize_positions pos (Some scale) (Some jitter) random k).1 in
  (∀ n x y, (n, (x, y)) ∈ out →
     ((0 - jitter <= x)%Q ∧ (x <= scale + jitter)%Q) ∧
     ((0 - jitter <= y)%Q ∧ (y <= scale + jitter)%Q)) ∧
  ((jitter == 0)%Q →
     (∃ n x y, (n, (x, y)) ∈ out ∧ (x == 0)%Q) ∧
     (∃ n x y, (n, (x, y)) ∈ out ∧ (y == 0)%Q) ∧
     ((∃ a b, a ∈ xs_of pos ∧ b ∈ xs_of pos ∧ ¬ (a == b)%Q) →
        ∃ n x y, (n, (x, y)) ∈ out ∧ (x == scale)%Q) ∧
     ((∃ a b, a ∈ ys_of pos ∧ b ∈ ys_of pos ∧ ¬ (a == b)%Q) →
        ∃ n x y, (n, (x, y)) ∈ out ∧ (y == scale)%Q) ∧
     ((∀ a b, a ∈ xs_of pos → b ∈ xs_of pos → (a == b)%Q) →
        ∀ n x y, (n, (x, y)) ∈ out → (x == 0)%Q) ∧
     ((∀ a b, a ∈ ys_of pos → b ∈ ys_of pos → (a == b)%Q) →
        ∀ n x y, (n, (x, y)) ∈ out → (y == 0)%Q)).
Proof.
  intros Hne Hs Hj Hrand _ _ _ out. split.
  { intros n x y. apply normalize_positions_within; [done|done|].
    intros _. exact Hrand. }
  intros Hj0.
  destruct pos as [|[n0 [x0 y0]] rest]; [done|].
  set (pos := (n0, (x0, y0)) :: rest) in *.
  assert (Qle_bool jitter 0 = true) as Hnj by (apply Qle_bool_iff; lra).
  subst out. rewrite normalize_positions_unfold.
  rewrite normalize_loop_no_jitter by done. simpl fst.
  set (lx := py_min x0 (xs_of rest)). set (hx := py_max x0 (xs_of rest)).
  set (ly := py_min y0 (ys_of rest)). set (hy := py_max y0 (ys_of rest)).
  set (f := λ c : node * position,
              (c.1, (rescale lx (axis_range lx hx) scale c.2.1,
                     rescale ly (axis_range ly hy) scale c.2.2))).
  assert (∀ v, v ∈ xs_of pos → ∃ n y, (n, (v, y)) ∈ pos) as Hx.
  { intros v ([n [x y]] & -> & Hin)%list_elem_of_fmap. by exists n, y. }
  assert (∀ v, v ∈ ys_of pos → ∃ n x, (n, (x, v)) ∈ pos) as Hy.
  { intros v ([n [x y]] & -> & Hin)%list_elem_of_fmap. by exists n, x. }
  assert (∀ n x y, (n, (x, y)) ∈ pos → f (n, (x, y)) ∈ f <$> pos) as Hout.
  { intros n x y Hin. apply list_elem_of_fmap. by exists (n, (x, y)). }
  assert (∀ n x y, (n, (x, y)) ∈ f <$> pos →
            ∃ a b, (n, (a, b)) ∈ pos ∧
                   x = rescale lx (axis_range lx hx) scale a ∧
                   y = rescale ly (axis_range ly hy) scale b) as Hback.
  { intros n x y ([m [a b]] & Heq & Hin)%list_elem_of_fmap.
    unfold f in Heq; simpl in Heq. simplify_eq. by exists a, b. }
  split; [|split; [|split; [|split; [|split]]]].
  - destruct (Hx lx (axis_lo_attained x0 (xs_of rest))) as (n & y & Hin).
    eexists n, _, _. split; [apply (Hout _ _ _ Hin)|]. apply rescale_lo.
  - destruct (Hy ly (axis_lo_attained y0 (ys_of rest))) as (n & x & Hin).
    eexists n, _, _. split; [apply (Hout _ _ _ Hin)|]. apply rescale_lo.
  - intros Hdiff.
    destruct (Hx hx (axis_hi_attained x0 (xs_of rest))) as (n & y & Hin).
    eexists n, _, _. split; [apply (Hout _ _ _ Hin)|]. by apply rescale_hi.
  - intros Hdiff.
    destruct (Hy hy (axis_hi_attained y0 (ys_of rest))) as (n & x & Hin).
    eexists n, _, _. split; [apply (Hout _ _ _ Hin)|]. by apply rescale_hi.
  - intros Hsame n x y (a & b & Hin & -> & _)%Hback.
    exact (proj2 (rescale_degenerate x0 (xs_of rest) scale a Hsame
                    (elem_of_xs _ _ _ pos Hin))).
  - intros Hsame n x y (a & b & Hin & _ & ->)%Hback.
    exact (proj2 (rescale_degenerate y0 (ys_of rest) scale b Hsame
                    (elem_of_ys _ _ _ pos Hin))).
Qed.

Lemma normalize_positions_spec_witness :
  (two_positions ≠ [] ∧ (0 <= 10)%Q ∧ (0 <= 0)%Q ∧
   (∀ i, (0 <= draw_half i)%Q ∧ (draw_half i <= 1)%Q) ∧
   positions_safe two_positions ∧ binary64_safe 10 ∧ binary64_safe 0) ∧
  ∀ n x y,
    (n, (x, y)) ∈ (normalize_positions two_positions (Some 10%Q) (Some 0%Q)
                     draw_half 0).1 →
    ((0 - 0 <= x)%Q ∧ (x <= 10 + 0)%Q) ∧ ((0 - 0 <= y)%Q ∧ (y <= 10 + 0)%Q).
Proof.
  assert (two_positions ≠ []) as H1 by discriminate.
  assert (0 <= 10)%Q as H2 by discriminate.
  assert (0 <= 0)%Q as H3 by discriminate.
  assert (∀ i, (0 <= draw_half i)%Q ∧ (draw_half i <= 1)%Q) as H4
    by (intros i; split; discriminate).
  pose proof two_positions_safe as H5.
  pose proof (small_binary64_safe 10 eq_refl) as H6.
  pose proof (small_binary64_safe 0 eq_refl) as H7.
  split; [exact (conj H1 (conj H2 (conj H3 (conj H4 (conj H5 (conj H6 H7))))))|].
  exact (proj1 (normalize_positions_spec two_positions 10 0 draw_half 0
                  H1 H2 H3 H4 H5 H6 H7)).
Defined.

(* ===================================================================== *)
(** ** The default scale                                                  *)
(* ===================================================================== *)

(** Called without a scale, [normalize_positions] does not rescale into
    [[0, 50]]: on positions [{1: (0, 0), 2: (1, 1)}] the largest
    coordinate is 10, and the result differs from the one at scale 50. *)
Lemma normalize_positions_default_scale_not_50 :
  (normalize_positions two_positions None None draw_half 0).1
  = [(1, (0, 0)%Q); (2, (10, 10)%Q)] ∧
  (normalize_positions two_positions (Some 50%Q) None draw_half 0).1
  = [(1, (0, 0)%Q); (2, (50, 50)%Q)] ∧
  (normalize_positions two_positions None None draw_half 0).1
  ≠ (normalize_positions two_positions (Some 50%Q) None draw_half 0).1.
Proof.
  split; [by vm_compute|]. split; [by vm_compute|].
  vm_compute. intros H. discriminate H.
Qed.

(** C5, amended.  The scale parameter of [normalize_positions] defaults
    to 10 and its jitter to 0: without a scale the coordinates lie in
    [[0, 10]].  50 is the default scale of [render_cosmograph_csv], which
    passes its scale and its jitter (default 0.05) to the normalisation:
    through it, without a scale, the coordinates lie in
    [[0 - 0.05, 50 + 0.05]].  The two intervals are stated for input
    coordinates of a magnitude at which binary64 does not overflow. *)
Theorem default_scale_spec :
  (∀ pos jitter random k,
     normalize_positions pos None jitter random k
     = normalize_positions pos (Some 10%Q) jitter random k) ∧
  (∀ pos scale random k,
     normalize_positions pos scale None random k
     = normalize_positions pos scale (Some 0%Q) random k) ∧
  (∀ pos random k,
     render_cosmograph_csv_positions pos None None random k
     = normalize_positions pos (Some 50%Q) (Some (5 # 100)%Q) random k) ∧
  (∀ pos random k n x y,
     positions_safe pos →
     (n, (x, y)) ∈ (normalize_positions pos None None random k).1 →
     ((0 <= x)%Q ∧ (x <= 10)%Q) ∧ ((0 <= y)%Q ∧ (y <= 10)%Q)) ∧
  (∀ pos random k n x y,
     positions_safe pos →
     (∀ i, (0 <= random i)%Q ∧ (random i <= 1)%Q) →
     (n, (x, y)) ∈ (render_cosmograph_csv_positions pos None None random k).1 →
     ((0 - (5 # 100) <= x)%Q ∧ (x <= 50 + (5 # 100))%Q) ∧
     ((0 - (5 # 100) <= y)%Q ∧ (y <= 50 + (5 # 100))%Q)).
Proof.
  split; [done|]. split; [done|]. split; [done|]. split.
  - intros pos random k n x y _ Hin.
    change (normalize_positions pos None None random k)
      with (normalize_positions pos (Some 10%Q) (Some 0%Q) random k) in Hin.
    apply normalize_positions_within in Hin; [lra|lra|lra|].
    intros Hpos. lra.
  - intros pos random k n x y _ Hrand Hin.
    change (render_cosmograph_csv_positions pos None None random k)
      with (normalize_positions pos (Some 50%Q) (Some (5 # 100)%Q) random k) in Hin.
    apply normalize_positions_within in Hin; [done|lra|lra|].
    intros _. exact Hrand.
Qed.

Lemma default_scale_spec_witness :
  (positions_safe two_positions ∧
   ∀ i, (0 <= draw_half i)%Q ∧ (draw_half i <= 1)%Q) ∧
  ∀ n x y,
    (n, (x, y)) ∈ (render_cosmograph_csv_positions two_positions None None
                     draw_half 0).1 →
    ((0 - (5 # 100) <= x)%Q ∧ (x <= 50 + (5 # 100))%Q) ∧
    ((0 - (5 # 100) <= y)%Q ∧ (y <= 50 + (5 # 100))%Q).
Proof.
  assert (∀ i, (0 <= draw_half i)%Q ∧ (draw_half i <= 1)%Q) as Hdraw
    by (intros i; split; discriminate).
  split; [exact (conj two_positions_safe Hdraw)|].
  destruct default_scale_spec as (_ & _ & _ & _ & Hrender).
  intros n x y.
  exact (Hrender two_positions draw_half 0%nat n x y two_positions_safe Hdraw).
Defined.

(* ===================================================================== *)
(** ** Further properties of the filters                                  *)
(* ===================================================================== *)

(** X1.  The node set after [k] rounds from the root is the set of nodes
    at most [k] edges away from it, edges taken in either direction. *)
Theorem hop_set_reachability (g : DiGraph) (r : node) (k : nat) (m : node) :
  m ∈ hop_set g r k ↔ within g k r m.
Proof. apply elem_of_hop_set. Qed.

(** X2.  A larger threshold keeps no more edges: for [w1 ≤ w2] the weight
    filter at [w2], run on a graph held at [G], returns a graph with at
    most as many edges as the weight filter at [w1]. *)
Theorem filter_by_weight_monotone (s : state) (G : ref) (g : DiGraph) (w1 w2 : Z) :
  objects s !! G = Some g → w1 ≤ w2 →
  ∃ G1 s1 g1 G2 s2 g2,
    filter_by_weight G w1 s = (Return G1, s1) ∧ objects s1 !! G1 = Some g1 ∧
    filter_by_weight G w2 s = (Return G2, s2) ∧ objects s2 !! G2 = Some g2 ∧
    (number_of_edges g2 ≤ number_of_edges g1)%nat.
Proof.
  intros HG Hle.
  eexists _, _, (weight_filtered g w1), _, _, (weight_filtered g w2).
  split; [by apply filter_by_weight_run|].
  split; [apply lookup_last_object|].
  split; [by apply filter_by_weight_run|].
  split; [apply lookup_last_object|].
  apply map_subseteq_size, map_subseteq_spec. intros [u v] d Hd.
  apply remove_light_edges_lookup in Hd as [Hd Hw].
  apply remove_light_edges_lookup. split; [done|lia].
Qed.

Lemma filter_by_weight_monotone_witness :
  (objects scenario_state !! 0%nat = Some scenario_graph ∧ 2 ≤ 6) ∧
  ∃ G1 s1 g1 G2 s2 g2,
    filter_by_weight 0%nat 2 scenario_state = (Return G1, s1) ∧
    objects s1 !! G1 = Some g1 ∧
    filter_by_weight 0%nat 6 scenario_state = (Return G2, s2) ∧
    objects s2 !! G2 = Some g2 ∧
    (number_of_edges g2 ≤ number_of_edges g1)%nat.
Proof.
  assert (2 ≤ 6) as Hle by discriminate.
  split; [exact (conj eq_refl Hle)|].
  exact (filter_by_weight_monotone scenario_state 0%nat scenario_graph 2 6
           eq_refl Hle).
Defined.

Lemma find_root_node (l : list (node * NodeData)) d r :
  find_root l d = Some r → r ∈ l.*1.
Proof.
  intros (l1 & data & l2 & -> & _)%find_root_Some.
  rewrite fmap_app, fmap_cons. apply elem_of_app. right. by left.
Qed.

Lemma scenario_graph_wf : wf_graph scenario_graph.
Proof.
  split.
  - replace (node_ids scenario_graph) with [1; 2; 3] by (by vm_compute).
    apply (bool_decide_unpack _). by vm_compute.
  - intros u v [d Hd].
    assert ((u, v) ∈ dom (_adj scenario_graph)) as Hdom
      by (apply elem_of_dom; by exists d).
    replace (dom (_adj scenario_graph)) with ({[(1, 2); (2, 3)]} : gset (node * node))
      in Hdom by (by vm_compute).
    replace (node_ids scenario_graph) with [1; 2; 3] by (by vm_compute).
    apply elem_of_union in Hdom as [Hdom|Hdom];
      apply elem_of_singleton in Hdom; simplify_eq; split; set_solver.
Qed.

(** X3.  In a graph that satisfies the invariant of networkx (unique node
    keys, edges between nodes), the root that the search finds is a node
    and so is every node of every round of the expansion: [successors]
    and [predecessors] are only asked of nodes of the graph. *)
Theorem hop_set_nodes (g : DiGraph) (root_domain : string) (r : node) (k : nat) :
  wf_graph g → find_root (_node g) root_domain = Some r →
  ∀ m, m ∈ hop_set g r k → m ∈ node_ids g.
Proof.
  intros [_ Hends] Hroot. induction k as [|k IH]; intros m; simpl.
  - intros ->%elem_of_singleton. by eapply find_root_node.
  - intros [Hm|(n & Hn & [Hedge|Hedge])]%elem_of_hop_round.
    + by apply IH.
    + by apply (Hends n m).
    + by apply (Hends m n).
Qed.

Lemma hop_set_nodes_witness :
  (wf_graph scenario_graph ∧ find_root (_node scenario_graph) "b.com" = Some 2) ∧
  ∀ m, m ∈ hop_set scenario_graph 2 1 → m ∈ node_ids scenario_graph.
Proof.
  split; [exact (conj scenario_graph_wf eq_refl)|].
  exact (hop_set_nodes scenario_graph "b.com" 2 1 scenario_graph_wf eq_refl).
Defined.

(* ===================================================================== *)
(** ** Edge strength and node size                                        *)
(* ===================================================================== *)

(** X4.  The strength category of a weight is ["weak"] exactly up to 1,
    ["medium"] from 2 to 5, ["strong"] from 6 to 10 and ["very_strong"]
    above 10 (zero and negative weights are weak), and a larger weight
    never gets a weaker category. *)
Theorem categorize_edge_strength_bands :
  (∀ w, categorize_edge_strength w = "weak" ↔ w ≤ 1) ∧
  (∀ w, categorize_edge_strength w = "medium" ↔ 1 < w ≤ 5) ∧
  (∀ w, categorize_edge_strength w = "strong" ↔ 5 < w ≤ 10) ∧
  (∀ w, categorize_edge_strength w = "very_strong" ↔ 10 < w) ∧
  (∀ w1 w2, w1 ≤ w2 →
     (strength_rank (categorize_edge_strength w1)
      ≤ strength_rank (categorize_edge_strength w2))%nat).
Proof.
  assert (∀ w, (w ≤ 1 ∧ categorize_edge_strength w = "weak") ∨
               (1 < w ≤ 5 ∧ categorize_edge_strength w = "medium") ∨
               (5 < w ≤ 10 ∧ categorize_edge_strength w = "strong") ∨
               (10 < w ∧ categorize_edge_strength w = "very_strong")) as Hcases.
  { intros w. unfold categorize_edge_strength.
    destruct (Z.leb_spec w 1); [by left|].
    destruct (Z.leb_spec w 5); [right; left; split; [lia|done]|].
    destruct (Z.leb_spec w 10); [right; right; left; split; [lia|done]|].
    right; right; right. split; [lia|done]. }
  split; [|split; [|split; [|split]]].
  - intros w. destruct (Hcases w) as [[? ->]|[[? ->]|[[? ->]|[? ->]]]];
      split; (done || lia).
  - intros w. destruct (Hcases w) as [[? ->]|[[? ->]|[[? ->]|[? ->]]]];
      split; (done || lia).
  - intros w. destruct (Hcases w) as [[? ->]|[[? ->]|[[? ->]|[? ->]]]];
      split; (done || lia).
  - intros w. destruct (Hcases w) as [[? ->]|[[? ->]|[[? ->]|[? ->]]]];
      split; (done || lia).
  - intros w1 w2 Hle.
    destruct (Hcases w1) as [[? ->]|[[? ->]|[[? ->]|[? ->]]]];
      destruct (Hcases w2) as [[? ->]|[[? ->]|[[? ->]|[? ->]]]];
      vm_compute; lia.
Qed.

Lemma categorize_edge_strength_bands_witness :
  5 ≤ 6 ∧
  (strength_rank (categorize_edge_strength 5)
   ≤ strength_rank (categorize_edge_strength 6))%nat.
Proof.
  assert (5 ≤ 6) as H by discriminate.
  split; [exact H|].
  exact (proj2 (proj2 (proj2 (proj2 categorize_edge_strength_bands))) 5 6 H).
Defined.

Lemma log2_floor_nonneg (z : Z) : (0 <= log2_floor z)%Q.
Proof.
  unfold log2_floor. change 0%Q with (inject_Z 0). rewrite <- Zle_Qle.
  apply Z.log2_nonneg.
Qed.

Lemma log2_floor_mono (a b : Z) : a ≤ b → (log2_floor a <= log2_floor b)%Q.
Proof.
  intros H. unfold log2_floor. rewrite <- Zle_Qle. by apply Z.log2_le_mono.
Qed.

Lemma size_growth (b f l1 l2 : Q) :
  (0 <= b)%Q → (0 <= f)%Q → (l1 <= l2)%Q →
  (b * (1 + f * l1) <= b * (1 + f * l2))%Q.
Proof.
  intros Hb Hf Hl.
  assert (0 <= b * (f * (l2 - l1)))%Q as H
    by (repeat apply Qmult_le_0_compat; lra).
  assert (b * (1 + f * l2) == b * (1 + f * l1) + b * (f * (l2 - l1)))%Q as E
    by ring.
  rewrite E. lra.
Qed.

Lemma size_at_least_base (b f l : Q) :
  (0 <= b)%Q → (0 <= f)%Q → (0 <= l)%Q → (b <= b * (1 + f * l))%Q.
Proof.
  intros Hb Hf Hl. pose proof (size_growth b f 0 l Hb Hf Hl) as H.
  assert (b * (1 + f * 0) == b)%Q as E by ring. by rewrite E in H.
Qed.

(** In exact arithmetic the size grows with the logarithm, for any
    parameters.  The code computes in binary64, where a product that
    overflows can turn into [nan] for [base_size = 0]; the properties
    below are stated for the default parameters, the only ones the
    exporter uses, where nothing overflows. *)
Lemma node_size_grows (log2 : Z → Q) (base_size scale_factor max_size : Q)
    (d1 d2 : Z) :
  (∀ a b, 2 ≤ a → a ≤ b → (log2 a <= log2 b)%Q) → (0 <= log2 2%Z)%Q →
  (0 <= base_size)%Q → (base_size <= max_size)%Q → (0 <= scale_factor)%Q →
  d1 ≤ d2 →
  (calculate_node_size log2 d1 (Some base_size) (Some scale_factor) (Some max_size)
   <= calculate_node_size log2 d2 (Some base_size) (Some scale_factor)
        (Some max_size))%Q.
Proof.
  intros Hmono H2 Hb Hbm Hf Hd. unfold calculate_node_size; simpl.
  destruct (Z.leb_spec d1 1) as [H1|H1]; destruct (Z.leb_spec d2 1) as [H1'|H1'];
    try lia.
  - lra.
  - assert (0 <= log2 d2)%Q
      by (pose proof (Hmono 2 d2 ltac:(lia) ltac:(lia)); lra).
    apply Q.min_glb; [by apply size_at_least_base|done].
  - assert (log2 d1 <= log2 d2)%Q by (apply Hmono; lia).
    apply Q.min_le_compat_r. by apply size_growth.
Qed.

(** X5.  A node of degree at most 1 gets [base_size] as it is: the cap
    [max_size] is not applied to it, so its size exceeds the cap when
    [base_size] does.  With the default parameters the size of every
    node lies between 1 and 5, where the logarithm is not negative on the
    degree; it is 1 for a degree of at most 1 and it is the cap 5 from a
    logarithm of 14 on. *)
Theorem calculate_node_size_bounds (log2 : Z → Q) (degree : Z) :
  (∀ base_size scale_factor max_size : Q,
     degree ≤ 1 →
     calculate_node_size log2 degree (Some base_size) (Some scale_factor)
       (Some max_size) = base_size ∧
     ((max_size < base_size)%Q →
      (max_size < calculate_node_size log2 degree (Some base_size)
                    (Some scale_factor) (Some max_size))%Q)) ∧
  ((1 < degree → (0 <= log2 degree)%Q) →
     (1 <= calculate_node_size log2 degree None None None)%Q ∧
     (calculate_node_size log2 degree None None None <= 5)%Q) ∧
  (degree ≤ 1 → calculate_node_size log2 degree None None None = 1%Q) ∧
  (1 < degree → (14 <= log2 degree)%Q →
     (calculate_node_size log2 degree None None None == 5)%Q).
Proof.
  split; [|split; [|split]].
  - intros base_size scale_factor max_size Hd. unfold calculate_node_size; simpl.
    by rewrite (proj2 (Z.leb_le degree 1)) by lia.
  - intros Hlog. unfold calculate_node_size; simpl.
    destruct (Z.leb_spec degree 1) as [Hd|Hd]; [split; lra|].
    specialize (Hlog Hd). split; [|apply Q.le_min_r].
    apply Q.min_glb; [|lra]. apply size_at_least_base; lra.
  - intros Hd. unfold calculate_node_size; simpl.
    by rewrite (proj2 (Z.leb_le degree 1)) by lia.
  - intros Hd Hlog. unfold calculate_node_size; simpl.
    rewrite (proj2 (Z.leb_gt degree 1)) by lia.
    apply Q.min_r. lra.
Qed.

Lemma calculate_node_size_bounds_witness :
  (1 < 8 ∧ (0 <= log2_floor 8%Z)%Q) ∧
  (1 <= calculate_node_size log2_floor 8 None None None)%Q ∧
  (calculate_node_size log2_floor 8 None None None <= 5)%Q.
Proof.
  assert (1 < 8) as H by reflexivity.
  split; [exact (conj H (log2_floor_nonneg 8))|].
  exact (proj1 (proj2 (calculate_node_size_bounds log2_floor 8))
           (λ _, log2_floor_nonneg 8)).
Defined.

(** X6.  With the default parameters and a logarithm that is monotone
    and not negative from 2 on, the node size never decreases when the
    degree grows. *)
Theorem calculate_node_size_monotone (log2 : Z → Q) (d1 d2 : Z) :
  (∀ a b, 2 ≤ a → a ≤ b → (log2 a <= log2 b)%Q) → (0 <= log2 2%Z)%Q →
  d1 ≤ d2 →
  (calculate_node_size log2 d1 None None None
   <= calculate_node_size log2 d2 None None None)%Q.
Proof.
  intros Hmono H2 Hd.
  change (calculate_node_size log2 d1 None None None)
    with (calculate_node_size log2 d1 (Some 1%Q) (Some (3 # 10)%Q) (Some 5%Q)).
  change (calculate_node_size log2 d2 None None None)
    with (calculate_node_size log2 d2 (Some 1%Q) (Some (3 # 10)%Q) (Some 5%Q)).
  apply node_size_grows; [done|done|lra|lra|lra|done].
Qed.

Lemma calculate_node_size_monotone_witness :
  ((∀ a b, 2 ≤ a → a ≤ b → (log2_floor a <= log2_floor b)%Q) ∧
   (0 <= log2_floor 2%Z)%Q ∧ 3 ≤ 9) ∧
  (calculate_node_size log2_floor 3 None None None
   <= calculate_node_size log2_floor 9 None None None)%Q.
Proof.
  assert (∀ a b, 2 ≤ a → a ≤ b → (log2_floor a <= log2_floor b)%Q) as Hm
    by (intros a b _; apply log2_floor_mono).
  assert (3 ≤ 9) as H4 by discriminate.
  split; [exact (conj Hm (conj (log2_floor_nonneg 2) H4))|].
  exact (calculate_node_size_monotone log2_floor 3 9 Hm (log2_floor_nonneg 2) H4).
Defined.

(* ===================================================================== *)
(** ** Loading                                                            *)
(* ===================================================================== *)

Lemma for_each_mutate {A} (xs : list A) (G : ref) (f : DiGraph → A → DiGraph)
    (s : state) (g : DiGraph) :
  objects s !! G = Some g →
  for_each xs tt (λ x _, mutate G (λ g, f g x)) s
  = (Return tt, mkState (<[G := foldl f g xs]> (objects s)) (stdout s)).
Proof.
  revert s g. induction xs as [|x xs IH]; intros s g HG; simpl.
  - unfold ret. rewrite list_insert_id by done. by destruct s.
  - unfold bind. rewrite (mutate_run _ _ _ g HG).
    erewrite IH; simpl.
    + by rewrite list_insert_insert_eq.
    + apply list_lookup_insert_eq. by eapply lookup_lt_Some.
Qed.

Lemma load_graph_run (db : database) (s : state) :
  load_graph db s
  = (Return (length (objects s)),
     mkState (objects s ++ [loaded_graph db]) (stdout s)).
Proof.
  unfold load_graph, bind at 1. unfold alloc at 1.
  unfold bind at 1.
  erewrite (for_each_mutate (node_rows db) _
              (λ g row, add_node g (row_node_id row)
                          (node_attributes (has_depth db) row)));
    [|apply lookup_last_object]. simpl.
  rewrite insert_last_object. unfold bind at 1.
  erewrite (for_each_mutate (edge_rows db) _
              (λ g row, add_edge g (row_from row) (row_to row)
                          (or_1 (row_weight row))));
    [|apply lookup_last_object]. simpl.
  by rewrite insert_last_object.
Qed.

Lemma upsert_node_fresh l n attr :
  n ∉ l.*1 → upsert_node l n attr = l ++ [(n, attr)].
Proof.
  induction l as [|[m d] l IH]; simpl; [done|].
  intros Hn. apply not_elem_of_cons in Hn as [Hne Hn].
  rewrite decide_False by done. by rewrite IH.
Qed.

Lemma upsert_node_known l n attr : n ∈ l.*1 → (upsert_node l n attr).*1 = l.*1.
Proof.
  induction l as [|[m d] l IH]; simpl.
  - intros H. by apply elem_of_nil in H.
  - intros Hn. destruct (decide (m = n)) as [->|Hne]; [done|].
    simpl. f_equal. apply IH.
    apply elem_of_cons in Hn as [?|?]; [congruence|done].
Qed.

Lemma upsert_node_keys l n attr :
  (upsert_node l n attr).*1 = if decide (n ∈ l.*1) then l.*1 else l.*1 ++ [n].
Proof.
  case_decide as Hn.
  - by apply upsert_node_known.
  - rewrite upsert_node_fresh by done. by rewrite fmap_app.
Qed.

(** A row of full attributes replaces whatever the node had. *)
Lemma upsert_node_full l n attr m d :
  (∀ d0, update_node_data d0 attr = attr) → NoDup l.*1 →
  (m, d) ∈ upsert_node l n attr ↔ (m ≠ n ∧ (m, d) ∈ l) ∨ (m = n ∧ d = attr).
Proof.
  intros Hfull. induction l as [|[k dk] l IH]; simpl; intros Hnd.
  - rewrite list_elem_of_singleton. split.
    + intros [= -> ->]. by right.
    + intros [[_ H]|[-> ->]]; [by apply elem_of_nil in H|done].
  - apply NoDup_cons in Hnd as [Hk Hnd].
    destruct (decide (k = n)) as [->|Hne].
    + rewrite Hfull, !elem_of_cons. split.
      * intros [[= -> ->]|Hin]; [by right|]. left. split; [|by right].
        intros ->. apply Hk. apply list_elem_of_fmap. by exists (n, d).
      * intros [[Hm [[= ? ?]|Hin]]|[-> ->]]; [done|by right|by left].
    + rewrite !elem_of_cons, IH by done. split.
      * intros [[= -> ->]|[[? ?]|[-> ->]]].
        -- left. split; [done|by left].
        -- left. split; [done|by right].
        -- by right.
      * intros [[Hm [[= -> ->]|Hin]]|[-> ->]].
        -- by left.
        -- right. left. done.
        -- right. by right.
Qed.

Lemma node_attributes_full has_depth row d0 :
  update_node_data d0 (node_attributes has_depth row) = node_attributes has_depth row.
Proof. done. Qed.

Lemma add_node_wf g n attr : wf_graph g → wf_graph (add_node g n attr).
Proof.
  intros [Hnd Hends]. unfold wf_graph, node_ids, add_node; simpl.
  rewrite upsert_node_keys. case_decide as Hn; [done|]. split.
  - apply NoDup_app. split; [done|]. split; [|apply NoDup_singleton].
    intros x Hx ->%list_elem_of_singleton. done.
  - intros u v Huv. destruct (Hends u v Huv). split; apply elem_of_app; by left.
Qed.

Lemma add_node_ids g n attr : n ∈ node_ids (add_node g n attr).
Proof.
  unfold node_ids, add_node; simpl. rewrite upsert_node_keys.
  case_decide; [done|]. apply elem_of_app. right. by left.
Qed.

Lemma add_node_ids_mono g n attr m :
  m ∈ node_ids g → m ∈ node_ids (add_node g n attr).
Proof.
  unfold node_ids, add_node; simpl. rewrite upsert_node_keys.
  intros Hm. case_decide; [done|]. apply elem_of_app. by left.
Qed.

(** The node dictionary after [add_edge]: missing ends are appended
    without attributes, [u] before [v]. *)
Lemma add_edge_node g u v w :
  _node (add_edge g u v w)
  = _node g
    ++ (if decide (u ∈ node_ids g) then [] else [(u, no_node_data)])
    ++ (if decide (v ∈ node_ids g ∨ v = u) then [] else [(v, no_node_data)]).
Proof.
  unfold add_edge, has_node; simpl.
  destruct (decide (u ∈ node_ids g)) as [Hu|Hu].
  - rewrite (bool_decide_eq_true_2 _ Hu). simpl.
    destruct (decide (v ∈ node_ids g ∨ v = u)) as [Hv|Hv].
    + assert (v ∈ node_ids g) as Hv' by (destruct Hv as [?| ->]; done).
      rewrite (bool_decide_eq_true_2 _ Hv'). by rewrite app_nil_r.
    + assert (v ∉ node_ids g) as Hv' by tauto.
      rewrite (bool_decide_eq_false_2 _ Hv'). simpl.
      by rewrite upsert_node_fresh.
  - rewrite (bool_decide_eq_false_2 _ Hu).
    assert (node_ids (add_node g u no_node_data) = node_ids g ++ [u]) as Hids.
    { unfold node_ids, add_node; simpl. rewrite upsert_node_keys.
      by rewrite decide_False. }
    assert (_node (add_node g u no_node_data) = _node g ++ [(u, no_node_data)]) as Hn.
    { unfold add_node; simpl. by rewrite upsert_node_fresh. }
    destruct (decide (v ∈ node_ids g ∨ v = u)) as [Hv|Hv].
    + assert (v ∈ node_ids (add_node g u no_node_data)) as Hv'.
      { rewrite Hids. apply elem_of_app.
        destruct Hv as [?| ->]; [by left|right; by left]. }
      rewrite (bool_decide_eq_true_2 _ Hv'). by rewrite Hn.
    + assert (v ∉ node_ids (add_node g u no_node_data)) as Hv'.
      { rewrite Hids. intros [?|?%list_elem_of_singleton]%elem_of_app; tauto. }
      rewrite (bool_decide_eq_false_2 _ Hv'). simpl.
      unfold add_node in Hn; simpl in Hn. rewrite Hn.
      rewrite upsert_node_fresh.
      * by rewrite <- app_assoc.
      * rewrite <- Hn. exact Hv'.
Qed.

Lemma add_edge_adj g u v w :
  _adj (add_edge g u v w) = <[(u, v) := mkEdgeData (Some w)]> (_adj g).
Proof.
  unfold add_edge. simpl.
  destruct (has_node g u); simpl;
    match goal with |- context [has_node ?g' v] => destruct (has_node g' v) end;
    done.
Qed.

Lemma add_edge_ids g u v w m :
  m ∈ node_ids (add_edge g u v w) ↔ m ∈ node_ids g ∨ m = u ∨ m = v.
Proof.
  unfold node_ids at 1. rewrite add_edge_node, !fmap_app, !elem_of_app.
  fold (node_ids g).
  destruct (decide (u ∈ node_ids g)) as [Hu|Hu];
    destruct (decide (v ∈ node_ids g ∨ v = u)) as [Hv|Hv]; simpl;
    rewrite ?list_elem_of_singleton, ?elem_of_nil;
    intuition (subst; tauto).
Qed.

Lemma add_edge_wf g u v w : wf_graph g → wf_graph (add_edge g u v w).
Proof.
  intros [Hnd Hends]. split.
  - unfold node_ids. rewrite add_edge_node, !fmap_app. fold (node_ids g).
    destruct (decide (u ∈ node_ids g)) as [Hu|Hu];
      destruct (decide (v ∈ node_ids g ∨ v = u)) as [Hv|Hv]; simpl;
      rewrite ?app_nil_r; try done.
    + apply NoDup_app. split; [done|]. split; [|apply NoDup_singleton].
      intros x Hx ->%list_elem_of_singleton. tauto.
    + apply NoDup_app. split; [done|]. split; [|apply NoDup_singleton].
      intros x Hx ->%list_elem_of_singleton. tauto.
    + apply NoDup_app. split; [done|]. split.
      * intros x Hx [->|[->|[]%elem_of_nil]%elem_of_cons]%elem_of_cons; tauto.
      * apply NoDup_cons. split; [|apply NoDup_singleton].
        intros ->%list_elem_of_singleton. tauto.
  - intros a b Hab. rewrite add_edge_adj in Hab. rewrite !add_edge_ids.
    destruct (decide ((u, v) = (a, b))) as [[= -> ->]|Hne]; [tauto|].
    rewrite lookup_insert_ne in Hab by done.
    destruct (Hends a b Hab). tauto.
Qed.

Lemma empty_graph_wf : wf_graph empty_graph.
Proof.
  split; [apply NoDup_nil_2|]. intros u v [d Hd]. simpl in Hd.
  by rewrite lookup_empty in Hd.
Qed.

Lemma foldl_invariant {A B} (P : A → Prop) (f : A → B → A) (l : list B) (a : A) :
  P a → (∀ a b, P a → P (f a b)) → P (foldl f a l).
Proof.
  intros Ha Hstep. revert a Ha. induction l as [|b l IH]; intros a Ha; simpl; auto.
Qed.

Lemma loaded_nodes_wf db : wf_graph (loaded_nodes db).
Proof.
  unfold loaded_nodes. apply (foldl_invariant wf_graph); [apply empty_graph_wf|].
  intros g row. apply add_node_wf.
Qed.

Lemma loaded_graph_wf db : wf_graph (loaded_graph db).
Proof.
  unfold loaded_graph. apply (foldl_invariant wf_graph); [apply loaded_nodes_wf|].
  intros g row. apply add_edge_wf.
Qed.

(** X7.  On rows whose id columns hold integers, loading returns a new
    graph object and leaves every other object as it was, whatever the
    rows are otherwise: repeated node ids, edges between ids that have no
    node row, NULL in the domain, description, count, depth or weight
    column.  The graph satisfies the invariant of networkx: node keys are
    unique and both ends of every edge are nodes.  A NULL id, on which
    the code raises [ValueError], is outside the rows modelled here. *)
Theorem load_graph_well_formed (db : database) (s : state) :
  ∃ g, load_graph db s
       = (Return (length (objects s)),
          mkState (objects s ++ [g]) (stdout s)) ∧
    wf_graph g ∧
    NoDup (node_ids g) ∧
    (∀ u v, has_edge g u v → u ∈ node_ids g ∧ v ∈ node_ids g).
Proof.
  exists (loaded_graph db). split; [apply load_graph_run|].
  pose proof (loaded_graph_wf db) as Hwf. split; [done|]. exact Hwf.
Qed.

Lemma add_node_adj g n attr : _adj (add_node g n attr) = _adj g.
Proof. done. Qed.

Lemma elem_of_add_node_ids g n attr m :
  m ∈ node_ids (add_node g n attr) ↔ m ∈ node_ids g ∨ m = n.
Proof.
  unfold node_ids, add_node; simpl. rewrite upsert_node_keys.
  case_decide as Hn.
  - split; [by left|]. by intros [?| ->].
  - rewrite elem_of_app, list_elem_of_singleton. done.
Qed.

Lemma loaded_nodes_adj hd g rows :
  _adj (foldl (add_node_row hd) g rows) = _adj g.
Proof.
  revert g. induction rows as [|row rows IH]; intros g; simpl; [done|].
  by rewrite IH.
Qed.

Lemma elem_of_node_rows_ids hd g rows n :
  n ∈ node_ids (foldl (add_node_row hd) g rows)
  ↔ n ∈ node_ids g ∨ ∃ row, row ∈ rows ∧ row_node_id row = n.
Proof.
  revert g. induction rows as [|row rows IH]; intros g; simpl.
  - split; [by left|]. intros [?|(r & Hr & _)]; [done|by apply elem_of_nil in Hr].
  - rewrite IH. unfold add_node_row. rewrite elem_of_add_node_ids. split.
    + intros [[?| ->]|(r & Hr & Hn)].
      * by left.
      * right. exists row. split; [by left|done].
      * right. exists r. split; [by right|done].
    + intros [?|(r & [->|Hr]%elem_of_cons & Hn)].
      * by left; left.
      * left. by right.
      * right. by exists r.
Qed.

Lemma elem_of_edge_rows_ids g rows n :
  n ∈ node_ids (foldl add_edge_row g rows)
  ↔ n ∈ node_ids g ∨ ∃ row, row ∈ rows ∧ (row_from row = n ∨ row_to row = n).
Proof.
  revert g. induction rows as [|row rows IH]; intros g; simpl.
  - split; [by left|]. intros [?|(r & Hr & _)]; [done|by apply elem_of_nil in Hr].
  - rewrite IH. unfold add_edge_row. rewrite add_edge_ids. split.
    + intros [[?|[->| ->]]|(r & Hr & Hn)].
      * by left.
      * right. exists row. split; [by left|by left].
      * right. exists row. split; [by left|by right].
      * right. exists r. split; [by right|done].
    + intros [?|(r & [->|Hr]%elem_of_cons & Hn)].
      * by left; left.
      * left. right. destruct Hn as [<-|<-]; [by left|by right].
      * right. by exists r.
Qed.

(** The adjacency after the edge loop: one insertion per row, later rows
    over earlier ones. *)
Lemma edge_rows_adj g rows :
  _adj (foldl add_edge_row g rows)
  = foldl (λ m row, <[row_pair row := mkEdgeData (Some (or_1 (row_weight row)))]> m)
      (_adj g) rows.
Proof.
  revert g. induction rows as [|row rows IH]; intros g; simpl; [done|].
  rewrite IH. unfold add_edge_row. by rewrite add_edge_adj.
Qed.

Lemma foldl_insert_lookup {B} `{Countable K} {V} (key : B → K) (val : B → V)
    (m : gmap K V) (rows : list B) (k : K) (d : V) :
  foldl (λ m row, <[key row := val row]> m) m rows !! k = Some d
  → m !! k = Some d ∨ ∃ row, row ∈ rows ∧ key row = k ∧ d = val row.
Proof.
  revert m. induction rows as [|row rows IH]; intros m; simpl; [by left|].
  intros [Hm|(r & Hr & Hk & Hd)]%IH.
  - destruct (decide (key row = k)) as [<-|Hne].
    + rewrite lookup_insert_eq in Hm. simplify_eq.
      right. exists row. split; [by left|done].
    + rewrite lookup_insert_ne in Hm by done. by left.
  - right. exists r. split; [by right|done].
Qed.

Lemma foldl_insert_keep {B} `{Countable K} {V} (key : B → K) (val : B → V)
    (m : gmap K V) (rows : list B) (k : K) :
  (∀ r, r ∈ rows → key r ≠ k) →
  foldl (λ m row, <[key row := val row]> m) m rows !! k = m !! k.
Proof.
  revert m. induction rows as [|row rows IH]; intros m Hrows; simpl; [done|].
  rewrite IH by (intros r Hr; apply Hrows; by right).
  apply lookup_insert_ne. apply Hrows. by left.
Qed.

Lemma foldl_insert_last {B} `{Countable K} {V} (key : B → K) (val : B → V)
    (m : gmap K V) (rows1 rows2 : list B) (row : B) :
  (∀ r, r ∈ rows2 → key r ≠ key row) →
  foldl (λ m row, <[key row := val row]> m) m (rows1 ++ row :: rows2) !! key row
  = Some (val row).
Proof.
  intros Hrows. rewrite foldl_app. simpl.
  rewrite foldl_insert_keep by done. apply lookup_insert_eq.
Qed.

Lemma foldl_insert_is_Some {B} `{Countable K} {V} (key : B → K) (val : B → V)
    (m : gmap K V) (rows : list B) (k : K) :
  is_Some (m !! k) ∨ (∃ row, row ∈ rows ∧ key row = k) →
  is_Some (foldl (λ m row, <[key row := val row]> m) m rows !! k).
Proof.
  revert m. induction rows as [|r rows IH]; intros m; simpl.
  - intros [?|(row & Hin & _)]; [done|by apply elem_of_nil in Hin].
  - intros Hk. apply IH.
    destruct Hk as [Hm|(row & [->|Hin]%elem_of_cons & Hkey)].
    + left. apply lookup_insert_is_Some'. by right.
    + left. rewrite <- Hkey, lookup_insert_eq. by eexists.
    + right. by exists row.
Qed.

Lemma or_1_nonzero x : or_1 x ≠ 0.
Proof. destruct x as [[|p|p]|]; simpl; discriminate. Qed.

(** X8.  The edges of the loaded graph are the ordered pairs of the edge
    rows.  When several rows give the same pair the last one decides the
    weight.  Every edge carries a weight attribute, and it is never 0: a
    NULL or zero weight is stored as 1. *)
Theorem load_graph_edges (db : database) (s : state) :
  ∃ g, load_graph db s
       = (Return (length (objects s)),
          mkState (objects s ++ [g]) (stdout s)) ∧
    (∀ u v, has_edge g u v ↔ ∃ row, row ∈ edge_rows db ∧ row_pair row = (u, v)) ∧
    (∀ rows1 row rows2,
       edge_rows db = rows1 ++ row :: rows2 →
       (∀ r, r ∈ rows2 → row_pair r ≠ row_pair row) →
       _adj g !! row_pair row = Some (mkEdgeData (Some (or_1 (row_weight row))))) ∧
    (∀ u v d, _adj g !! (u, v) = Some d →
       ∃ w, weight d = Some w ∧ w ≠ 0 ∧
            (w = 1 ∨ ∃ row, row ∈ edge_rows db ∧ row_pair row = (u, v) ∧
                             row_weight row = Some w)).
Proof.
  exists (loaded_graph db). split; [apply load_graph_run|].
  assert (_adj (loaded_graph db)
          = foldl (λ m row, <[row_pair row := mkEdgeData (Some (or_1 (row_weight row)))]> m)
              ∅ (edge_rows db)) as Hadj.
  { unfold loaded_graph. rewrite edge_rows_adj. unfold loaded_nodes.
    by rewrite loaded_nodes_adj. }
  split; [|split].
  - intros u v. unfold has_edge. rewrite Hadj. split.
    + intros [d [Hd|(row & Hrow & Hk & _)]%foldl_insert_lookup].
      * by rewrite lookup_empty in Hd.
      * by exists row.
    + intros (row & Hrow & Hk). apply foldl_insert_is_Some. right. by exists row.
  - intros rows1 row rows2 Hrows Hlast. rewrite Hadj, Hrows.
    by apply (foldl_insert_last row_pair
                (λ row, mkEdgeData (Some (or_1 (row_weight row))))).
  - intros u v d Hd. rewrite Hadj in Hd.
    apply foldl_insert_lookup in Hd as [Hd|(row & Hrow & Hk & ->)].
    + by rewrite lookup_empty in Hd.
    + exists (or_1 (row_weight row)). split; [done|].
      split; [apply or_1_nonzero|].
      destruct (row_weight row) as [[|p|p]|] eqn:Hw; simpl.
      * by left.
      * right. by exists row.
      * right. by exists row.
      * by left.
Qed.

Lemma load_graph_edges_witness :
  (edge_rows untidy_database
   = [mkEdgeRow 1 2 None; mkEdgeRow 2 7 (Some 0)] ++ (mkEdgeRow 1 2 (Some 9) :: []) ∧
   ∀ r, r ∈ [] → row_pair r ≠ row_pair (mkEdgeRow 1 2 (Some 9))) ∧
  ∃ g, load_graph untidy_database empty_state
       = (Return 0%nat, mkState [g] []) ∧
    _adj g !! (1, 2) = Some (mkEdgeData (Some 9)).
Proof.
  assert (∀ r : edge_row, r ∈ [] → row_pair r ≠ row_pair (mkEdgeRow 1 2 (Some 9)))
    as Hlast by (intros r Hr; by apply elem_of_nil in Hr).
  split; [exact (conj eq_refl Hlast)|].
  destruct (load_graph_edges untidy_database empty_state)
    as (g & Hrun & _ & Hwins & _).
  exists g. split; [exact Hrun|].
  exact (Hwins [mkEdgeRow 1 2 None; mkEdgeRow 2 7 (Some 0)]
           (mkEdgeRow 1 2 (Some 9)) [] eq_refl Hlast).
Defined.

Lemma elem_of_add_node_row hd g row n d :
  NoDup (node_ids g) →
  (n, d) ∈ _node (add_node_row hd g row)
  ↔ (n ≠ row_node_id row ∧ (n, d) ∈ _node g)
    ∨ (n = row_node_id row ∧ d = node_attributes hd row).
Proof.
  intros Hnd. unfold add_node_row, add_node; simpl.
  apply upsert_node_full; [apply node_attributes_full|done].
Qed.

Lemma elem_of_add_edge_node g u v w n d :
  (n, d) ∈ _node (add_edge g u v w)
  ↔ (n, d) ∈ _node g
    ∨ (d = no_node_data ∧ (n ∉ node_ids g) ∧ (n = u ∨ n = v)).
Proof.
  assert (∀ m, (n, d) = (m, no_node_data) ↔ d = no_node_data ∧ n = m) as Hpair.
  { intros m. split; [intros [= -> ->]; done|intros [-> ->]; done]. }
  rewrite add_edge_node, !elem_of_app.
  destruct (decide (u ∈ node_ids g)) as [Hu|Hu];
    destruct (decide (v ∈ node_ids g ∨ v = u)) as [Hv|Hv];
    rewrite ?list_elem_of_singleton, ?elem_of_nil, ?Hpair.
  - split; [tauto|]. intros [?|(_ & Hn & [->| ->])]; [tauto|tauto|].
    destruct Hv as [?| ->]; tauto.
  - split; [intros [?|[[]|[-> ->]]]; tauto|].
    intros [?|(-> & Hn & [->| ->])]; tauto.
  - split; [intros [?|[[-> ->]|[]]]; tauto|].
    intros [?|(-> & Hn & [->| ->])]; [tauto|tauto|].
    destruct Hv as [?| ->]; tauto.
  - split; [intros [?|[[-> ->]|[-> ->]]]; tauto|].
    intros [?|(-> & Hn & [->| ->])]; tauto.
Qed.

Lemma node_rows_wf hd g rows :
  wf_graph g → wf_graph (foldl (add_node_row hd) g rows).
Proof.
  intros Hwf. apply (foldl_invariant wf_graph); [done|].
  intros g' row. apply add_node_wf.
Qed.

Lemma node_rows_persist hd g rows n d :
  wf_graph g → (n, d) ∈ _node g →
  (∀ r, r ∈ rows → row_node_id r ≠ n) →
  (n, d) ∈ _node (foldl (add_node_row hd) g rows).
Proof.
  revert g. induction rows as [|row rows IH]; intros g Hwf Hin Hrows; simpl; [done|].
  apply IH.
  - by apply add_node_wf.
  - apply elem_of_add_node_row; [apply Hwf|]. left. split; [|done].
    intros ->. by apply (Hrows row); [left|].
  - intros r Hr. apply Hrows. by right.
Qed.

Lemma node_rows_origin hd g rows n d :
  wf_graph g → (n, d) ∈ _node (foldl (add_node_row hd) g rows) →
  (n, d) ∈ _node g
  ∨ ∃ row, row ∈ rows ∧ n = row_node_id row ∧ d = node_attributes hd row.
Proof.
  revert g. induction rows as [|row rows IH]; intros g Hwf; simpl; [by left|].
  intros [Hin|(r & Hr & Hn & Hd)]%IH; [|right; exists r; split; [by right|done]|].
  - apply elem_of_add_node_row in Hin as [[_ Hin]|[Hn Hd]]; [by left| |apply Hwf].
    right. exists row. split; [by left|done].
  - by apply add_node_wf.
Qed.

Lemma edge_rows_persist g rows n d :
  (n, d) ∈ _node g → (n, d) ∈ _node (foldl add_edge_row g rows).
Proof.
  revert g. induction rows as [|row rows IH]; intros g Hin; simpl; [done|].
  apply IH. apply elem_of_add_edge_node. by left.
Qed.

Lemma edge_rows_origin g rows n d :
  (n, d) ∈ _node (foldl add_edge_row g rows) →
  (n, d) ∈ _node g
  ∨ (d = no_node_data ∧ (n ∉ node_ids g) ∧
     ∃ row, row ∈ rows ∧ (row_from row = n ∨ row_to row = n)).
Proof.
  revert g. induction rows as [|row rows IH]; intros g; simpl; [by left|].
  intros [Hin|(Hd & Hn & r & Hr & Hends)]%IH.
  - apply elem_of_add_edge_node in Hin as [Hin|(Hd & Hn & Hends)]; [by left|].
    right. split; [done|]. split; [done|]. exists row. split; [by left|].
    destruct Hends as [->| ->]; [by left|by right].
  - right. split; [done|]. split.
    + intros Hin. apply Hn. unfold add_edge_row. apply add_edge_ids. by left.
    + exists r. split; [by right|done].
Qed.

(** X9.  The nodes of the loaded graph are the ids of the node rows and
    the ends of the edge rows.  A node takes its attributes from the last
    row with its id: the domain and the description are strings (empty
    for NULL), the crawl count is never 0 (NULL and 0 become 1) and the
    depth is set.  A node known only from an edge row has no attribute at
    all, so no domain. *)
Theorem load_graph_nodes (db : database) (s : state) :
  ∃ g, load_graph db s
       = (Return (length (objects s)),
          mkState (objects s ++ [g]) (stdout s)) ∧
    (∀ n, n ∈ node_ids g ↔
       (∃ row, row ∈ node_rows db ∧ row_node_id row = n) ∨
       (∃ row, row ∈ edge_rows db ∧ (row_from row = n ∨ row_to row = n))) ∧
    (∀ rows1 row rows2,
       node_rows db = rows1 ++ row :: rows2 →
       (∀ r, r ∈ rows2 → row_node_id r ≠ row_node_id row) →
       (row_node_id row, node_attributes (has_depth db) row) ∈ _node g) ∧
    (∀ n d, (n, d) ∈ _node g →
       (∀ row, row ∈ node_rows db → row_node_id row ≠ n) → d = no_node_data) ∧
    (∀ n d, (n, d) ∈ _node g →
       d = no_node_data ∨
       ∃ dom desc count dep,
         d = mkNodeData (Some dom) (Some desc) (Some count) (Some dep) ∧ count ≠ 0).
Proof.
  exists (loaded_graph db). split; [apply load_graph_run|].
  split; [|split; [|split]].
  - intros n. unfold loaded_graph. rewrite elem_of_edge_rows_ids.
    unfold loaded_nodes. rewrite elem_of_node_rows_ids. split.
    + intros [[Hin|?]|?]; [by apply elem_of_nil in Hin|by left|by right].
    + intros [?|?]; [left; by right|by right].
  - intros rows1 row rows2 Hrows Hlast. unfold loaded_graph, loaded_nodes.
    apply edge_rows_persist. rewrite Hrows, foldl_app. simpl.
    apply node_rows_persist; [| |done].
    + apply add_node_wf, node_rows_wf, empty_graph_wf.
    + apply elem_of_add_node_row; [apply node_rows_wf, empty_graph_wf|].
      by right.
  - intros n d Hin Hnone. unfold loaded_graph in Hin.
    apply edge_rows_origin in Hin as [Hin|(Hd & _)]; [|done].
    apply node_rows_origin in Hin as [Hin|(row & Hrow & Hn & _)];
      [by apply elem_of_nil in Hin| |apply empty_graph_wf].
    exfalso. by apply (Hnone row).
  - intros n d Hin. unfold loaded_graph in Hin.
    apply edge_rows_origin in Hin as [Hin|(Hd & _)]; [|by left].
    apply node_rows_origin in Hin as [Hin|(row & Hrow & Hn & ->)];
      [by apply elem_of_nil in Hin| |apply empty_graph_wf].
    right. eexists _, _, _, _. split; [reflexivity|apply or_1_nonzero].
Qed.

Lemma load_graph_nodes_witness :
  (node_rows untidy_database
   = [mkNodeRow 1 (Some "a.com") None None None;
      mkNodeRow 2 None (Some "d") (Some 0) (Some 3)]
     ++ (mkNodeRow 1 (Some "z.com") (Some "") (Some 4) None :: []) ∧
   ∀ r, r ∈ [] →
        row_node_id r ≠ row_node_id (mkNodeRow 1 (Some "z.com") (Some "") (Some 4) None)) ∧
  ∃ g, load_graph untidy_database empty_state = (Return 0%nat, mkState [g] []) ∧
    (1, mkNodeData (Some "z.com") (Some "") (Some 4) (Some 0)) ∈ _node g.
Proof.
  assert (∀ r : node_row, r ∈ [] →
            row_node_id r
            ≠ row_node_id (mkNodeRow 1 (Some "z.com") (Some "") (Some 4) None))
    as Hlast by (intros r Hr; by apply elem_of_nil in Hr).
  split; [exact (conj eq_refl Hlast)|].
  destruct (load_graph_nodes untidy_database empty_state)
    as (g & Hrun & _ & Hwins & _).
  exists g. split; [exact Hrun|].
  exact (Hwins [mkNodeRow 1 (Some "a.com") None None None;
                mkNodeRow 2 None (Some "d") (Some 0) (Some 3)]
           (mkNodeRow 1 (Some "z.com") (Some "") (Some 4) None) [] eq_refl Hlast).
Defined.

Lemma node_rows_distinct hd g rows :
  NoDup (row_node_id <$> rows) →
  (∀ r, r ∈ rows → row_node_id r ∉ node_ids g) →
  _node (foldl (add_node_row hd) g rows)
  = _node g ++ ((λ row, (row_node_id row, node_attributes hd row)) <$> rows).
Proof.
  revert g. induction rows as [|row rows IH]; intros g Hnd Hnew; simpl.
  - by rewrite app_nil_r.
  - apply NoDup_cons in Hnd as [Hrow Hnd].
    assert (_node (add_node_row hd g row)
            = _node g ++ [(row_node_id row, node_attributes hd row)]) as Hstep.
    { unfold add_node_row, add_node; simpl. apply upsert_node_fresh.
      apply Hnew. by left. }
    rewrite IH; [by rewrite Hstep, <- app_assoc|done|].
    intros r Hr. unfold node_ids. rewrite Hstep, fmap_app.
    intros [Hin|Hin%list_elem_of_singleton]%elem_of_app.
    + by apply (Hnew r); [right|].
    + simpl in Hin. apply Hrow. rewrite <- Hin.
      apply list_elem_of_fmap. by exists r.
Qed.

Lemma edge_rows_known_ends g rows :
  (∀ r, r ∈ rows → row_from r ∈ node_ids g ∧ row_to r ∈ node_ids g) →
  _node (foldl add_edge_row g rows) = _node g.
Proof.
  revert g. induction rows as [|row rows IH]; intros g Hends; simpl; [done|].
  assert (_node (add_edge_row g row) = _node g) as Hstep.
  { unfold add_edge_row. rewrite add_edge_node.
    destruct (Hends row) as [Hu Hv]; [by left|].
    rewrite decide_True by done. rewrite decide_True by (by left).
    by rewrite !app_nil_r. }
  rewrite IH; [done|]. intros r Hr. unfold node_ids. rewrite Hstep.
  apply Hends. by right.
Qed.

Lemma foldl_insert_size {B} `{Countable K} {V} (key : B → K) (val : B → V)
    (m : gmap K V) (rows : list B) :
  NoDup (key <$> rows) → (∀ r, r ∈ rows → m !! key r = None) →
  size (foldl (λ m row, <[key row := val row]> m) m rows)
  = (size m + length rows)%nat.
Proof.
  revert m. induction rows as [|row rows IH]; intros m Hnd Hnew; simpl; [lia|].
  apply NoDup_cons in Hnd as [Hrow Hnd].
  rewrite IH; [|done|].
  - rewrite map_size_insert_None by (apply Hnew; by left). lia.
  - intros r Hr. rewrite lookup_insert_ne; [apply Hnew; by right|].
    intros Hk. apply Hrow. rewrite Hk. apply list_elem_of_fmap. by exists r.
Qed.

(** X10.  When the node rows have distinct ids, every edge row joins two
    of these ids and no ordered pair occurs twice, the loaded graph has
    one node per node row, in row order and with the attributes of its
    row, and one edge per edge row: N node rows and M edge rows give N
    nodes and M edges. *)
Theorem load_graph_counts (db : database) (s : state) :
  NoDup (row_node_id <$> node_rows db) →
  (∀ r, r ∈ edge_rows db →
     row_from r ∈ row_node_id <$> node_rows db ∧
     row_to r ∈ row_node_id <$> node_rows db) →
  NoDup (row_pair <$> edge_rows db) →
  ∃ g, load_graph db s
       = (Return (length (objects s)),
          mkState (objects s ++ [g]) (stdout s)) ∧
    _node g = (λ row, (row_node_id row, node_attributes (has_depth db) row))
                <$> node_rows db ∧
    number_of_nodes g = length (node_rows db) ∧
    number_of_edges g = length (edge_rows db).
Proof.
  intros Hids Hends Hpairs.
  exists (loaded_graph db). split; [apply load_graph_run|].
  assert (_node (loaded_nodes db)
          = (λ row, (row_node_id row, node_attributes (has_depth db) row))
              <$> node_rows db) as Hnodes.
  { unfold loaded_nodes. rewrite node_rows_distinct; [done|done|].
    intros r _. apply not_elem_of_nil. }
  assert (_node (loaded_graph db) = _node (loaded_nodes db)) as Hsame.
  { unfold loaded_graph. apply edge_rows_known_ends. intros r Hr.
    unfold node_ids. rewrite Hnodes, <- list_fmap_compose. by apply Hends. }
  split; [by rewrite Hsame|]. split.
  - unfold number_of_nodes. by rewrite Hsame, Hnodes, length_fmap.
  - unfold number_of_edges, loaded_graph. rewrite edge_rows_adj.
    unfold loaded_nodes. rewrite loaded_nodes_adj. simpl.
    rewrite (foldl_insert_size row_pair); [by rewrite map_size_empty|done|].
    intros r _. apply lookup_empty.
Qed.

Lemma load_graph_counts_witness :
  (NoDup (row_node_id <$> node_rows scenario_database) ∧
   (∀ r, r ∈ edge_rows scenario_database →
      row_from r ∈ row_node_id <$> node_rows scenario_database ∧
      row_to r ∈ row_node_id <$> node_rows scenario_database) ∧
   NoDup (row_pair <$> edge_rows scenario_database)) ∧
  ∃ g, load_graph scenario_database empty_state
       = (Return (length (objects empty_state)),
          mkState (objects empty_state ++ [g]) (stdout empty_state)) ∧
    _node g = (λ row, (row_node_id row,
                       node_attributes (has_depth scenario_database) row))
                <$> node_rows scenario_database ∧
    number_of_nodes g = length (node_rows scenario_database) ∧
    number_of_edges g = length (edge_rows scenario_database).
Proof.
  assert (NoDup (row_node_id <$> node_rows scenario_database)) as H1
    by (apply (bool_decide_unpack _); reflexivity).
  assert (∀ r, r ∈ edge_rows scenario_database →
            row_from r ∈ row_node_id <$> node_rows scenario_database ∧
            row_to r ∈ row_node_id <$> node_rows scenario_database) as H2.
  { intros r Hr. simpl in Hr.
    apply elem_of_cons in Hr as [->|Hr]; [|apply list_elem_of_singleton in Hr as ->];
      simpl; split; apply (bool_decide_unpack _); reflexivity. }
  assert (NoDup (row_pair <$> edge_rows scenario_database)) as H3
    by (apply (bool_decide_unpack _); reflexivity).
  split; [exact (conj H1 (conj H2 H3))|].
  exact (load_graph_counts scenario_database empty_state H1 H2 H3).
Defined.

(* ===================================================================== *)
(** ** What the filters keep                                              *)
(* ===================================================================== *)

Lemma filter_keys {V} (P : node → Prop) `{!∀ n, Decision (P n)}
    (l : list (node * V)) :
  (filter (λ kv : node * V, P kv.1) l).*1 = filter P l.*1.
Proof.
  induction l as [|[n d] l IH]; [done|].
  rewrite fmap_cons, !filter_cons. cbn [fst].
  destruct (decide (P n)); rewrite ?fmap_cons, IH; done.
Qed.

Lemma has_edge_degree g u v :
  has_edge g u v → degree g u ≠ 0%nat ∧ degree g v ≠ 0%nat.
Proof.
  intros Hedge. split; intros Hdeg;
    destruct (degree_zero_no_edge g _ u v Hdeg Hedge); done.
Qed.

Lemma weight_filtered_wf g w : wf_graph g → wf_graph (weight_filtered g w).
Proof.
  intros [Hnd Hends]. unfold wf_graph, node_ids, weight_filtered.
  rewrite remove_edges_from_node. split; [done|].
  intros u v [d Hd]. apply remove_light_edges_lookup in Hd as [Hd _].
  apply Hends. by exists d.
Qed.

Lemma without_isolated_wf g : wf_graph g → wf_graph (without_isolated g).
Proof.
  intros [Hnd Hends]. unfold wf_graph, node_ids.
  rewrite without_isolated_node, without_isolated_adj.
  pose proof (filter_keys (λ n, n ∉ isolates g) (_node g)) as Hkeys.
  cbv beta in Hkeys. rewrite Hkeys. split; [by apply NoDup_filter|].
  intros u v Huv. destruct (Hends u v Huv) as [Hu Hv].
  destruct (has_edge_degree g u v Huv) as [Hdu Hdv].
  split; apply list_elem_of_filter; (split; [|done]);
    intros Hiso; apply list_elem_of_filter in Hiso as [? _]; done.
Qed.

Lemma subgraph_wf g nodes : wf_graph g → wf_graph (subgraph g nodes).
Proof.
  intros [Hnd Hends]. unfold wf_graph, node_ids, subgraph; simpl.
  pose proof (filter_keys (λ n, n ∈ nodes) (_node g)) as Hkeys.
  cbv beta in Hkeys. rewrite Hkeys. split; [by apply NoDup_filter|].
  intros u v [d Hd]. apply map_lookup_filter_Some in Hd as [Hd [Hu Hv]].
  simpl in *. destruct (Hends u v) as [Hu' Hv']; [by exists d|].
  split; by apply list_elem_of_filter.
Qed.

(** X11.  Each filter keeps the invariant of networkx: run on a graph
    with unique node keys whose edges join nodes of the graph, it returns
    a graph with unique node keys whose edges join nodes of the returned
    graph; no filter leaves a dangling edge. *)
Theorem filters_keep_invariant (s : state) (G : ref) (g : DiGraph) :
  objects s !! G = Some g → wf_graph g →
  (∀ min_weight, ∃ g' s',
     filter_by_weight G min_weight s = (Return (length (objects s)), s') ∧
     objects s' !! length (objects s) = Some g' ∧ wf_graph g') ∧
  (∃ g' s',
     remove_isolated G s = (Return (length (objects s)), s') ∧
     objects s' !! length (objects s) = Some g' ∧ wf_graph g') ∧
  (∀ root_domain depth r, find_root (_node g) root_domain = Some r →
     ∃ g' s',
       extract_subgraph G root_domain depth s = (Return (length (objects s)), s') ∧
       objects s' !! length (objects s) = Some g' ∧ wf_graph g').
Proof.
  intros HG Hwf. split; [|split].
  - intros w. eexists _, _. split; [by apply filter_by_weight_run|].
    split; [apply lookup_last_object|by apply weight_filtered_wf].
  - eexists _, _. split; [by apply remove_isolated_run|].
    split; [apply lookup_last_object|by apply without_isolated_wf].
  - intros d k r Hroot. eexists _, _.
    split; [by eapply extract_subgraph_run_found|].
    split; [apply lookup_last_object|by apply subgraph_wf].
Qed.

Lemma filters_keep_invariant_witness :
  (objects scenario_state !! 0%nat = Some scenario_graph ∧ wf_graph scenario_graph) ∧
  ∃ g' s',
    remove_isolated 0%nat scenario_state
    = (Return (length (objects scenario_state)), s') ∧
    objects s' !! length (objects scenario_state) = Some g' ∧ wf_graph g'.
Proof.
  split; [exact (conj eq_refl scenario_graph_wf)|].
  exact (proj1 (proj2 (filters_keep_invariant scenario_state 0%nat scenario_graph
                         eq_refl scenario_graph_wf))).
Defined.

Lemma length_filter_split {A} (P : A → Prop) `{!∀ x, Decision (P x)} (l : list A) :
  (length (filter P l) + length (filter (λ x, ¬ P x) l) = length l)%nat.
Proof.
  induction l as [|x l IH]; [done|]. rewrite !filter_cons.
  destruct (decide (P x)); destruct (decide (¬ P x)); simpl; try tauto; lia.
Qed.

Lemma filter_ext_in {A} (P Q : A → Prop) `{!∀ x, Decision (P x)}
    `{!∀ x, Decision (Q x)} (l : list A) :
  (∀ x, x ∈ l → P x ↔ Q x) → filter P l = filter Q l.
Proof.
  induction l as [|x l IH]; intros Hext; [done|].
  rewrite !filter_cons.
  assert (filter P l = filter Q l) as ->
    by (apply IH; intros y Hy; apply Hext; by right).
  destruct (decide (P x)) as [HP|HP]; destruct (decide (Q x)) as [HQ|HQ];
    try done; exfalso; (apply HQ || apply HP); apply (Hext x); (by left) || done.
Qed.

Lemma degree_nonzero_adjacent g n : degree g n ≠ 0%nat → ∃ m, adjacent g n m.
Proof.
  unfold degree. intros Hdeg.
  destruct (filter (λ e : node * node, e.1 = n) (elements (dom (_adj g))))
    as [|[u v] l] eqn:Hout.
  - destruct (filter (λ e : node * node, e.2 = n) (elements (dom (_adj g))))
      as [|[u v] l] eqn:Hin; [done|].
    assert ((u, v) ∈ filter (λ e : node * node, e.2 = n) (elements (dom (_adj g))))
      as Hel by (rewrite Hin; by left).
    apply list_elem_of_filter in Hel as [Hv Hel]. simpl in Hv. subst v.
    exists u. right. by apply elem_of_elements, elem_of_dom in Hel.
  - assert ((u, v) ∈ filter (λ e : node * node, e.1 = n) (elements (dom (_adj g))))
      as Hel by (rewrite Hout; by left).
    apply list_elem_of_filter in Hel as [Hu Hel]. simpl in Hu. subst u.
    exists v. left. by apply elem_of_elements, elem_of_dom in Hel.
Qed.

Lemma isolates_count g :
  (number_of_nodes (without_isolated g) + length (isolates g)
   = number_of_nodes g)%nat.
Proof.
  unfold number_of_nodes. rewrite without_isolated_node.
  rewrite <- (length_filter_split (λ kv : node * NodeData, degree g kv.1 ≠ 0%nat)
                (_node g)).
  f_equal.
  - f_equal. apply filter_ext_in. intros [n d] Hin. simpl. split.
    + intros Hnot Hdeg. apply Hnot. apply list_elem_of_filter. split; [done|].
      apply list_elem_of_fmap. by exists (n, d).
    + intros Hdeg Hiso. by apply list_elem_of_filter in Hiso as [? _].
  - unfold isolates, node_ids.
    rewrite <- (filter_keys (λ n, degree g n = 0%nat)), length_fmap.
    f_equal. apply list_filter_iff. intros [n d]. simpl.
    destruct (decide (degree g n = 0%nat)); tauto.
Qed.

(** X12.  The isolation filter returns a graph in which no node is
    isolated (every node has an incident edge), with the edges of the
    input, and the number it reports in ["Removed ... isolated nodes"] is
    the number of nodes by which the graph shrank. *)
Theorem remove_isolated_report (s : state) (G : ref) (g : DiGraph) :
  objects s !! G = Some g →
  ∃ g', remove_isolated G s
        = (Return (length (objects s)),
           mkState (objects s ++ [g'])
             (stdout s ++ ["Removed " +:+
                           pretty (number_of_nodes g - number_of_nodes g')%nat +:+
                           " isolated nodes"])) ∧
    isolates g' = [] ∧
    (∀ n, n ∈ node_ids g' → ∃ m, adjacent g' n m) ∧
    number_of_edges g' = number_of_edges g ∧
    (number_of_nodes g' ≤ number_of_nodes g)%nat.
Proof.
  intros HG. exists (without_isolated g).
  pose proof (isolates_count g) as Hcount.
  split.
  { rewrite (remove_isolated_run G s g HG). unfold isolated_message.
    replace (number_of_nodes g - number_of_nodes (without_isolated g))%nat
      with (length (isolates g)) by lia.
    done. }
  split; [apply isolates_without_isolated|]. split.
  - intros n Hn. apply degree_nonzero_adjacent. intros Hdeg.
    assert (n ∈ isolates (without_isolated g)) as Hiso
      by (by apply list_elem_of_filter).
    rewrite isolates_without_isolated in Hiso. by apply elem_of_nil in Hiso.
  - split; [|lia]. unfold number_of_edges. by rewrite without_isolated_adj.
Qed.

Lemma remove_isolated_report_witness :
  objects filtered_scenario_state !! 0%nat = Some (weight_filtered scenario_graph 2) ∧
  ∃ g', remove_isolated 0%nat filtered_scenario_state
        = (Return (length (objects filtered_scenario_state)),
           mkState (objects filtered_scenario_state ++ [g'])
             (stdout filtered_scenario_state ++
              ["Removed " +:+
               pretty (number_of_nodes (weight_filtered scenario_graph 2)
                       - number_of_nodes g')%nat +:+
               " isolated nodes"])) ∧
    isolates g' = [] ∧
    (∀ n, n ∈ node_ids g' → ∃ m, adjacent g' n m) ∧
    number_of_edges g' = number_of_edges (weight_filtered scenario_graph 2) ∧
    (number_of_nodes g' ≤ number_of_nodes (weight_filtered scenario_graph 2))%nat.
Proof.
  split; [reflexivity|].
  exact (remove_isolated_report filtered_scenario_state 0%nat
           (weight_filtered scenario_graph 2) eq_refl).
Defined.

Lemma hop_set_S_subseteq g r k : hop_set g r k ⊆ hop_set g r (S k).
Proof. intros m Hm. simpl. apply elem_of_hop_round. by left. Qed.

Lemma hop_set_mono g r k1 k2 :
  (k1 ≤ k2)%nat → hop_set g r k1 ⊆ hop_set g r k2.
Proof.
  induction 1 as [|k2 _ IH]; [done|].
  etrans; [exact IH|apply hop_set_S_subseteq].
Qed.

Lemma hop_set_root g r k : r ∈ hop_set g r k.
Proof. apply elem_of_hop_set. constructor. Qed.

(** X13.  Subgraph extraction grows with the hop depth: for
    [depth1 <= depth2] every node and every edge of the result at
    [depth1] is in the result at [depth2].  The root node is always in
    the result, and a depth of 0 or less gives the nodes with the id of
    the root and nothing else. *)
Theorem extract_subgraph_depth (s : state) (G : ref) (g : DiGraph)
    (root_domain : string) (r : node) (depth1 depth2 : Z) :
  objects s !! G = Some g → find_root (_node g) root_domain = Some r →
  depth1 ≤ depth2 →
  ∃ g1 g2 s1 s2,
    extract_subgraph G root_domain depth1 s = (Return (length (objects s)), s1) ∧
    objects s1 !! length (objects s) = Some g1 ∧
    extract_subgraph G root_domain depth2 s = (Return (length (objects s)), s2) ∧
    objects s2 !! length (objects s) = Some g2 ∧
    (∀ n data, (n, data) ∈ _node g1 → (n, data) ∈ _node g2) ∧
    (∀ u v e, _adj g1 !! (u, v) = Some e → _adj g2 !! (u, v) = Some e) ∧
    r ∈ node_ids g1 ∧
    (depth1 ≤ 0 → ∀ n, n ∈ node_ids g1 → n = r).
Proof.
  intros HG Hroot Hle.
  eexists _, _, _, _.
  split; [by eapply extract_subgraph_run_found|].
  split; [apply lookup_last_object|].
  split; [by eapply extract_subgraph_run_found|].
  split; [apply lookup_last_object|].
  assert (hop_set g r (Z.to_nat depth1) ⊆ hop_set g r (Z.to_nat depth2)) as Hsub
    by (apply hop_set_mono; lia).
  split; [|split; [|split]].
  - intros n data [Hin Hn]%subgraph_node. apply subgraph_node. split; [done|].
    by apply Hsub.
  - intros u v e (He & Hu & Hv)%subgraph_edge. apply subgraph_edge.
    split; [done|]. split; by apply Hsub.
  - apply find_root_Some in Hroot as (l1 & data & l2 & Hl & _).
    apply list_elem_of_fmap. exists (r, data). split; [done|].
    apply subgraph_node. split; [|apply hop_set_root].
    rewrite Hl. apply elem_of_app. right. by left.
  - intros Hd n ([n' data] & -> & [_ Hn]%subgraph_node)%list_elem_of_fmap.
    simpl. replace (Z.to_nat depth1) with 0%nat in Hn by lia.
    simpl in Hn. by apply elem_of_singleton in Hn.
Qed.

Lemma extract_subgraph_depth_witness :
  (objects scenario_state !! 0%nat = Some scenario_graph ∧
   find_root (_node scenario_graph) "a.com" = Some 1 ∧ 0 ≤ 1) ∧
  ∃ g1 g2 s1 s2,
    extract_subgraph 0%nat "a.com" 0 scenario_state
    = (Return (length (objects scenario_state)), s1) ∧
    objects s1 !! length (objects scenario_state) = Some g1 ∧
    extract_subgraph 0%nat "a.com" 1 scenario_state
    = (Return (length (objects scenario_state)), s2) ∧
    objects s2 !! length (objects scenario_state) = Some g2 ∧
    (∀ n data, (n, data) ∈ _node g1 → (n, data) ∈ _node g2) ∧
    (∀ u v e, _adj g1 !! (u, v) = Some e → _adj g2 !! (u, v) = Some e) ∧
    1 ∈ node_ids g1 ∧
    (0 ≤ 0 → ∀ n, n ∈ node_ids g1 → n = 1).
Proof.
  assert (0 ≤ 1) as H by discriminate.
  split; [exact (conj eq_refl (conj eq_refl H))|].
  exact (extract_subgraph_depth scenario_state 0%nat scenario_graph "a.com" 1 0 1
           eq_refl eq_refl H).
Defined.

Lemma digraph_eq (g1 g2 : DiGraph) :
  _node g1 = _node g2 → _adj g1 = _adj g2 → g1 = g2.
Proof. destruct g1, g2; simpl. by intros -> ->. Qed.

Lemma weight_filtered_twice g w1 w2 :
  weight_filtered (weight_filtered g w1) w2 = weight_filtered g (Z.max w1 w2).
Proof.
  apply digraph_eq.
  - unfold weight_filtered. by rewrite !remove_edges_from_node.
  - apply map_eq. intros [u v]. apply option_eq. intros d.
    unfold weight_filtered. rewrite !remove_light_edges_lookup.
    split.
    + intros [[Hd H1] H2]. split; [done|lia].
    + intros [Hd Hmax]. split; [split; [done|]|]; lia.
Qed.

(** X14.  Weight filters compose to the larger threshold: filtering at
    [w1] and then filtering the result at [w2] gives the same graph as
    one filter at [max w1 w2]; in particular filtering twice at the same
    threshold changes nothing the second time. *)
Theorem filter_by_weight_twice (s : state) (G : ref) (g : DiGraph) (w1 w2 : Z) :
  objects s !! G = Some g →
  ∃ G1 s1 G2 s2 G3 s3 g',
    filter_by_weight G w1 s = (Return G1, s1) ∧
    filter_by_weight G1 w2 s1 = (Return G2, s2) ∧
    filter_by_weight G (Z.max w1 w2) s = (Return G3, s3) ∧
    objects s2 !! G2 = Some g' ∧ objects s3 !! G3 = Some g' ∧
    (∀ u v d, _adj g' !! (u, v) = Some d ↔
       _adj g !! (u, v) = Some d ∧ w1 ≤ get_weight d ∧ w2 ≤ get_weight d).
Proof.
  intros HG.
  pose proof (filter_by_weight_run G w1 s g HG) as Hrun1.
  set (s1 := mkState (objects s ++ [weight_filtered g w1])
                     (stdout s ++ [weight_message g w1])) in *.
  assert (objects s1 !! length (objects s) = Some (weight_filtered g w1)) as HG1
    by apply lookup_last_object.
  pose proof (filter_by_weight_run _ w2 s1 _ HG1) as Hrun2.
  pose proof (filter_by_weight_run G (Z.max w1 w2) s g HG) as Hrun3.
  eexists _, _, _, _, _, _, (weight_filtered g (Z.max w1 w2)).
  split; [exact Hrun1|]. split; [exact Hrun2|]. split; [exact Hrun3|].
  split; [rewrite <- weight_filtered_twice; apply lookup_last_object|].
  split; [apply lookup_last_object|].
  intros u v d. unfold weight_filtered. rewrite remove_light_edges_lookup.
  split.
  - intros [Hd Hmax]. split; [done|lia].
  - intros (Hd & H1 & H2). split; [done|lia].
Qed.

Lemma filter_by_weight_twice_witness :
  objects scenario_state !! 0%nat = Some scenario_graph ∧
  ∃ G1 s1 G2 s2 G3 s3 g',
    filter_by_weight 0%nat 2 scenario_state = (Return G1, s1) ∧
    filter_by_weight G1 6 s1 = (Return G2, s2) ∧
    filter_by_weight 0%nat (Z.max 2 6) scenario_state = (Return G3, s3) ∧
    objects s2 !! G2 = Some g' ∧ objects s3 !! G3 = Some g' ∧
    (∀ u v d, _adj g' !! (u, v) = Some d ↔
       _adj scenario_graph !! (u, v) = Some d ∧ 2 ≤ get_weight d ∧ 6 ≤ get_weight d).
Proof.
  split; [reflexivity|].
  exact (filter_by_weight_twice scenario_state 0%nat scenario_graph 2 6 eq_refl).
Defined.

(* ===================================================================== *)
(** ** main.py: the filter stage                                          *)
(* ===================================================================== *)

Lemma bind_run {A B} (m : M A) (k : A → M B) s a s' :
  m s = (Return a, s') → bind m k s = k a s'.
Proof. intros H. unfold bind. by rewrite H. Qed.

Lemma bind_raise {A B} (m : M A) (k : A → M B) s e s' :
  m s = (Raise e, s') → bind m k s = (Raise e, s').
Proof. intros H. unfold bind. by rewrite H. Qed.

Lemma untouched_refl s : untouched s s.
Proof. by intros r g0 H. Qed.

Lemma untouched_trans s1 s2 s3 :
  untouched s1 s2 → untouched s2 s3 → untouched s1 s3.
Proof. intros H12 H23 r g0 H. by apply H23, H12. Qed.

Lemma validate_arguments_cases fs args s :
  (valid_arguments fs args ∧ main.validate_arguments fs args s = (Return tt, s)) ∨
  (¬ valid_arguments fs args ∧
   main.validate_arguments fs args s = (Raise (SystemExit 1), s)).
Proof.
  unfold valid_arguments, main.validate_arguments.
  destruct (main.path_exists fs (main.db args)); simpl;
    [|right; split; [intros (? & _); done|done]].
  destruct (main.path_is_file fs (main.db args)); simpl;
    [|right; split; [intros (_ & ? & _); done|done]].
  destruct (Z.ltb_spec (main.depth args) 1) as [Hd|Hd];
    [right; split; [intros (_ & _ & ? & _); lia|done]|].
  destruct (main.min_weight args) as [w|].
  - destruct (Z.ltb_spec w 0) as [Hw|Hw].
    + right. split; [|done]. intros (_ & _ & _ & H). specialize (H w eq_refl). lia.
    + left. split; [|done]. split; [done|]. split; [done|]. split; [done|].
      intros w' [= <-]. done.
  - left. split; [|done]. split; [done|]. split; [done|]. split; [done|].
    intros w' [=].
Qed.

Lemma weight_stage_run args G s g :
  objects s !! G = Some g →
  ∃ G1 s1,
    match main.min_weight args with
    | Some w => if w =? 0 then ret G else filter_by_weight G w
    | None => ret G
    end s = (Return G1, s1) ∧
    objects s1 !! G1 = Some (weight_stage args g) ∧ untouched s s1 ∧
    (main.min_weight args = None ∨ main.min_weight args = Some 0 →
     G1 = G ∧ s1 = s).
Proof.
  intros HG. unfold weight_stage.
  destruct (main.min_weight args) as [w|].
  - destruct (Z.eqb_spec w 0) as [->|Hw].
    + exists G, s. split; [done|]. split; [done|]. split; [apply untouched_refl|done].
    + eexists _, _. split; [by apply filter_by_weight_run|].
      split; [apply lookup_last_object|]. split; [apply alloc_untouched|].
      intros [?|[= ?]]; done.
  - exists G, s. split; [done|]. split; [done|]. split; [apply untouched_refl|done].
Qed.

Lemma main_filters_stages fs args G s g :
  valid_arguments fs args → objects s !! G = Some g → _node g ≠ [] →
  ∃ G2 s2,
    objects s2 !! G2 = Some (filtered_graph args g) ∧ untouched s s2 ∧
    (main.remove_isolated args = false →
     main.min_weight args = None ∨ main.min_weight args = Some 0 →
     G2 = G ∧ s2 = s) ∧
    main.main_filters fs args G s
    = match main.root args with
      | Some r =>
          if bool_decide (r = "") then ret G2
          else main.try_except_ValueError
                 (extract_subgraph G2 r (main.depth args))
                 (λ _, raise (SystemExit 1))
      | None => ret G2
      end s2.
Proof.
  intros Hvalid HG Hne.
  destruct (validate_arguments_cases fs args s) as [[_ Hval]|[Hinv _]]; [|done].
  destruct (weight_stage_run args G s g HG) as (G1 & s1 & Hrun1 & HG1 & Hun1 & Hsame1).
  unfold main.main_filters.
  rewrite (bind_run _ _ _ _ _ Hval).
  assert (G_number_of_nodes G s = (Return (number_of_nodes g), s)) as Hn.
  { unfold G_number_of_nodes. by rewrite (bind_run _ _ _ _ _ (deref_run _ _ _ HG)). }
  rewrite (bind_run _ _ _ _ _ Hn).
  assert ((number_of_nodes g =? 0)%nat = false) as ->.
  { apply Nat.eqb_neq. unfold number_of_nodes. by destruct (_node g). }
  rewrite (bind_run _ _ s tt s eq_refl).
  rewrite (bind_run _ _ _ _ _ Hrun1).
  unfold filtered_graph.
  destruct (main.remove_isolated args).
  - rewrite (bind_run _ _ _ _ _ (remove_isolated_run _ _ _ HG1)).
    exists (length (objects s1)),
      (mkState (objects s1 ++ [without_isolated (weight_stage args g)])
               (stdout s1 ++ [isolated_message (weight_stage args g)])).
    split; [simpl; apply lookup_last_object|].
    split; [eapply untouched_trans; [exact Hun1|apply alloc_untouched]|].
    split; [done|reflexivity].
  - rewrite (bind_run _ _ s1 G1 s1 eq_refl).
    exists G1, s1. split; [done|]. split; [done|]. split; [|reflexivity].
    intros _ Hw. by apply Hsame1.
Qed.

(** X15.  [main] applies the filters in the order weight, isolation,
    subgraph, each to the graph the previous one returned.  A threshold
    of 0 and an empty root are treated as not given.  The graph that was
    loaded stays as it is; when no filter applies the very same object
    goes on to the statistics and nothing is printed.  The lines [main]
    prints itself are not modelled. *)
Theorem main_filters_pipeline (fs : main.filesystem) (args : main.Namespace)
    (G : ref) (s : state) (g : DiGraph) :
  valid_arguments fs args → objects s !! G = Some g → _node g ≠ [] →
  (∀ r, requested_root args = Some r →
        is_Some (find_root (_node (filtered_graph args g)) r)) →
  ∃ G' s',
    main.main_filters fs args G s = (Return G', s') ∧
    objects s' !! G' = Some (final_graph args g) ∧
    untouched s s' ∧
    (main.remove_isolated args = false →
     main.min_weight args = None ∨ main.min_weight args = Some 0 →
     requested_root args = None →
     G' = G ∧ s' = s).
Proof.
  intros Hvalid HG Hne Hroot.
  destruct (main_filters_stages fs args G s g Hvalid HG Hne)
    as (G2 & s2 & HG2 & Hun & Hsame & ->).
  unfold final_graph, requested_root in *.
  destruct (main.root args) as [r|].
  - destruct (bool_decide (r = "")).
    + exists G2, s2. split; [done|]. split; [done|]. split; [done|].
      intros ???. by apply Hsame.
    + destruct (Hroot r eq_refl) as [root_id Hfind]. rewrite Hfind.
      unfold main.try_except_ValueError.
      rewrite (extract_subgraph_run_found _ _ _ _ _ _ HG2 Hfind).
      eexists _, _. split; [done|]. split; [simpl; apply lookup_last_object|].
      split; [eapply untouched_trans; [exact Hun|apply alloc_untouched]|].
      intros _ _ [=].
  - exists G2, s2. split; [done|]. split; [done|]. split; [done|].
    intros ???. by apply Hsame.
Qed.

Lemma main_filters_pipeline_witness :
  (valid_arguments any_filesystem full_args ∧
   objects scenario_state !! 0%nat = Some scenario_graph ∧
   _node scenario_graph ≠ []) ∧
  ∃ G' s',
    main.main_filters any_filesystem full_args 0%nat scenario_state = (Return G', s') ∧
    objects s' !! G' = Some (final_graph full_args scenario_graph) ∧
    untouched scenario_state s' ∧
    (main.remove_isolated full_args = false →
     main.min_weight full_args = None ∨ main.min_weight full_args = Some 0 →
     requested_root full_args = None →
     G' = 0%nat ∧ s' = scenario_state).
Proof.
  assert (valid_arguments any_filesystem full_args) as Hvalid.
  { split; [reflexivity|]. split; [reflexivity|]. split; [discriminate|].
    intros w [= <-]. discriminate. }
  assert (_node scenario_graph ≠ []) as Hne by discriminate.
  split; [exact (conj Hvalid (conj eq_refl Hne))|].
  apply (main_filters_pipeline any_filesystem full_args 0%nat scenario_state
           scenario_graph Hvalid eq_refl Hne).
  intros r [= <-]. by eexists.
Defined.

(** X16.  [main] leaves the filter stage with exit status 1 exactly when
    the arguments are invalid, the loaded graph has no node, or the root
    domain is on no node of the graph that the weight and the isolation
    filter left; the [ValueError] of the extraction never escapes, and no
    other exception is raised. *)
Theorem main_filters_exit (fs : main.filesystem) (args : main.Namespace)
    (G : ref) (s : state) (g : DiGraph) :
  objects s !! G = Some g →
  ((∃ s', main.main_filters fs args G s = (Raise (SystemExit 1), s')) ↔
   (¬ valid_arguments fs args ∨ _node g = [] ∨
    ∃ r, requested_root args = Some r ∧
         find_root (_node (filtered_graph args g)) r = None)) ∧
  (∀ e s', main.main_filters fs args G s = (Raise e, s') → e = SystemExit 1).
Proof.
  intros HG.
  destruct (validate_arguments_cases fs args s) as [[Hvalid Hval]|[Hinv Hval]].
  2:{ assert (main.main_filters fs args G s = (Raise (SystemExit 1), s)) as Hrun.
      { unfold main.main_filters. by rewrite (bind_raise _ _ _ _ _ Hval). }
      rewrite Hrun. split; [|by intros e s' [= <- _]].
      split; [by left|by exists s]. }
  destruct (decide (_node g = [])) as [Hempty|Hne].
  { assert (main.main_filters fs args G s = (Raise (SystemExit 1), s)) as Hrun.
    { unfold main.main_filters. rewrite (bind_run _ _ _ _ _ Hval).
      assert (G_number_of_nodes G s = (Return 0%nat, s)) as Hn.
      { unfold G_number_of_nodes.
        rewrite (bind_run _ _ _ _ _ (deref_run _ _ _ HG)).
        unfold number_of_nodes. by rewrite Hempty. }
      by rewrite (bind_run _ _ _ _ _ Hn). }
    rewrite Hrun. split; [|by intros e s' [= <- _]].
    split; [by right; left|by exists s]. }
  destruct (main_filters_stages fs args G s g Hvalid HG Hne)
    as (G2 & s2 & HG2 & _ & _ & ->).
  unfold requested_root.
  destruct (main.root args) as [r|].
  - destruct (bool_decide (r = "")).
    + split; [|by intros e s' [=]]. split; [by intros [s' [=]]|].
      intros [?|[?|(r' & [=] & _)]]; done.
    + unfold main.try_except_ValueError.
      destruct (find_root (_node (filtered_graph args g)) r) as [root_id|] eqn:Hfind.
      * rewrite (extract_subgraph_run_found _ _ _ _ _ _ HG2 Hfind).
        split; [|by intros e s' [=]]. split; [by intros [s' [=]]|].
        intros [?|[?|(r' & [= <-] & Hnone)]]; [done..|congruence].
      * rewrite (extract_subgraph_run_missing _ _ _ _ _ HG2 Hfind).
        split; [|by intros e s' [= <- _]].
        split; [|by exists s2]. intros _. right; right. by exists r.
  - split; [|by intros e s' [=]]. split; [by intros [s' [=]]|].
    intros [?|[?|(r' & [=] & _)]]; done.
Qed.

Lemma main_filters_exit_witness :
  objects scenario_state !! 0%nat = Some scenario_graph ∧
  ((∃ s', main.main_filters any_filesystem lost_root_args 0%nat scenario_state
          = (Raise (SystemExit 1), s')) ↔
   (¬ valid_arguments any_filesystem lost_root_args ∨ _node scenario_graph = [] ∨
    ∃ r, requested_root lost_root_args = Some r ∧
         find_root (_node (filtered_graph lost_root_args scenario_graph)) r = None)) ∧
  (∀ e s', main.main_filters any_filesystem lost_root_args 0%nat scenario_state
           = (Raise e, s') → e = SystemExit 1).
Proof.
  split; [reflexivity|].
  exact (main_filters_exit any_filesystem lost_root_args 0%nat scenario_state
           scenario_graph eq_refl).
Defined.

(* ===================================================================== *)
(** ** loader.py: statistics                                              *)
(* ===================================================================== *)

Lemma fmap_no_bump (l : list node) (x : node) (c : node → nat) :
  x ∉ l →
  (λ n, if decide (x = n) then S (c n) else c n) <$> l = c <$> l.
Proof.
  intros Hx. apply list_fmap_ext. intros i m Hm. simpl.
  destruct (decide (x = m)) as [->|]; [|done].
  exfalso. apply Hx. by eapply list_elem_of_lookup_2.
Qed.

Lemma sum_list_bump (l : list node) (x : node) (c : node → nat) :
  NoDup l → x ∈ l →
  sum_list ((λ n, if decide (x = n) then S (c n) else c n) <$> l)
  = S (sum_list (c <$> l)).
Proof.
  induction l as [|n l IH]; intros Hnd Hin; [by apply elem_of_nil in Hin|].
  apply NoDup_cons in Hnd as [Hn Hnd]. rewrite !fmap_cons. simpl.
  destruct (decide (x = n)) as [->|Hne].
  - rewrite fmap_no_bump by done. lia.
  - apply elem_of_cons in Hin as [?|Hin]; [done|]. rewrite IH by done. lia.
Qed.

Lemma count_by_key {A} (f : A → node) (es : list A) (l : list node) :
  NoDup l → (∀ e, e ∈ es → f e ∈ l) →
  sum_list ((λ n, length (filter (λ e, f e = n) es)) <$> l) = length es.
Proof.
  intros Hnd. induction es as [|e es IH]; intros Hin.
  - simpl. clear. induction l as [|n l IHl]; [done|].
    rewrite fmap_cons. simpl. by rewrite IHl.
  - simpl. rewrite <- IH by (intros e' He'; apply Hin; by right).
    rewrite <- (sum_list_bump l (f e)
                  (λ n, length (filter (λ e', f e' = n) es)) Hnd)
      by (apply Hin; by left).
    f_equal. apply list_fmap_ext. intros _ n _. simpl.
    rewrite filter_cons. by destruct (decide (f e = n)).
Qed.

Lemma sum_list_add {A} (a b : A → nat) (l : list A) :
  sum_list ((λ x, a x + b x)%nat <$> l)
  = (sum_list (a <$> l) + sum_list (b <$> l))%nat.
Proof. induction l as [|x l IH]; [done|]. rewrite !fmap_cons. simpl. lia. Qed.

(** The degrees of a graph add up to twice its number of edges. *)
Lemma sum_degrees g :
  wf_graph g →
  sum_list (snd <$> degrees_of g) = (2 * number_of_edges g)%nat.
Proof.
  intros [Hnd Hends]. unfold degrees_of, number_of_edges.
  rewrite <- list_fmap_compose.
  replace (sum_list (snd ∘ (λ n, (n, degree g n)) <$> node_ids g))
    with (sum_list ((λ n, degree g n) <$> node_ids g)) by done.
  unfold degree. rewrite sum_list_add.
  assert (∀ e, e ∈ elements (dom (_adj g)) → e.1 ∈ node_ids g ∧ e.2 ∈ node_ids g)
    as Hin.
  { intros [u v] He. apply elem_of_elements, elem_of_dom in He. by apply Hends. }
  rewrite (count_by_key fst) by (done || intros e He; by apply Hin).
  rewrite (count_by_key snd) by (done || intros e He; by apply Hin).
  rewrite <- size_dom. unfold size, set_size. simpl. lia.
Qed.

Lemma get_stats_run G s g :
  objects s !! G = Some g →
  ∃ st, get_stats G s = (Return st, s) ∧
    stats_nodes st = number_of_nodes g ∧
    stats_edges st = number_of_edges g ∧
    stats_density st = density g ∧
    stats_avg_degree st
    = (if (0 <? number_of_nodes g)%nat then
         (inject_Z (Z.of_nat (sum_list (snd <$> degrees_of g)))
          / inject_Z (Z.of_nat (number_of_nodes g)))%Q
       else 0%Q) ∧
    stats_top_nodes st
    = match degrees_of g with
      | [] => None
      | _ => Some ((λ nd : node * nat, (nd.1, domain_or_unknown g nd.1, nd.2)) <$>
                     take 5 (sorted_by_degree (degrees_of g)))
      end.
Proof.
  intros HG. eexists. unfold get_stats.
  rewrite (bind_run _ _ _ _ _ (deref_run _ _ _ HG)).
  split; [reflexivity|]. by repeat split.
Qed.

(** X17.  On a graph whose edges join nodes of the graph, the average
    degree that [get_stats] reports is twice the number of edges divided
    by the number of nodes, and for more than one node it is
    [2 * density * (nodes - 1)].  For a graph without nodes it is 0, the
    edge count and the density are 0 and there is no [top_nodes] entry.
    The call changes nothing and prints nothing. *)
Theorem get_stats_average_degree (s : state) (G : ref) (g : DiGraph) :
  objects s !! G = Some g → wf_graph g →
  ∃ st, get_stats G s = (Return st, s) ∧
    stats_nodes st = number_of_nodes g ∧
    stats_edges st = number_of_edges g ∧
    ((0 < number_of_nodes g)%nat →
       (stats_avg_degree st
        == 2 * inject_Z (Z.of_nat (number_of_edges g))
           / inject_Z (Z.of_nat (number_of_nodes g)))%Q) ∧
    ((1 < number_of_nodes g)%nat →
       (stats_avg_degree st
        == 2 * stats_density st * (inject_Z (Z.of_nat (number_of_nodes g)) - 1))%Q) ∧
    (number_of_nodes g = 0%nat →
       stats_avg_degree st = 0%Q ∧ stats_density st = 0%Q ∧
       stats_edges st = 0%nat ∧ stats_top_nodes st = None).
Proof.
  intros HG Hwf.
  destruct (get_stats_run G s g HG) as (st & Hrun & Hn & Hm & Hd & Havg & Htop).
  exists st. split; [done|]. split; [done|]. split; [done|].
  rewrite Havg, Hd, Hm, Htop. rewrite (sum_degrees g Hwf).
  assert (∀ n : nat, (0 < n)%nat → ¬ (inject_Z (Z.of_nat n) == 0)%Q) as Hnz.
  { intros n Hpos. unfold Qeq. simpl. lia. }
  split; [|split].
  - intros Hpos. rewrite (proj2 (Nat.ltb_lt _ _) Hpos).
    rewrite Nat2Z.inj_mul, inject_Z_mult. reflexivity.
  - intros Hpos. rewrite (proj2 (Nat.ltb_lt 0 _)) by lia.
    rewrite Nat2Z.inj_mul, inject_Z_mult. unfold density.
    destruct (Nat.eqb_spec (number_of_edges g) 0) as [->|Hedges]; simpl.
    + unfold Qeq; simpl; lia.
    + rewrite (proj2 (Nat.leb_gt _ _)) by lia.
      rewrite inject_Z_mult. unfold Zminus. rewrite inject_Z_plus.
      change (inject_Z (- (1))) with (- (1))%Q.
      assert (¬ (inject_Z (Z.of_nat (number_of_nodes g)) + - (1) == 0)%Q) as Hn1.
      { intros H0. apply (Hnz (number_of_nodes g - 1)%nat); [lia|].
        rewrite Nat2Z.inj_sub by lia. unfold Zminus. rewrite inject_Z_plus.
        exact H0. }
      pose proof (Hnz (number_of_nodes g) ltac:(lia)) as Hn0.
      generalize dependent (inject_Z (Z.of_nat (number_of_nodes g))).
      generalize (inject_Z (Z.of_nat (number_of_edges g))).
      intros m n _ Hn1 Hn0. field. split; [exact Hn1|exact Hn0].
  - intros Hzero. rewrite Hzero. simpl.
    assert (number_of_edges g = 0%nat) as Hedges.
    { pose proof (sum_degrees g Hwf) as Hsum. unfold degrees_of, node_ids in Hsum.
      unfold number_of_nodes in Hzero. apply length_zero_iff_nil in Hzero.
      rewrite Hzero in Hsum. simpl in Hsum. lia. }
    split; [done|]. split; [unfold density; by rewrite Hedges|].
    split; [done|].
    unfold degrees_of, node_ids. unfold number_of_nodes in Hzero.
    apply length_zero_iff_nil in Hzero. by rewrite Hzero.
Qed.

Lemma get_stats_average_degree_witness :
  (objects scenario_state !! 0%nat = Some scenario_graph ∧ wf_graph scenario_graph) ∧
  ∃ st, get_stats 0%nat scenario_state = (Return st, scenario_state) ∧
    stats_nodes st = number_of_nodes scenario_graph ∧
    stats_edges st = number_of_edges scenario_graph ∧
    ((0 < number_of_nodes scenario_graph)%nat →
       (stats_avg_degree st
        == 2 * inject_Z (Z.of_nat (number_of_edges scenario_graph))
           / inject_Z (Z.of_nat (number_of_nodes scenario_graph)))%Q) ∧
    ((1 < number_of_nodes scenario_graph)%nat →
       (stats_avg_degree st
        == 2 * stats_density st
           * (inject_Z (Z.of_nat (number_of_nodes scenario_graph)) - 1))%Q) ∧
    (number_of_nodes scenario_graph = 0%nat →
       stats_avg_degree st = 0%Q ∧ stats_density st = 0%Q ∧
       stats_edges st = 0%nat ∧ stats_top_nodes st = None).
Proof.
  split; [exact (conj eq_refl scenario_graph_wf)|].
  exact (get_stats_average_degree scenario_state 0%nat scenario_graph eq_refl
           scenario_graph_wf).
Defined.

Lemma insert_by_degree_perm x l : insert_by_degree x l ≡ₚ x :: l.
Proof.
  induction l as [|y l IH]; [done|]. simpl.
  destruct (y.2 <=? x.2)%nat; [done|].
  rewrite IH. apply Permutation_swap.
Qed.

Lemma sorted_by_degree_perm l : sorted_by_degree l ≡ₚ l.
Proof.
  induction l as [|x l IH]; [done|]. unfold sorted_by_degree in *. simpl.
  by rewrite insert_by_degree_perm, IH.
Qed.

Lemma insert_by_degree_sorted x l :
  StronglySorted by_degree l → StronglySorted by_degree (insert_by_degree x l).
Proof.
  induction l as [|y l IH]; intros Hs; simpl.
  - constructor; [constructor|constructor].
  - apply StronglySorted_inv in Hs as [Hs Hy].
    destruct (Nat.leb_spec y.2 x.2) as [Hle|Hlt].
    + constructor; [by constructor|]. constructor; [done|].
      eapply Forall_impl; [exact Hy|]. unfold by_degree. intros z Hz. simpl in *. lia.
    + constructor; [by apply IH|].
      rewrite insert_by_degree_perm. constructor; [|done].
      unfold by_degree. lia.
Qed.

Lemma sorted_by_degree_sorted l : StronglySorted by_degree (sorted_by_degree l).
Proof.
  induction l as [|x l IH]; [constructor|].
  unfold sorted_by_degree in *. simpl. by apply insert_by_degree_sorted.
Qed.

Lemma sorted_app_le (l1 l2 : list (node * nat)) a b :
  StronglySorted by_degree (l1 ++ l2) → a ∈ l1 → b ∈ l2 → by_degree a b.
Proof.
  induction l1 as [|x l1 IH]; intros Hs Ha Hb; [by apply elem_of_nil in Ha|].
  simpl in Hs. apply StronglySorted_inv in Hs as [Hs Hx].
  apply elem_of_cons in Ha as [->|Ha]; [|by apply IH].
  rewrite Forall_forall in Hx. apply Hx. apply elem_of_app. by right.
Qed.

Lemma sorted_lookup_le (l : list (node * nat)) i j a b :
  StronglySorted by_degree l → (i ≤ j)%nat →
  l !! i = Some a → l !! j = Some b → by_degree a b.
Proof.
  intros Hs. revert i j. induction Hs as [|x l Hs IH Hx]; intros i j Hij Ha Hb;
    [by rewrite lookup_nil in Ha|].
  destruct i as [|i].
  - simpl in Ha. injection Ha as ->.
    destruct j as [|j]; [simpl in Hb; injection Hb as ->; unfold by_degree; lia|].
    simpl in Hb. rewrite Forall_forall in Hx. apply Hx.
    by eapply list_elem_of_lookup_2.
  - destruct j as [|j]; [lia|]. simpl in Ha, Hb. apply (IH i j); [lia|done..].
Qed.

Lemma elem_of_take_in {A} (l : list A) k x : x ∈ take k l → x ∈ l.
Proof. intros (i & Hi & _)%elem_of_take. by eapply list_elem_of_lookup_2. Qed.

Lemma sorted_take (l : list (node * nat)) k :
  StronglySorted by_degree l → StronglySorted by_degree (take k l).
Proof.
  intros Hs. revert k. induction Hs as [|x l Hs IH Hx]; intros [|k]; simpl;
    try constructor; [apply IH|].
  rewrite Forall_forall in *. intros y Hy. apply Hx.
  by eapply elem_of_take_in.
Qed.

Lemma domain_or_unknown_spec g n data :
  NoDup (node_ids g) → (n, data) ∈ _node g →
  domain_or_unknown g n = default "unknown" (domain data).
Proof.
  unfold node_ids, domain_or_unknown. intros Hnd Hin.
  induction (_node g) as [|[m d] l IH]; [by apply elem_of_nil in Hin|].
  rewrite fmap_cons in Hnd. apply NoDup_cons in Hnd as [Hm Hnd]. simpl in *.
  destruct (decide (m = n)) as [->|Hne]; simpl.
  - apply elem_of_cons in Hin as [[= ->]|Hin]; [done|].
    exfalso. apply Hm. apply list_elem_of_fmap. by exists (n, data).
  - apply elem_of_cons in Hin as [[= ? ?]|Hin]; [done|].
    specialize (IH Hnd Hin).
    destruct (list_find (λ kv : node * NodeData, kv.1 = n) l) as [[i [k d']]|];
      simpl in *; done.
Qed.

(** X18.  For a graph with nodes, [top_nodes] lists [min(5, nodes)]
    nodes of the graph with their degrees, largest degree first, and no
    node left out has a larger degree than a listed one.  The domain
    shown is the [domain] attribute of the node, and ["unknown"] for a
    node without one. *)
Theorem get_stats_top_nodes (s : state) (G : ref) (g : DiGraph) :
  objects s !! G = Some g → _node g ≠ [] →
  ∃ st top, get_stats G s = (Return st, s) ∧
    stats_top_nodes st = Some top ∧
    length top = (5 `min` number_of_nodes g)%nat ∧
    (∀ n d k, (n, d, k) ∈ top →
       n ∈ node_ids g ∧ k = degree g n ∧ d = domain_or_unknown g n) ∧
    (∀ i j a b, (i ≤ j)%nat → top !! i = Some a → top !! j = Some b →
       (b.2 ≤ a.2)%nat) ∧
    (∀ n, n ∈ node_ids g → n ∉ top.*1.*1 →
       ∀ e, e ∈ top → (degree g n ≤ e.2)%nat) ∧
    (NoDup (node_ids g) → ∀ n data, (n, data) ∈ _node g →
       domain_or_unknown g n = default "unknown" (domain data)).
Proof.
  intros HG Hne.
  destruct (get_stats_run G s g HG) as (st & Hrun & _ & _ & _ & _ & Htop).
  assert (degrees_of g ≠ []) as Hdeg.
  { unfold degrees_of, node_ids. destruct (_node g); [done|]. by rewrite !fmap_cons. }
  destruct (degrees_of g) as [|d0 ds] eqn:Hds; [done|]. rewrite <- Hds in *.
  clear d0 ds Hds.
  eexists st, _. split; [done|]. split; [exact Htop|].
  pose proof (sorted_by_degree_perm (degrees_of g)) as Hperm.
  pose proof (sorted_by_degree_sorted (degrees_of g)) as Hsorted.
  assert (∀ e, e ∈ sorted_by_degree (degrees_of g) ↔
               e.1 ∈ node_ids g ∧ e.2 = degree g e.1) as Hmem.
  { intros [n k]. rewrite Hperm. unfold degrees_of. rewrite list_elem_of_fmap.
    simpl. split.
    - by intros (m & [= -> ->] & Hm).
    - intros [Hn ->]. by exists n. }
  split; [|split; [|split; [|split]]].
  - rewrite length_fmap, length_take, Hperm. unfold degrees_of, number_of_nodes, node_ids.
    by rewrite !length_fmap.
  - intros n d k ([n' k'] & [= -> -> ->] & Hin%elem_of_take_in)%list_elem_of_fmap.
    apply Hmem in Hin as [Hn Hk]. done.
  - intros i j a b Hij Ha Hb.
    rewrite list_lookup_fmap in Ha, Hb.
    destruct (take 5 (sorted_by_degree (degrees_of g)) !! i) as [a'|] eqn:Ha';
      [|done].
    destruct (take 5 (sorted_by_degree (degrees_of g)) !! j) as [b'|] eqn:Hb';
      [|done].
    simpl in Ha, Hb. injection Ha as <-. injection Hb as <-. simpl.
    exact (sorted_lookup_le _ i j a' b' (sorted_take _ 5 Hsorted) Hij Ha' Hb').
  - intros n Hn Hout e ([m k] & -> & Hin)%list_elem_of_fmap. simpl.
    assert ((n, degree g n) ∈ sorted_by_degree (degrees_of g)) as Hnin
      by (by apply Hmem).
    rewrite <- (take_drop 5 (sorted_by_degree (degrees_of g))) in Hnin, Hsorted.
    apply elem_of_app in Hnin as [Hnin|Hnin].
    + exfalso. apply Hout. apply list_elem_of_fmap.
      exists (n, domain_or_unknown g n). split; [done|].
      apply list_elem_of_fmap. exists (n, domain_or_unknown g n, degree g n).
      split; [done|]. apply list_elem_of_fmap. by exists (n, degree g n).
    + exact (sorted_app_le _ _ (m, k) (n, degree g n) Hsorted Hin Hnin).
  - intros Hnd n data Hin. by apply domain_or_unknown_spec.
Qed.

Lemma get_stats_top_nodes_witness :
  (objects scenario_state !! 0%nat = Some scenario_graph ∧ _node scenario_graph ≠ []) ∧
  ∃ st top, get_stats 0%nat scenario_state = (Return st, scenario_state) ∧
    stats_top_nodes st = Some top ∧
    length top = (5 `min` number_of_nodes scenario_graph)%nat ∧
    (∀ n d k, (n, d, k) ∈ top →
       n ∈ node_ids scenario_graph ∧ k = degree scenario_graph n ∧
       d = domain_or_unknown scenario_graph n) ∧
    (∀ i j a b, (i ≤ j)%nat → top !! i = Some a → top !! j = Some b →
       (b.2 ≤ a.2)%nat) ∧
    (∀ n, n ∈ node_ids scenario_graph → n ∉ top.*1.*1 →
       ∀ e, e ∈ top → (degree scenario_graph n ≤ e.2)%nat) ∧
    (NoDup (node_ids scenario_graph) → ∀ n data, (n, data) ∈ _node scenario_graph →
       domain_or_unknown scenario_graph n = default "unknown" (domain data)).
Proof.
  assert (_node scenario_graph ≠ []) as Hne by discriminate.
  split; [exact (conj eq_refl Hne)|].
  exact (get_stats_top_nodes scenario_state 0%nat scenario_graph eq_refl Hne).
Defined.

(* ===================================================================== *)
(** ** renderer.py: CSV fields                                            *)
(* ===================================================================== *)

Lemma lstrip_split l :
  ∃ ws, l = ws ++ lstrip_chars l.
Proof.
  induction l as [|c l [ws IH]]; [by exists []|]. simpl.
  destruct (is_space c); [|by exists []].
  exists (c :: ws). simpl. by rewrite <- IH.
Qed.

Lemma lstrip_head l c rest : lstrip_chars l = c :: rest → is_space c = false.
Proof.
  induction l as [|a l IH]; [done|]. simpl.
  destruct (is_space a) eqn:Ha; [done|]. by intros [= <- _].
Qed.

Lemma lstrip_id l :
  (∀ c rest, l = c :: rest → is_space c = false) → lstrip_chars l = l.
Proof. destruct l as [|a l]; [done|]. intros H. simpl. by rewrite (H a l eq_refl). Qed.

Lemma strip_chars_split l : ∃ ws1 ws2, l = ws1 ++ strip_chars l ++ ws2.
Proof.
  destruct (lstrip_split l) as [ws1 H1].
  destruct (lstrip_split (rev (lstrip_chars l))) as [ws H2].
  exists ws1, (rev ws). unfold strip_chars.
  rewrite <- rev_app_distr, <- H2, rev_involutive. exact H1.
Qed.

Lemma strip_chars_head l c rest : strip_chars l = c :: rest → is_space c = false.
Proof.
  intros Hs. destruct (lstrip_split (rev (lstrip_chars l))) as [ws H2].
  apply (f_equal (@rev ascii)) in H2.
  rewrite rev_involutive, rev_app_distr in H2. fold (strip_chars l) in H2.
  rewrite Hs in H2. simpl in H2. by eapply lstrip_head.
Qed.

Lemma strip_chars_last l c front : strip_chars l = front ++ [c] → is_space c = false.
Proof.
  unfold strip_chars. intros Hs. apply (f_equal (@rev ascii)) in Hs.
  rewrite rev_involutive, rev_app_distr in Hs. simpl in Hs. by eapply lstrip_head.
Qed.

Lemma strip_chars_id l :
  (∀ c rest, l = c :: rest → is_space c = false) →
  (∀ c front, l = front ++ [c] → is_space c = false) →
  strip_chars l = l.
Proof.
  intros Hhead Hlast. unfold strip_chars. rewrite (lstrip_id l Hhead).
  rewrite lstrip_id; [apply rev_involutive|].
  intros c rest Hrev. apply (Hlast c (rev rest)).
  apply (f_equal (@rev ascii)) in Hrev. by rewrite rev_involutive in Hrev.
Qed.

Lemma py_strip_chars l :
  py_strip (string_of_list_ascii l) = string_of_list_ascii (strip_chars l).
Proof. unfold py_strip. by rewrite list_ascii_of_string_of_list_ascii. Qed.

Lemma tidy_app l1 l2 : tidy (l1 ++ l2) = true → tidy l1 = true ∧ tidy l2 = true.
Proof.
  induction l1 as [|c l1 IH]; [done|]. simpl.
  intros [Hc Hrest]%andb_true_iff. destruct (IH Hrest) as [H1 H2].
  split; [|done]. rewrite H1, andb_true_r.
  destruct (is_space c); [|done].
  apply andb_true_iff in Hc as [-> Hnext]. by destruct l1.
Qed.

Lemma tidy_chars l c :
  tidy l = true → c ∈ l → is_quote c = false ∧ (is_space c = true → c = space).
Proof.
  induction l as [|a l IH]; intros Ht Hin; [by apply elem_of_nil in Hin|].
  simpl in Ht. apply andb_true_iff in Ht as [Ha Ht].
  apply elem_of_cons in Hin as [->|Hin]; [|by apply IH].
  destruct (is_space a) eqn:Hsp.
  - apply andb_true_iff in Ha as [Ha%bool_decide_eq_true _]. by subst.
  - split; [by apply negb_true_iff|done].
Qed.

Lemma tidy_no_double_space l l1 l2 :
  tidy l = true → l ≠ l1 ++ space :: space :: l2.
Proof. intros Ht ->. by apply tidy_app in Ht as [_ Ht]. Qed.

Lemma tidy_collapse b l :
  Forall (λ c, is_quote c = false) l →
  tidy (collapse_whitespace b l) = true ∧
  (b = true → ∀ c rest, collapse_whitespace b l = c :: rest → is_space c = false).
Proof.
  intros Hq. revert b. induction Hq as [|a l Ha _ IH]; intros b; [by destruct b|].
  simpl. destruct (is_space a) eqn:Hsp.
  - destruct b.
    + destruct (IH true) as [Ht Hh]. split; [done|]. intros _. by apply Hh.
    + destruct (IH true) as [Ht Hh]. split; [|done]. simpl. rewrite Ht.
      destruct (collapse_whitespace true l) as [|d rest] eqn:Hc; [done|].
      by rewrite (Hh eq_refl d rest eq_refl).
  - destruct (IH false) as [Ht _]. split.
    + simpl. by rewrite Hsp, Ha, Ht.
    + by intros _ c rest [= <- _].
Qed.

Lemma collapse_id b l :
  tidy l = true → (b = true → ∀ c rest, l = c :: rest → is_space c = false) →
  collapse_whitespace b l = l.
Proof.
  revert b. induction l as [|a l IH]; intros b Ht Hh; [done|].
  simpl in *. apply andb_true_iff in Ht as [Ha Ht].
  destruct (is_space a) eqn:Hsp.
  - destruct b; [by rewrite (Hh eq_refl a l eq_refl) in Hsp|].
    apply andb_true_iff in Ha as [->%bool_decide_eq_true Hnext]. f_equal.
    apply IH; [done|]. intros _ c rest ->. by apply negb_true_iff.
  - f_equal. by apply IH.
Qed.

Lemma tidy_plain l :
  (∀ c, c ∈ l → is_space c = false ∧ is_quote c = false) → clean_field l.
Proof.
  intros H. split; [|split].
  - induction l as [|a l IH]; [done|]. simpl.
    destruct (H a) as [-> ->]; [by left|]. simpl.
    apply IH. intros c Hc. apply H. by right.
  - intros c rest ->. apply H. by left.
  - intros c front ->. apply H. apply elem_of_app. right. by left.
Qed.

Lemma strip_chars_clean l : tidy l = true → clean_field (strip_chars l).
Proof.
  intros Ht. split; [|split].
  - destruct (strip_chars_split l) as (ws1 & ws2 & Hl). rewrite Hl in Ht.
    apply tidy_app in Ht as [_ Ht]. by apply tidy_app in Ht as [Ht _].
  - apply strip_chars_head.
  - apply strip_chars_last.
Qed.

(** The characters [sanitize_csv_field] returns for a non-empty value. *)
Lemma sanitize_csv_field_chars (value : string) :
  ∃ l, sanitize_csv_field (Some value) = string_of_list_ascii l ∧ clean_field l.
Proof.
  destruct value as [|a value]; [exists []; split; [done|by apply tidy_plain; intros c Hc; apply elem_of_nil in Hc]|].
  eexists. unfold sanitize_csv_field. split; [apply py_strip_chars|].
  apply strip_chars_clean, tidy_collapse.
  rewrite !Forall_fmap. apply Forall_forall. intros c Hc.
  apply list_elem_of_filter in Hc as [Hsq Hc]. apply list_elem_of_filter in Hc as [Hdq _].
  simpl. unfold is_quote.
  destruct (decide (c = line_feed)) as [->|?]; [by vm_compute|].
  destruct (decide (c = carriage_return)) as [->|?]; [by vm_compute|].
  rewrite !bool_decide_eq_false_2; done.
Qed.

(** A clean value is returned as it is. *)
Lemma sanitize_csv_field_fixed l :
  clean_field l →
  sanitize_csv_field (Some (string_of_list_ascii l)) = string_of_list_ascii l.
Proof.
  intros (Ht & Hhead & Hlast).
  destruct l as [|a l]; [done|].
  change (string_of_list_ascii (a :: l)) with (String a (string_of_list_ascii l)).
  unfold sanitize_csv_field.
  change (String a (string_of_list_ascii l)) with (string_of_list_ascii (a :: l)).
  rewrite !py_strip_chars, list_ascii_of_string_of_list_ascii.
  rewrite (strip_chars_id (a :: l) Hhead Hlast).
  assert (∀ c, c ∈ a :: l → c ≠ double_quote ∧ c ≠ single_quote ∧
                c ≠ line_feed ∧ c ≠ carriage_return) as Hplain.
  { intros c Hc. destruct (tidy_chars _ c Ht Hc) as [Hq Hsp].
    unfold is_quote in Hq. apply orb_false_iff in Hq as [Hdq Hsq].
    apply bool_decide_eq_false in Hdq, Hsq.
    split; [done|]. split; [done|].
    split; intros ->; by specialize (Hsp eq_refl). }
  rewrite (filter_all (λ c, c ≠ double_quote))
    by (apply Forall_forall; intros c Hc; by apply Hplain).
  rewrite (filter_all (λ c, c ≠ single_quote))
    by (apply Forall_forall; intros c Hc; by apply Hplain).
  rewrite <- list_fmap_compose.
  erewrite (list_fmap_ext _ id (a :: l)); [rewrite list_fmap_id|].
  - rewrite (collapse_id false) by done.
    by rewrite (strip_chars_id _ Hhead Hlast).
  - intros i c Hc. apply list_elem_of_lookup_2 in Hc.
    destruct (Hplain c Hc) as (_ & _ & Hlf & Hcr). simpl.
    destruct (decide (c = line_feed)); [done|]. by destruct (decide (c = carriage_return)).
Qed.

(** X19.  A sanitised CSV field contains no quote, no line break and no
    white space other than the space; no two spaces follow each other and
    it neither starts nor ends with a space.  Sanitising is idempotent,
    and a value without quotes and white space is returned as it is. *)
Theorem sanitize_csv_field_clean (value : option string) :
  let out := list_ascii_of_string (sanitize_csv_field value) in
  (∀ c, c ∈ out →
     c ≠ double_quote ∧ c ≠ single_quote ∧ c ≠ line_feed ∧ c ≠ carriage_return ∧
     (is_space c = true → c = space)) ∧
  (∀ l1 l2, out ≠ l1 ++ space :: space :: l2) ∧
  (∀ c rest, out = c :: rest → c ≠ space) ∧
  (∀ c front, out = front ++ [c] → c ≠ space) ∧
  sanitize_csv_field (Some (sanitize_csv_field value)) = sanitize_csv_field value ∧
  (∀ v : string,
     (∀ c, c ∈ list_ascii_of_string v →
           is_space c = false ∧ c ≠ double_quote ∧ c ≠ single_quote) →
     sanitize_csv_field (Some v) = v).
Proof.
  assert (∃ l, sanitize_csv_field value = string_of_list_ascii l ∧ clean_field l)
    as (l & -> & Hclean).
  { destruct value as [value|]; [apply sanitize_csv_field_chars|].
    exists []. split; [done|]. apply tidy_plain. intros c Hc. by apply elem_of_nil in Hc. }
  rewrite list_ascii_of_string_of_list_ascii. cbv zeta.
  pose proof Hclean as (Ht & Hhead & Hlast).
  split; [|split; [|split; [|split; [|split]]]].
  - intros c Hc. destruct (tidy_chars _ c Ht Hc) as [Hq Hsp].
    unfold is_quote in Hq. apply orb_false_iff in Hq as [Hdq Hsq].
    apply bool_decide_eq_false in Hdq, Hsq.
    split; [done|]. split; [done|].
    split; [|split; [|done]]; intros ->; by specialize (Hsp eq_refl).
  - intros l1 l2. by apply tidy_no_double_space.
  - intros c rest Hl ->. by specialize (Hhead _ _ Hl).
  - intros c front Hl ->. by specialize (Hlast _ _ Hl).
  - by apply sanitize_csv_field_fixed.
  - intros v Hv. rewrite <- (string_of_list_ascii_of_string v) at 2.
    rewrite <- (string_of_list_ascii_of_string v) at 1.
    apply sanitize_csv_field_fixed, tidy_plain. intros c Hc.
    destruct (Hv c Hc) as (Hsp & Hdq & Hsq). split; [done|].
    unfold is_quote. by rewrite !bool_decide_eq_false_2.
Qed.

(* ===================================================================== *)
(** ** renderer.py: the shape of a sanitised domain                       *)
(* ===================================================================== *)

Lemma pretty_N_char_digit n : is_digit (pretty_N_char n) = true.
Proof.
  unfold pretty_N_char.
  repeat match goal with
         | |- context [match ?p with _ => _ end] => destruct p
         end; reflexivity.
Qed.

Lemma pretty_N_go_digits x s :
  Forall (λ c, is_digit c = true) (list_ascii_of_string s) →
  Forall (λ c, is_digit c = true) (list_ascii_of_string (pretty_N_go x s)).
Proof.
  revert s. induction (N.lt_wf_0 x) as [x _ IH]. intros s Hs.
  destruct (decide (0 < x)%N) as [Hpos|Hzero].
  - rewrite pretty_N_go_step by done. apply IH.
    + by apply N.div_lt.
    + simpl. constructor; [apply pretty_N_char_digit|done].
  - assert (x = 0%N) as -> by lia. by rewrite pretty_N_go_0.
Qed.

Lemma pretty_digits (k : Z) c :
  0 ≤ k → c ∈ list_ascii_of_string (pretty k) → is_digit c = true.
Proof.
  intros Hk Hc.
  assert (Forall (λ c, is_digit c = true) (list_ascii_of_string (pretty k))) as Hall.
  { destruct k as [|p|p]; [by repeat constructor| |lia].
    change (pretty (Z.pos p)) with (pretty_N_go (N.pos p) "").
    apply pretty_N_go_digits. constructor. }
  rewrite Forall_forall in Hall. by apply Hall.
Qed.

Lemma chars_append s1 s2 :
  list_ascii_of_string (s1 +:+ s2) = list_ascii_of_string s1 ++ list_ascii_of_string s2.
Proof. induction s1 as [|a s1 IH]; [done|]. simpl. by rewrite IH. Qed.

Lemma string_of_chars_app l1 l2 :
  string_of_list_ascii (l1 ++ l2) = string_of_list_ascii l1 +:+ string_of_list_ascii l2.
Proof. induction l1 as [|a l1 IH]; [done|]. simpl. by rewrite IH. Qed.

Lemma domain_char_plain c :
  is_domain_char c = true →
  is_space c = false ∧ c ≠ comma ∧ c ≠ double_quote ∧ c ≠ single_quote ∧
  c ≠ underscore.
Proof.
  destruct c as [[] [] [] [] [] [] [] []]; vm_compute; intros H;
    try discriminate H; repeat split; discriminate.
Qed.

Lemma digit_domain_char c : is_digit c = true → is_domain_char c = true.
Proof.
  destruct c as [[] [] [] [] [] [] [] []]; vm_compute; intros H;
    try discriminate H; reflexivity.
Qed.

Lemma py_strip_id s :
  (∀ c, c ∈ list_ascii_of_string s → is_space c = false) → py_strip s = s.
Proof.
  intros H. rewrite <- (string_of_list_ascii_of_string s) at 1.
  rewrite py_strip_chars, strip_chars_id; [apply string_of_list_ascii_of_string|..].
  - intros c rest Hs. apply H. rewrite Hs. by left.
  - intros c front Hs. apply H. rewrite Hs. apply elem_of_app. right. by left.
Qed.

(** Sanitising a value without white space and commas. *)
Lemma sanitize_domain_name_plain hash d :
  d ≠ "" →
  (∀ c, c ∈ list_ascii_of_string d → is_space c = false ∧ c ≠ comma) →
  sanitize_domain_name hash (Some d)
  = if bool_decide (strip_invalid_chars d = "") ||
       bool_decide (strip_invalid_chars d ∈ ["."; "-"])
    then "invalid_domain_" +:+ pretty (hash d `mod` 10000)
    else strip_invalid_chars d.
Proof.
  intros Hne Hplain. destruct d as [|a d]; [done|].
  unfold sanitize_domain_name. cbv zeta.
  rewrite (py_strip_id (String a d)) by (intros c Hc; by apply Hplain).
  assert (py_contains comma (String a d) = false) as ->; [|done].
  apply bool_decide_eq_false. intros Hin. by destruct (Hplain _ Hin).
Qed.

Lemma sanitize_domain_name_id hash d :
  d ≠ "" → d ≠ "." → d ≠ "-" →
  (∀ c, c ∈ list_ascii_of_string d → is_domain_char c = true) →
  sanitize_domain_name hash (Some d) = d.
Proof.
  intros Hne Hdot Hhyphen Hchars.
  rewrite sanitize_domain_name_plain; [|done|].
  2:{ intros c Hc. destruct (domain_char_plain c (Hchars c Hc)) as (? & ? & _). done. }
  assert (strip_invalid_chars d = d) as ->.
  { unfold strip_invalid_chars. rewrite filter_all; [apply string_of_list_ascii_of_string|].
    by apply Forall_forall. }
  rewrite bool_decide_eq_false_2 by done.
  rewrite bool_decide_eq_false_2; [done|].
  intros [->|[->|[]%elem_of_nil]%elem_of_cons]%elem_of_cons; done.
Qed.

Lemma sanitize_domain_name_placeholder hash k :
  0 ≤ k →
  sanitize_domain_name hash (Some ("invalid_domain_" +:+ pretty k))
  = "invaliddomain" +:+ pretty k.
Proof.
  intros Hk.
  assert (∀ c, c ∈ list_ascii_of_string ("invalid_domain_" +:+ pretty k) →
               c ∈ list_ascii_of_string "invalid_domain_" ∨ is_digit c = true) as Hchars.
  { intros c. rewrite chars_append, elem_of_app. intros [?|Hc]; [by left|].
    right. by eapply pretty_digits. }
  rewrite sanitize_domain_name_plain; [|done|].
  2:{ intros c [Hc|Hc]%Hchars.
      - revert Hc. apply (Forall_forall (λ c, is_space c = false ∧ c ≠ comma)).
        by repeat constructor.
      - destruct (domain_char_plain c (digit_domain_char c Hc)) as (? & ? & _). done. }
  assert (strip_invalid_chars ("invalid_domain_" +:+ pretty k)
          = "invaliddomain" +:+ pretty k) as ->.
  { unfold strip_invalid_chars. rewrite chars_append, filter_app, string_of_chars_app.
    f_equal. rewrite filter_all; [apply string_of_list_ascii_of_string|].
    apply Forall_forall. intros c Hc. apply digit_domain_char. by eapply pretty_digits. }
  rewrite bool_decide_eq_false_2 by done.
  rewrite bool_decide_eq_false_2; [done|].
  intros [?|[?|[]%elem_of_nil]%elem_of_cons]%elem_of_cons; done.
Qed.

Lemma sanitize_domain_name_cases hash domain :
  sanitize_domain_name hash domain = "unknown" ∨
  (∃ k, 0 ≤ k < 10000 ∧
        sanitize_domain_name hash domain = "invalid_domain_" +:+ pretty k) ∨
  (sanitize_domain_name hash domain ≠ "." ∧
   sanitize_domain_name hash domain ≠ "-" ∧
   ∀ c, c ∈ list_ascii_of_string (sanitize_domain_name hash domain) →
        is_domain_char c = true).
Proof.
  destruct domain as [[|a d]|]; [by left| |by left].
  unfold sanitize_domain_name. cbv zeta.
  match goal with
  | |- context [strip_invalid_chars ?x] => generalize x
  end.
  intros s.
  destruct (bool_decide (strip_invalid_chars s = "")) eqn:Hempty; simpl.
  { right; left. eexists. split; [|done]. by apply Z.mod_pos_bound. }
  destruct (bool_decide (strip_invalid_chars s ∈ ["."; "-"])) eqn:Hin.
  { right; left. eexists. split; [|done]. by apply Z.mod_pos_bound. }
  right; right. apply bool_decide_eq_false in Hin.
  split; [|split].
  - intros Heq. apply Hin. rewrite Heq. by left.
  - intros Heq. apply Hin. rewrite Heq. right. by left.
  - intros c. unfold strip_invalid_chars.
    rewrite list_ascii_of_string_of_list_ascii. by intros [? _]%list_elem_of_filter.
Qed.

(** X20.  A sanitised domain is ["unknown"], or ["invalid_domain_"]
    followed by a number from 0 to 9999, or a string over letters,
    digits, dots and hyphens other than ["."] and ["-"].  So a label
    contains only these characters and the underscore: no comma, no
    quote and no white space. *)
Theorem sanitize_domain_name_shape (hash : string → Z) (domain : option string) :
  let out := sanitize_domain_name hash domain in
  (out = "unknown" ∨
   (∃ k, 0 ≤ k < 10000 ∧ out = "invalid_domain_" +:+ pretty k) ∨
   (out ≠ "." ∧ out ≠ "-" ∧
    ∀ c, c ∈ list_ascii_of_string out → is_domain_char c = true)) ∧
  (∀ c, c ∈ list_ascii_of_string out →
     (is_domain_char c = true ∨ c = underscore) ∧
     is_space c = false ∧ c ≠ comma ∧ c ≠ double_quote ∧ c ≠ single_quote).
Proof.
  cbv zeta. split; [apply sanitize_domain_name_cases|].
  assert (∀ c, is_domain_char c = true ∨ c = underscore →
               (is_domain_char c = true ∨ c = underscore) ∧
               is_space c = false ∧ c ≠ comma ∧ c ≠ double_quote ∧ c ≠ single_quote)
    as Hsafe.
  { intros c H. split; [done|]. destruct H as [H| ->].
    - destruct (domain_char_plain c H) as (? & ? & ? & ? & _). done.
    - by vm_compute. }
  intros c Hc. apply Hsafe.
  destruct (sanitize_domain_name_cases hash domain)
    as [Hout|[(k & Hk & Hout)|(_ & _ & Hout)]].
  - rewrite Hout in Hc. revert Hc.
    apply (Forall_forall (λ c, is_domain_char c = true ∨ c = underscore)).
    repeat constructor.
  - rewrite Hout, chars_append in Hc. apply elem_of_app in Hc as [Hc|Hc].
    + revert Hc. apply (Forall_forall (λ c, is_domain_char c = true ∨ c = underscore)).
      repeat (constructor; [by (left + right)|]). constructor.
    + left. apply digit_domain_char. eapply pretty_digits; [|done]. lia.
  - left. by apply Hout.
Qed.

(** X21.  Sanitising a sanitised domain changes nothing, except for a
    placeholder: there the second pass removes the underscores.  A
    non-empty string over letters, digits, dots and hyphens other than
    ["."] and ["-"] is returned as it is. *)
Theorem sanitize_domain_name_twice (hash : string → Z) :
  (∀ d : string,
     d ≠ "" → d ≠ "." → d ≠ "-" →
     (∀ c, c ∈ list_ascii_of_string d → is_domain_char c = true) →
     sanitize_domain_name hash (Some d) = d) ∧
  (∀ domain,
     let out := sanitize_domain_name hash domain in
     sanitize_domain_name hash (Some out) = out ∨
     ∃ k, 0 ≤ k < 10000 ∧ out = "invalid_domain_" +:+ pretty k ∧
          sanitize_domain_name hash (Some out) = "invaliddomain" +:+ pretty k).
Proof.
  split; [apply sanitize_domain_name_id|].
  intros domain. cbv zeta.
  destruct (sanitize_domain_name_cases hash domain)
    as [Hout|[(k & Hk & Hout)|(Hdot & Hhyphen & Hout)]].
  - left. rewrite Hout. apply sanitize_domain_name_id; [done..|].
    apply (Forall_forall (λ c, is_domain_char c = true)). by repeat constructor.
  - right. exists k. split; [done|]. split; [done|]. rewrite Hout.
    apply sanitize_domain_name_placeholder. lia.
  - left. apply sanitize_domain_name_id; [|done..].
    apply sanitize_domain_name_nonempty.
Qed.

(* ===================================================================== *)
(** ** The label of a node without a domain                               *)
(* ===================================================================== *)

Lemma pretty_N_go_nonempty x s : s ≠ "" → pretty_N_go x s ≠ "".
Proof.
  revert s. induction (N.lt_wf_0 x) as [x _ IH]. intros s Hs.
  destruct (decide (0 < x)%N) as [Hpos|Hzero].
  - rewrite pretty_N_go_step by done. apply IH; [by apply N.div_lt|done].
  - assert (x = 0%N) as -> by lia. by rewrite pretty_N_go_0.
Qed.

Lemma pretty_positive_nonempty (p : positive) : pretty (Z.pos p) ≠ "".
Proof.
  change (pretty (Z.pos p)) with (pretty_N_go (N.pos p) "").
  rewrite pretty_N_go_step by lia. by apply pretty_N_go_nonempty.
Qed.

(** The decimal form of an integer is a domain name that sanitisation
    leaves as it is. *)
Lemma pretty_is_domain (z : Z) :
  pretty z ≠ "" ∧ pretty z ≠ "." ∧ pretty z ≠ "-" ∧
  ∀ c, c ∈ list_ascii_of_string (pretty z) → is_domain_char c = true.
Proof.
  assert (∀ c, c ∈ list_ascii_of_string (pretty z) →
               is_digit c = true ∨ c = hyphen) as Hchars.
  { intros c Hc. destruct z as [|p|p].
    - left. by apply (pretty_digits 0).
    - left. by apply (pretty_digits (Z.pos p)).
    - change (pretty (Z.neg p)) with ("-" +:+ pretty (Z.pos p)) in Hc.
      rewrite chars_append in Hc. apply elem_of_app in Hc as [Hc|Hc].
      + right. by apply list_elem_of_singleton in Hc.
      + left. by apply (pretty_digits (Z.pos p)). }
  split; [|split; [|split]].
  - destruct z as [|p|p]; [done|apply pretty_positive_nonempty|done].
  - intros Heq. destruct (Hchars dot) as [H|H];
      [rewrite Heq; by left|by vm_compute in H|by vm_compute in H].
  - destruct z as [|p|p].
    + done.
    + intros Heq. assert (is_digit hyphen = true) as H; [|by vm_compute in H].
      apply (pretty_digits (Z.pos p)); [lia|]. rewrite Heq. by left.
    + change (pretty (Z.neg p)) with ("-" +:+ pretty (Z.pos p)).
      intros [= Heq]. by apply (pretty_positive_nonempty p).
  - intros c [H| ->]%Hchars; [by apply digit_domain_char|by vm_compute].
Qed.

(** The claim that every label for a missing domain is ["unknown"] fails
    for a node without a [domain] attribute: the node 7 that
    [load_graph] creates for the edge row [(2, 7)], which has no node
    row, is labelled ["7"]. *)
Lemma missing_domain_attribute_labelled_by_id :
  ∃ g, load_graph untidy_database empty_state = (Return 0%nat, mkState [g] []) ∧
    (7, no_node_data) ∈ _node g ∧
    domain no_node_data = None ∧
    ∀ hash : string → Z,
      node_label hash 7 no_node_data = "7" ∧
      node_label hash 7 no_node_data ≠ "unknown".
Proof.
  exists (loaded_graph untidy_database). split; [apply load_graph_run|].
  split.
  - replace (_node (loaded_graph untidy_database))
      with [(1, mkNodeData (Some "z.com") (Some "") (Some 4) (Some 0));
            (2, mkNodeData (Some "") (Some "d") (Some 1) (Some 3));
            (7, no_node_data)] by (by vm_compute).
    right. right. left.
  - split; [done|]. intros hash.
    assert (node_label hash 7 no_node_data = "7") as -> by (by vm_compute).
    done.
Qed.

(** C10, amended.  An input that is [None] or the empty string yields the
    constant ["unknown"], which is not of the placeholder form; an input
    that only becomes empty by cleaning (a single space) yields the
    placeholder.  A node whose [domain] attribute is the empty string,
    which is what [load_graph] stores for a NULL domain column, is
    exported with the label ["unknown"].  A node without a [domain]
    attribute, which is what [load_graph] creates for an id that occurs
    in edge rows only, is exported with its decimal id as label, never
    with ["unknown"]. *)
Theorem sanitize_domain_name_missing (hash : string → Z) :
  sanitize_domain_name hash None = "unknown" ∧
  sanitize_domain_name hash (Some "") = "unknown" ∧
  (∀ n : Z, "unknown" ≠ "invalid_domain_" +:+ pretty n) ∧
  sanitize_domain_name hash (Some " ")
  = "invalid_domain_" +:+ pretty (hash " " `mod` 10000) ∧
  (∀ node_id node_data,
     domain node_data = Some "" → node_label hash node_id node_data = "unknown") ∧
  (∀ has_depth row,
     row_domain row = None → domain (node_attributes has_depth row) = Some "") ∧
  (∀ node_id node_data,
     domain node_data = None →
     node_label hash node_id node_data = pretty node_id ∧
     node_label hash node_id node_data ≠ "unknown").
Proof.
  split; [reflexivity|]. split; [reflexivity|].
  split; [intros n; discriminate|]. split; [reflexivity|].
  split; [intros node_id node_data Hdom; unfold node_label; by rewrite Hdom|].
  split; [intros has_depth row Hrow; unfold node_attributes; simpl; by rewrite Hrow|].
  intros node_id node_data Hdom. unfold node_label. rewrite Hdom.
  change (default (pretty node_id) None) with (pretty node_id). cbv zeta.
  destruct (pretty_is_domain node_id) as (Hne & Hdot & Hhyphen & Hchars).
  rewrite sanitize_domain_name_id by done. split; [done|].
  intros Heq. assert (is_digit "u" = true ∨ "u"%char = hyphen) as [H|H];
    [|by vm_compute in H|by vm_compute in H].
  destruct node_id as [|p|p].
  - by vm_compute in Heq.
  - left. apply (pretty_digits (Z.pos p)); [lia|].
    assert ("u"%char ∈ list_ascii_of_string "unknown") as Hu by left.
    rewrite <- Heq in Hu. exact Hu.
  - change (pretty (Z.neg p)) with ("-" +:+ pretty (Z.pos p)) in Heq.
    by injection Heq.
Qed.

(* ===================================================================== *)
(** ** renderer.py: edge widths                                           *)
(* ===================================================================== *)

Lemma edge_key_sym u v : edge_key u v = edge_key v u.
Proof.
  unfold edge_key, String.ltb.
  rewrite (String.compare_antisym (pretty u) (pretty v)).
  destruct (String.compare (pretty v) (pretty u)) eqn:Hc; simpl; [|done..].
  apply String.compare_eq_iff in Hc. by rewrite Hc.
Qed.

Lemma edge_key_eq u v u' v' :
  edge_key u v = edge_key u' v' ↔ (u = u' ∧ v = v') ∨ (u = v' ∧ v = u').
Proof.
  split.
  - unfold edge_key.
    destruct (String.ltb (pretty v) (pretty u)), (String.ltb (pretty v') (pretty u'));
      intros [= H1%(inj pretty) H2%(inj pretty)]; subst; auto.
  - intros [[-> ->]|[-> ->]]; [done|apply edge_key_sym].
Qed.

Lemma count_eq_nodup {A} `{EqDecision A} (x : A) (l : list A) :
  NoDup l → length (filter (λ e, e = x) l) = if decide (x ∈ l) then 1%nat else 0%nat.
Proof.
  induction 1 as [|a l Ha Hnd IH]; [done|].
  rewrite filter_cons. destruct (decide (a = x)) as [->|Hne].
  - simpl. rewrite IH. rewrite decide_False by done.
    rewrite decide_True by (by left). done.
  - rewrite IH. destruct (decide (x ∈ l)) as [Hin|Hnin].
    + rewrite decide_True by (by right). done.
    + rewrite decide_False; [done|]. by intros [?|?]%elem_of_cons.
Qed.

Lemma length_filter_or {A} (P Q : A → Prop)
    `{!∀ x, Decision (P x)} `{!∀ x, Decision (Q x)} (l : list A) :
  (∀ x, P x → Q x → False) →
  length (filter (λ x, P x ∨ Q x) l)
  = (length (filter P l) + length (filter Q l))%nat.
Proof.
  intros Hdis. induction l as [|a l IH]; [done|].
  rewrite !filter_cons.
  destruct (decide (P a)) as [HP|HP], (decide (Q a)) as [HQ|HQ];
    [by destruct (Hdis a)| | |].
  - rewrite decide_True by (by left). simpl. by rewrite IH.
  - rewrite decide_True by (by right). simpl. rewrite IH. lia.
  - rewrite decide_False by tauto. done.
Qed.

Lemma key_count_edge es u v :
  NoDup es → (u, v) ∈ es →
  key_count (edge_key u v) es
  = if decide (u ≠ v ∧ (v, u) ∈ es) then 2%nat else 1%nat.
Proof.
  intros Hnd Hin. unfold key_count.
  rewrite (list_filter_iff _ (λ e : node * node, e = (u, v) ∨ e = (v, u))).
  2:{ intros [a b]. simpl. rewrite edge_key_eq. split.
      - intros [[-> ->]|[-> ->]]; auto.
      - intros [[= -> ->]|[= -> ->]]; auto. }
  destruct (decide (u = v)) as [->|Hne].
  - rewrite (list_filter_iff _ (λ e : node * node, e = (v, v))) by (intros e; tauto).
    rewrite count_eq_nodup by done. rewrite decide_True by done.
    rewrite decide_False; [done|]. by intros [? _].
  - rewrite length_filter_or by (intros e -> [= ? ?]; by subst).
    rewrite !count_eq_nodup by done. rewrite decide_True by done.
    destruct (decide ((v, u) ∈ es)) as [Hr|Hr].
    + by rewrite decide_True.
    + rewrite decide_False; [done|]. by intros [_ ?].
Qed.

Lemma key_count_pos es k :
  key_count k es ≠ 0%nat → ∃ u v, (u, v) ∈ es ∧ k = edge_key u v.
Proof.
  unfold key_count. intros Hc.
  destruct (filter (λ e : node * node, edge_key e.1 e.2 = k) es) as [|[u v] l] eqn:Hf;
    [done|].
  assert ((u, v) ∈ filter (λ e : node * node, edge_key e.1 e.2 = k) es) as Hin
    by (rewrite Hf; by left).
  apply list_elem_of_filter in Hin as [Hk Hin]. by exists u, v.
Qed.

Lemma foldl_count_edge es m k :
  foldl count_edge m es !! k
  = if decide (key_count k es = 0%nat) then m !! k
    else Some (default 0%nat (m !! k) + key_count k es)%nat.
Proof.
  revert m. induction es as [|e es IH]; intros m; [done|].
  simpl. rewrite IH. unfold key_count. rewrite filter_cons. unfold count_edge.
  fold (key_count k es).
  destruct (decide (edge_key e.1 e.2 = k)) as [<-|Hne].
  - rewrite lookup_insert_eq. simpl. fold (key_count (edge_key e.1 e.2) es).
    destruct (decide (key_count (edge_key e.1 e.2) es = 0%nat)) as [Hz|?];
      [rewrite Hz|]; f_equal; lia.
  - rewrite lookup_insert_ne by done. done.
Qed.

Lemma edge_counts_lookup es k :
  foldl count_edge ∅ es !! k
  = if decide (key_count k es = 0%nat) then None else Some (key_count k es).
Proof. rewrite foldl_count_edge, lookup_empty. done. Qed.

(** The counts of [calculate_edge_weights] on a directed graph: 2 for an
    edge with its reverse in the graph, 1 for any other edge; the largest
    count is 2 when some pair of nodes is joined both ways and 1
    otherwise. *)
Lemma edge_counts_spec g u v :
  has_edge g u v →
  let edge_counts := foldl count_edge ∅ (elements (dom (_adj g))) in
  edge_counts ≠ ∅ ∧
  ∃ c m, edge_counts !! edge_key u v = Some c ∧
         m = max_list (snd <$> map_to_list edge_counts) ∧
         ((reciprocal g u v ∧ c = 2%nat ∧ m = 2%nat) ∨
          (¬ reciprocal g u v ∧ c = 1%nat ∧ m = 2%nat ∧ ∃ a b, reciprocal g a b) ∨
          (c = 1%nat ∧ m = 1%nat ∧ ∀ a b, ¬ reciprocal g a b)).
Proof.
  intros Huv. cbv zeta.
  set (es := elements (dom (_adj g))).
  set (edge_counts := foldl count_edge ∅ es).
  assert (NoDup es) as Hnd by apply NoDup_elements.
  assert (∀ a b, (a, b) ∈ es ↔ has_edge g a b) as Hes.
  { intros a b. unfold es, has_edge. by rewrite elem_of_elements, elem_of_dom. }
  assert (∀ a b, (a ≠ b ∧ (b, a) ∈ es) → (a, b) ∈ es → reciprocal g a b) as Hrec.
  { intros a b [Hne Hba] Hab. split; [done|]. split; by apply Hes. }
  assert (∀ a b, (a, b) ∈ es →
            edge_counts !! edge_key a b
            = Some (if decide (a ≠ b ∧ (b, a) ∈ es) then 2%nat else 1%nat)) as Hlookup.
  { intros a b Hab. unfold edge_counts. rewrite edge_counts_lookup.
    rewrite key_count_edge by done. by destruct (decide (a ≠ b ∧ (b, a) ∈ es)). }
  assert (∀ c, c ∈ snd <$> map_to_list edge_counts →
            c = 1%nat ∨ (c = 2%nat ∧ ∃ a b, reciprocal g a b)) as Hvalues.
  { intros c ([k c'] & -> & Hk%elem_of_map_to_list)%list_elem_of_fmap. simpl.
    unfold edge_counts in Hk. rewrite edge_counts_lookup in Hk.
    destruct (decide (key_count k es = 0%nat)) as [|Hpos]; [done|].
    injection Hk as <-.
    destruct (key_count_pos es k Hpos) as (a & b & Hab & ->).
    rewrite key_count_edge by done.
    destruct (decide (a ≠ b ∧ (b, a) ∈ es)) as [Hr|]; [|by left].
    right. split; [done|]. exists a, b. by apply Hrec. }
  assert ((u, v) ∈ es) as Hin by (by apply Hes).
  pose proof (Hlookup u v Hin) as Hc.
  assert (edge_counts ≠ ∅) as Hne.
  { intros Hempty. by rewrite Hempty, lookup_empty in Hc. }
  split; [done|].
  assert (snd <$> map_to_list edge_counts ≠ []) as Hlist.
  { intros Hnil. apply fmap_nil_inv in Hnil. by apply map_to_list_empty_iff in Hnil. }
  pose proof (max_list_elem_of _ Hlist) as Hmax.
  eexists _, _. split; [exact Hc|]. split; [done|].
  assert (∀ a b, reciprocal g a b →
            (2 ≤ max_list (snd <$> map_to_list edge_counts))%nat) as Htwo.
  { intros a b (Hab & Ha & Hb). apply max_list_elem_of_le.
    apply list_elem_of_fmap. exists (edge_key a b, 2%nat). split; [done|].
    apply elem_of_map_to_list. rewrite Hlookup by (by apply Hes).
    rewrite decide_True; [done|]. split; [done|]. by apply Hes. }
  destruct (decide (u ≠ v ∧ (v, u) ∈ es)) as [Hr|Hr].
  - left. pose proof (Hrec u v Hr Hin) as Hruv. split; [done|]. split; [done|].
    specialize (Htwo u v Hruv). destruct (Hvalues _ Hmax) as [?|[? _]]; lia.
  - assert (¬ reciprocal g u v) as Hnr.
    { intros (Hne' & _ & Hvu). apply Hr. split; [done|]. by apply Hes. }
    destruct (Hvalues _ Hmax) as [Hone|[Hm Hex]].
    + right; right. split; [done|]. split; [done|].
      intros a b Hab. specialize (Htwo a b Hab). lia.
    + right; left. done.
Qed.

Lemma edge_weights_lookup g k :
  foldl count_edge ∅ (elements (dom (_adj g))) ≠ ∅ →
  calculate_edge_weights g !! k
  = (λ count : nat,
       py_round
         (min_width +
          inject_Z (Z.of_nat count)
          / inject_Z (Z.of_nat (max_list
                        (snd <$> map_to_list
                           (foldl count_edge ∅ (elements (dom (_adj g)))))))
          * (max_width - min_width))%Q 2)
    <$> foldl count_edge ∅ (elements (dom (_adj g))) !! k.
Proof.
  intros Hne. unfold calculate_edge_weights. cbv zeta.
  destruct (decide (foldl count_edge ∅ (elements (dom (_adj g))) = ∅)); [done|].
  by rewrite lookup_fmap.
Qed.

Lemma calculate_edge_weights_empty g :
  _adj g = ∅ → calculate_edge_weights g = ∅.
Proof.
  intros Hempty. unfold calculate_edge_weights. cbv zeta.
  rewrite Hempty, dom_empty_L, elements_empty. simpl.
  by destruct (decide ((∅ : gmap (string * string) nat) = ∅)).
Qed.

Lemma calculate_edge_weights_keys g k w :
  calculate_edge_weights g !! k = Some w →
  ∃ u v, has_edge g u v ∧ k = edge_key u v.
Proof.
  unfold calculate_edge_weights. cbv zeta.
  destruct (decide (foldl count_edge ∅ (elements (dom (_adj g))) = ∅));
    [by rewrite lookup_empty|].
  rewrite lookup_fmap, edge_counts_lookup.
  destruct (decide (key_count k (elements (dom (_adj g))) = 0%nat)) as [|Hpos];
    [done|]. intros _.
  destruct (key_count_pos _ k Hpos) as (u & v & Hin & ->).
  exists u, v. split; [|done]. unfold has_edge.
  by apply elem_of_elements, elem_of_dom in Hin.
Qed.

(** X22.  A graph without edges gives the empty dictionary, and every
    key of the dictionary is the key of an edge.  In a directed graph at
    most two edges share a key of [calculate_edge_weights], an edge and
    its reverse.  So every edge has an entry, found under the key of
    either direction, and its width is 3.0 or 1.55: 3.0 when the edge has
    its reverse in the graph or no pair of nodes at all is joined both
    ways, 1.55 otherwise. *)
Theorem calculate_edge_weights_values (g : DiGraph) :
  (_adj g = ∅ → calculate_edge_weights g = ∅) ∧
  (∀ k w, calculate_edge_weights g !! k = Some w →
     ∃ u v, has_edge g u v ∧ k = edge_key u v) ∧
  (∀ u v, has_edge g u v →
     ∃ w, calculate_edge_weights g !! edge_key u v = Some w ∧
          calculate_edge_weights g !! edge_key v u = Some w ∧
          (reciprocal g u v → w == 3)%Q ∧
          ((∀ a b, ¬ reciprocal g a b) → w == 3)%Q ∧
          (¬ reciprocal g u v → (∃ a b, reciprocal g a b) → w == 155 # 100)%Q ∧
          (w == 3 ∨ w == 155 # 100)%Q).
Proof.
  split; [apply calculate_edge_weights_empty|].
  split; [apply calculate_edge_weights_keys|].
  intros u v Huv.
  destruct (edge_counts_spec g u v Huv) as (Hne & c & m & Hc & Hm & Hcases).
  rewrite <- (edge_key_sym u v).
  rewrite (edge_weights_lookup g _ Hne), Hc. simpl. rewrite <- Hm.
  eexists. split; [done|]. split; [done|].
  destruct Hcases as [(Hr & -> & ->)|[(Hnr & -> & -> & Hex)|(-> & -> & Hnone)]].
  - split; [by intros _; vm_compute|]. split; [by intros _; vm_compute|].
    split; [by intros ?|]. by left; vm_compute.
  - split; [by intros ?|]. split.
    { intros Hnone. destruct Hex as (a & b & Hab). by destruct (Hnone a b). }
    split; [by intros _ _; vm_compute|]. by right; vm_compute.
  - split; [by intros _; vm_compute|]. split; [by intros _; vm_compute|].
    split; [intros _ (a & b & Hab); by destruct (Hnone a b)|].
    by left; vm_compute.
Qed.

Lemma calculate_edge_weights_values_witness :
  has_edge reciprocal_graph 2 3 ∧
  calculate_edge_weights empty_graph = ∅ ∧
  ∃ w, calculate_edge_weights reciprocal_graph !! edge_key 2 3 = Some w ∧
       calculate_edge_weights reciprocal_graph !! edge_key 3 2 = Some w ∧
       (reciprocal reciprocal_graph 2%Z 3%Z → w == 3)%Q ∧
       ((∀ a b, ¬ reciprocal reciprocal_graph a b) → w == 3)%Q ∧
       (¬ reciprocal reciprocal_graph 2%Z 3%Z →
        (∃ a b, reciprocal reciprocal_graph a b) → w == 155 # 100)%Q ∧
       (w == 3 ∨ w == 155 # 100)%Q.
Proof.
  assert (has_edge reciprocal_graph 2 3) as H
    by (exists (mkEdgeData (Some 5)); reflexivity).
  split; [exact H|]. split.
  - exact (proj1 (calculate_edge_weights_values empty_graph) eq_refl).
  - exact (proj2 (proj2 (calculate_edge_weights_values reciprocal_graph)) 2 3 H).
Defined.

(* ===================================================================== *)
(** ** renderer.py: the rows of edges.csv                                 *)
(* ===================================================================== *)

Lemma edge_width_values g u v :
  has_edge g u v →
  ∃ w, calculate_edge_weights g !! edge_key u v = Some w ∧
       (w == 3 ∨ w == 155 # 100)%Q.
Proof.
  intros Huv.
  destruct (edge_counts_spec g u v Huv) as (Hne & c & m & Hc & Hm & Hcases).
  rewrite (edge_weights_lookup g _ Hne), Hc. simpl. rewrite <- Hm.
  eexists. split; [done|].
  destruct Hcases as [(_ & -> & ->)|[(_ & -> & -> & _)|(-> & -> & _)]];
    [left|right|left]; by vm_compute.
Qed.

Lemma edge_ids_inj :
  Inj (=) (=) (λ k : node * node, (pretty k.1, pretty k.2)).
Proof. intros [a b] [a' b'] [= Ha%(inj pretty) Hb%(inj pretty)]. simpl in *. by subst. Qed.

(** X23.  [export_edges_to_csv] writes one row per edge of the graph and
    no two rows have the same source and target.  The row of an edge
    carries the decimal ids of its ends, its weight (1 when the edge has
    no weight attribute), the strength category of that weight, and a
    width that is 3.0 or 1.55: the fallback width 0.1 is never written.
    The order of the rows is not modelled. *)
Theorem export_edges_to_csv_rows (g : DiGraph) :
  length (export_edges_to_csv g) = number_of_edges g ∧
  NoDup ((λ row, (csv_source row, csv_target row)) <$> export_edges_to_csv g) ∧
  (∀ u v d, _adj g !! (u, v) = Some d →
     ∃ w, (w == 3 ∨ w == 155 # 100)%Q ∧
          mkEdgesCsvRow (pretty u) (pretty v) w
            (categorize_edge_strength (get_weight d)) (get_weight d)
          ∈ export_edges_to_csv g) ∧
  (∀ row, row ∈ export_edges_to_csv g →
     ∃ u v d, _adj g !! (u, v) = Some d ∧
       csv_source row = pretty u ∧ csv_target row = pretty v ∧
       csv_weight row = get_weight d ∧
       csv_strength row = categorize_edge_strength (csv_weight row) ∧
       (csv_width row == 3 ∨ csv_width row == 155 # 100)%Q).
Proof.
  unfold export_edges_to_csv. cbv zeta.
  split; [by rewrite length_fmap, length_map_to_list|].
  split.
  { rewrite <- list_fmap_compose.
    change (NoDup (((λ k : node * node, (pretty k.1, pretty k.2)) ∘ fst)
                     <$> map_to_list (_adj g))).
    rewrite list_fmap_compose. apply (NoDup_fmap_2 _ (Inj0 := edge_ids_inj)).
    apply NoDup_fst_map_to_list. }
  split.
  - intros u v d Hd.
    destruct (edge_width_values g u v) as (w & Hw & Hvalues); [by exists d|].
    exists w. split; [done|]. apply list_elem_of_fmap. exists ((u, v), d).
    split; [|by apply elem_of_map_to_list]. simpl. by rewrite Hw.
  - intros row ([[u v] d] & -> & Hd%elem_of_map_to_list)%list_elem_of_fmap.
    exists u, v, d. simpl.
    destruct (edge_width_values g u v) as (w & Hw & Hvalues); [by exists d|].
    rewrite Hw. simpl. done.
Qed.

Lemma loaded_graph_adj db :
  _adj (loaded_graph db)
  = foldl (λ m row, <[row_pair row := mkEdgeData (Some (or_1 (row_weight row)))]> m)
      ∅ (edge_rows db).
Proof.
  unfold loaded_graph. rewrite edge_rows_adj. unfold loaded_nodes.
  by rewrite loaded_nodes_adj.
Qed.

(** X24.  From the database to edges.csv: the rows [export_edges_to_csv]
    writes for the loaded graph are the edge rows of the database, one
    per ordered pair of ids.  Each carries the weight of a database row
    for its pair, with 1 in place of NULL and 0, so the weight column is
    never 0; and every database row has its pair in the file. *)
Theorem load_then_export_edges (db : database) (s : state) :
  ∃ g, load_graph db s
       = (Return (length (objects s)), mkState (objects s ++ [g]) (stdout s)) ∧
    (∀ row, row ∈ export_edges_to_csv g →
       ∃ r, r ∈ edge_rows db ∧
         csv_source row = pretty (row_from r) ∧
         csv_target row = pretty (row_to r) ∧
         csv_weight row = or_1 (row_weight r) ∧
         csv_weight row ≠ 0) ∧
    (∀ r, r ∈ edge_rows db →
       ∃ row, row ∈ export_edges_to_csv g ∧
         csv_source row = pretty (row_from r) ∧
         csv_target row = pretty (row_to r)) ∧
    (NoDup (row_pair <$> edge_rows db) →
       length (export_edges_to_csv g) = length (edge_rows db)).
Proof.
  exists (loaded_graph db). split; [apply load_graph_run|].
  unfold export_edges_to_csv. cbv zeta.
  split; [|split].
  - intros row ([[u v] d] & -> & Hd%elem_of_map_to_list)%list_elem_of_fmap.
    rewrite loaded_graph_adj in Hd.
    apply foldl_insert_lookup in Hd as [Hd|(r & Hr & Hk & ->)];
      [by rewrite lookup_empty in Hd|].
    injection Hk as <- <-. exists r. simpl.
    split; [done|]. split; [done|]. split; [done|].
    split; [done|apply or_1_nonzero].
  - intros r Hr.
    assert (is_Some (_adj (loaded_graph db) !! row_pair r)) as [d Hd].
    { rewrite loaded_graph_adj. apply foldl_insert_is_Some. right. by exists r. }
    eexists. split.
    + apply list_elem_of_fmap. exists (row_pair r, d).
      split; [done|]. by apply elem_of_map_to_list.
    + done.
  - intros Hnd. rewrite length_fmap, length_map_to_list, loaded_graph_adj.
    rewrite foldl_insert_size; [by rewrite map_size_empty; lia|done|].
    intros r _. apply lookup_empty.
Qed.

(* ===================================================================== *)
(** ** renderer.py: the rows of nodes.csv                                 *)
(* ===================================================================== *)

Lemma round_half_even_bounds q :
  Qfloor q ≤ round_half_even q ≤ Qfloor q + 1.
Proof.
  unfold round_half_even.
  destruct (q - inject_Z (Qfloor q) ?= 1 # 2)%Q; [|lia..].
  destruct (Z.even (Qfloor q)); lia.
Qed.

Lemma round_half_even_mono q1 q2 :
  (q1 <= q2)%Q → round_half_even q1 ≤ round_half_even q2.
Proof.
  intros Hle. pose proof (Qfloor_resp_le _ _ Hle) as Hfloor.
  destruct (decide (Qfloor q1 = Qfloor q2)) as [Heq|Hne].
  - unfold round_half_even. rewrite Heq.
    destruct (Qcompare_spec (q1 - inject_Z (Qfloor q2)) (1 # 2)) as [H1|H1|H1];
      destruct (Qcompare_spec (q2 - inject_Z (Qfloor q2)) (1 # 2)) as [H2|H2|H2];
      try (destruct (Z.even (Qfloor q2))); try lia; exfalso; lra.
  - pose proof (round_half_even_bounds q1). pose proof (round_half_even_bounds q2).
    lia.
Qed.

Lemma py_round_mono q1 q2 ndigits :
  (q1 <= q2)%Q → (py_round q1 ndigits <= py_round q2 ndigits)%Q.
Proof.
  intros Hle. unfold py_round.
  assert (0 < 10 ^ Z.of_nat ndigits) as Hpos by (apply Z.pow_pos_nonneg; lia).
  assert (0 < inject_Z (10 ^ Z.of_nat ndigits))%Q as HposQ
    by (change 0%Q with (inject_Z 0); by rewrite <- Zlt_Qlt).
  unfold Qdiv. apply Qmult_le_compat_r.
  - rewrite <- Zle_Qle. apply round_half_even_mono.
    apply Qmult_le_compat_r; [done|]. by apply Qlt_le_weak.
  - apply Qlt_le_weak. by apply Qinv_lt_0_compat.
Qed.

Lemma pretty_plain (z : Z) c :
  c ∈ list_ascii_of_string (pretty z) → is_space c = false ∧ is_quote c = false.
Proof.
  assert (∀ c, is_digit c = true → is_space c = false ∧ is_quote c = false) as Hdigit.
  { intros [[] [] [] [] [] [] [] []]; vm_compute; intros H; try discriminate H; done. }
  intros Hc. destruct z as [|p|p].
  - apply Hdigit. by apply (pretty_digits 0).
  - apply Hdigit. by apply (pretty_digits (Z.pos p)).
  - change (pretty (Z.neg p)) with ("-" +:+ pretty (Z.pos p)) in Hc.
    rewrite chars_append in Hc. apply elem_of_app in Hc as [Hc|Hc].
    + apply list_elem_of_singleton in Hc as ->. by vm_compute.
    + apply Hdigit. by apply (pretty_digits (Z.pos p)).
Qed.

Lemma cluster_unchanged (depth : Z) :
  sanitize_csv_field (Some ("depth_" +:+ pretty depth)) = "depth_" +:+ pretty depth.
Proof.
  rewrite <- (string_of_list_ascii_of_string ("depth_" +:+ pretty depth)).
  apply sanitize_csv_field_fixed, tidy_plain. intros c.
  rewrite chars_append. intros [Hc|Hc]%elem_of_app; [|by eapply pretty_plain].
  revert Hc. apply (Forall_forall (λ c, is_space c = false ∧ is_quote c = false)).
  by repeat constructor.
Qed.

Lemma default_size_range (log2 : Z → Q) (degree : Z) :
  (∀ n, 1 ≤ n → (0 <= log2 n)%Q) →
  (1 <= calculate_node_size log2 degree None None None)%Q ∧
  (calculate_node_size log2 degree None None None <= 5)%Q.
Proof.
  intros Hlog. unfold calculate_node_size. simpl.
  destruct (Z.leb_spec degree 1) as [|Hdeg]; [split; lra|].
  split; [|apply Q.le_min_r].
  apply Q.min_glb; [|lra].
  apply (size_at_least_base 1 (3 # 10) (log2 degree)); [lra..|]. apply Hlog. lia.
Qed.

Lemma default_color_hex (log2 : Z → Q) (degree : nat) :
  (∀ n, 1 ≤ n → (0 <= log2 n)%Q) →
  ∃ c, calculate_node_color log2 (Z.of_nat degree) = Return c ∧ is_hex_color c = true.
Proof.
  intros Hlog.
  destruct (normalized_degree_range log2 (Z.of_nat degree))
    as (n & Hn & _ & H0 & H1); [lia|apply Hlog; lia|].
  unfold calculate_node_color. rewrite Hn. eexists. split; [done|].
  destruct (gradient_channels n H0 H1) as (r & gr & -> & Hr & Hg).
  apply format_color_hex; lia.
Qed.

Lemma export_node_never_fails (log2 : Z → Q) hash g positions n data e :
  export_node log2 hash g positions n data ≠ Failed e.
Proof.
  unfold export_node. cbv zeta.
  destruct (positions_get positions n) as [[x y]|]; [|done].
  unfold calculate_node_color, normalized_degree.
  rewrite (proj2 (Z.leb_gt _ _)) by lia. done.
Qed.

Lemma export_node_missing (log2 : Z → Q) hash g positions n data :
  positions_get positions n = None →
  export_node log2 hash g positions n data = KeyError n.
Proof. intros H. unfold export_node. cbv zeta. by rewrite H. Qed.

Lemma export_node_written (log2 : Z → Q) hash g positions n data :
  (∀ n, 1 ≤ n → (0 <= log2 n)%Q) →
  is_Some (positions_get positions n) →
  ∃ row changed,
    export_node log2 hash g positions n data = Written (row, changed) ∧
    csv_id row = pretty n ∧ csv_label row ≠ "" ∧
    (1 <= csv_size row)%Q ∧ (csv_size row <= 5)%Q ∧
    is_hex_color (csv_color row) = true ∧
    csv_cluster row = "depth_" +:+ pretty (csv_depth row).
Proof.
  intros Hlog [[x y] Hpos]. unfold export_node. cbv zeta. rewrite Hpos.
  destruct (default_color_hex log2 (degree g n) Hlog) as (c & -> & Hc).
  eexists _, _. split; [done|].
  cbn [csv_id csv_label csv_size csv_color csv_cluster csv_depth].
  split; [done|]. split; [apply sanitize_domain_name_nonempty|].
  destruct (default_size_range log2 (Z.of_nat (degree g n)) Hlog) as [Hlo Hhi].
  split; [|split; [|split; [done|apply cluster_unchanged]]].
  - assert (1 == py_round 1 3)%Q as -> by (by vm_compute). by apply py_round_mono.
  - assert (5 == py_round 5 3)%Q as -> by (by vm_compute). by apply py_round_mono.
Qed.

Lemma export_nodes_loop_never_fails (log2 : Z → Q) hash g positions nodes e :
  export_nodes_loop log2 hash g positions nodes ≠ Failed e.
Proof.
  induction nodes as [|[n data] nodes IH]; [done|]. simpl.
  pose proof (export_node_never_fails log2 hash g positions n data) as Hnode.
  destruct (export_node log2 hash g positions n data) as [[row changed]|k|e'];
    [|done|by destruct (Hnode e')].
  destruct (export_nodes_loop log2 hash g positions nodes) as [[rows count]|k|e'];
    [done|done|]. intros [= ->]. by apply IH.
Qed.

Lemma export_nodes_loop_missing (log2 : Z → Q) hash g positions nodes1 n data nodes2 :
  (∀ m, m ∈ nodes1.*1 → is_Some (positions_get positions m)) →
  positions_get positions n = None →
  export_nodes_loop log2 hash g positions (nodes1 ++ (n, data) :: nodes2) = KeyError n.
Proof.
  intros Hbefore Hmissing.
  induction nodes1 as [|[m d] nodes1 IH]; simpl.
  - by rewrite export_node_missing.
  - rewrite IH by (intros m' Hm'; apply Hbefore; by right).
    pose proof (export_node_never_fails log2 hash g positions m d) as Hnode.
    destruct (export_node log2 hash g positions m d) as [[row changed]|k|e] eqn:Hm;
      [done| |by destruct (Hnode e)].
    destruct (Hbefore m) as [[x y] Hpos]; [by left|].
    unfold export_node in Hm. cbv zeta in Hm. rewrite Hpos in Hm.
    by destruct (calculate_node_color log2 (Z.of_nat (degree g m))).
Qed.

Lemma export_nodes_loop_written (log2 : Z → Q) hash g positions nodes :
  (∀ n, 1 ≤ n → (0 <= log2 n)%Q) →
  (∀ n, n ∈ nodes.*1 → is_Some (positions_get positions n)) →
  ∃ rows count,
    export_nodes_loop log2 hash g positions nodes = Written (rows, count) ∧
    csv_id <$> rows = pretty <$> nodes.*1 ∧
    (count ≤ length rows)%nat ∧
    ∀ row, row ∈ rows →
      csv_label row ≠ "" ∧
      (1 <= csv_size row)%Q ∧ (csv_size row <= 5)%Q ∧
      is_hex_color (csv_color row) = true ∧
      csv_cluster row = "depth_" +:+ pretty (csv_depth row).
Proof.
  intros Hlog. induction nodes as [|[n data] nodes IH]; intros Hpos.
  - exists [], 0%nat. split; [done|]. split; [done|]. split; [done|].
    intros row Hrow. by apply elem_of_nil in Hrow.
  - destruct IH as (rows & count & Hrun & Hids & Hcount & Hrows).
    { intros m Hm. apply Hpos. by right. }
    destruct (export_node_written log2 hash g positions n data Hlog)
      as (row & changed & Hnode & Hid & Hrow); [apply Hpos; by left|].
    simpl. rewrite Hnode, Hrun. eexists _, _. split; [done|].
    split; [by rewrite !fmap_cons, Hid, Hids|].
    split; [simpl; destruct changed; lia|].
    intros row' [->|Hin]%elem_of_cons; [done|by apply Hrows].
Qed.

(** X25.  When every node has a position and [math.log2] is not negative
    from 1 on, [export_nodes_to_csv] writes one row per node, in node
    order, with the decimal node id.  In every row the label is not
    empty, the size lies between 1 and 5, the colour is ["#"] and six
    hexadecimal digits and the cluster is ["depth_"] followed by the
    depth.  The count of sanitised labels is at most the number of
    rows. *)
Theorem export_nodes_to_csv_rows (log2 : Z → Q) (hash : string → Z)
    (g : DiGraph) (positions : list (node * position)) :
  (∀ n, 1 ≤ n → (0 <= log2 n)%Q) →
  (∀ n, n ∈ node_ids g → is_Some (positions_get positions n)) →
  ∃ rows count,
    export_nodes_to_csv log2 hash g positions = Written (rows, count) ∧
    csv_id <$> rows = pretty <$> node_ids g ∧
    length rows = number_of_nodes g ∧
    (count ≤ length rows)%nat ∧
    ∀ row, row ∈ rows →
      csv_label row ≠ "" ∧
      (1 <= csv_size row)%Q ∧ (csv_size row <= 5)%Q ∧
      is_hex_color (csv_color row) = true ∧
      csv_cluster row = "depth_" +:+ pretty (csv_depth row).
Proof.
  intros Hlog Hpos.
  destruct (export_nodes_loop_written log2 hash g positions (_node g) Hlog Hpos)
    as (rows & count & Hrun & Hids & Hcount & Hrows).
  exists rows, count. split; [done|]. split; [done|].
  split; [|done].
  apply (f_equal length) in Hids. unfold node_ids in Hids.
  rewrite !length_fmap in Hids. done.
Qed.

Lemma export_nodes_to_csv_rows_witness :
  ((∀ n, 1 ≤ n → (0 <= log2_floor n)%Q) ∧
   (∀ n, n ∈ node_ids scenario_graph →
         is_Some (positions_get scenario_positions n))) ∧
  ∃ rows count,
    export_nodes_to_csv log2_floor (λ _, 0) scenario_graph scenario_positions
    = Written (rows, count) ∧
    csv_id <$> rows = pretty <$> node_ids scenario_graph ∧
    length rows = number_of_nodes scenario_graph ∧
    (count ≤ length rows)%nat ∧
    ∀ row, row ∈ rows →
      csv_label row ≠ "" ∧
      (1 <= csv_size row)%Q ∧ (csv_size row <= 5)%Q ∧
      is_hex_color (csv_color row) = true ∧
      csv_cluster row = "depth_" +:+ pretty (csv_depth row).
Proof.
  assert (∀ n, 1 ≤ n → (0 <= log2_floor n)%Q) as Hlog
    by (intros n _; apply log2_floor_nonneg).
  assert (∀ n, n ∈ node_ids scenario_graph →
               is_Some (positions_get scenario_positions n)) as Hpos.
  { intros n Hn. change (node_ids scenario_graph) with [1; 2; 3] in Hn.
    apply elem_of_cons in Hn as [->|Hn]; [by eexists|].
    apply elem_of_cons in Hn as [->|Hn]; [by eexists|].
    apply list_elem_of_singleton in Hn as ->. by eexists. }
  split; [exact (conj Hlog Hpos)|].
  exact (export_nodes_to_csv_rows log2_floor (λ _, 0) scenario_graph
           scenario_positions Hlog Hpos).
Defined.

Lemma export_nodes_loop_written_iff (log2 : Z → Q) hash g positions nodes :
  (∃ rows, export_nodes_loop log2 hash g positions nodes = Written rows) ↔
  ∀ n, n ∈ nodes.*1 → is_Some (positions_get positions n).
Proof.
  induction nodes as [|[n data] nodes IH].
  - split; [intros _ n Hn; by apply elem_of_nil in Hn|]. intros _. by eexists.
  - simpl. pose proof (export_node_never_fails log2 hash g positions n data) as Hnode.
    destruct (positions_get positions n) as [xy|] eqn:Hpos.
    + destruct (export_node log2 hash g positions n data) as [[row changed]|k|e] eqn:Hn;
        [| |by destruct (Hnode e)].
      2:{ exfalso. unfold export_node in Hn. cbv zeta in Hn. rewrite Hpos in Hn.
          destruct xy. by destruct (calculate_node_color log2 (Z.of_nat (degree g n))). }
      destruct (export_nodes_loop log2 hash g positions nodes)
        as [[rows count]|k|e] eqn:Hrest.
      * split; [|by eexists]. intros _ m [->|Hm]%elem_of_cons; [by eexists|].
        apply IH; [by eexists|done].
      * split; [by intros [? [=]]|]. intros Hall.
        destruct (proj2 IH) as [rows [=]]. intros m Hm. apply Hall. by right.
      * split; [by intros [? [=]]|]. intros Hall.
        destruct (proj2 IH) as [rows [=]]. intros m Hm. apply Hall. by right.
    + rewrite export_node_missing by done.
      split; [by intros [? [=]]|]. intros Hall.
      destruct (Hall n) as [xy Hxy]; [by left|]. congruence.
Qed.

(** X26.  [export_nodes_to_csv] ends in one of two ways: it writes the
    rows, exactly when every node has a position, or [positions[node_id]]
    raises [KeyError] for the first node, in node order, that has none.
    The colour computation never raises, because a degree is never
    negative. *)
Theorem export_nodes_to_csv_key_error (log2 : Z → Q) (hash : string → Z)
    (g : DiGraph) (positions : list (node * position)) :
  (∀ e, export_nodes_to_csv log2 hash g positions ≠ Failed e) ∧
  (∀ nodes1 n data nodes2,
     _node g = nodes1 ++ (n, data) :: nodes2 →
     (∀ m, m ∈ nodes1.*1 → is_Some (positions_get positions m)) →
     positions_get positions n = None →
     export_nodes_to_csv log2 hash g positions = KeyError n) ∧
  ((∃ rows, export_nodes_to_csv log2 hash g positions = Written rows) ↔
   ∀ n, n ∈ node_ids g → is_Some (positions_get positions n)).
Proof.
  unfold export_nodes_to_csv.
  split; [intros e; apply export_nodes_loop_never_fails|].
  split.
  { intros nodes1 n data nodes2 -> Hbefore Hmissing.
    by apply export_nodes_loop_missing. }
  apply export_nodes_loop_written_iff.
Qed.

(* ===================================================================== *)
(** ** renderer.py: normalisation keeps the nodes                         *)
(* ===================================================================== *)

Lemma normalize_loop_keys items min_x range_x min_y range_y scale jitter random k :
  (normalize_loop items min_x range_x min_y range_y scale jitter random k).1.*1
  = items.*1 ∧
  (normalize_loop items min_x range_x min_y range_y scale jitter random k).2
  = (if Qle_bool jitter 0 then k else k + 2 * length items)%nat.
Proof.
  revert k. induction items as [|[n [x y]] items IH]; intros k.
  - simpl. destruct (Qle_bool jitter 0); [done|]. split; [done|lia].
  - simpl. destruct (Qle_bool jitter 0) eqn:Hj; simpl.
    + destruct (IH k) as [Hkeys Hk].
      destruct (normalize_loop items min_x range_x min_y range_y scale jitter random k)
        as [normalized k'].
      cbn [fst snd] in *. rewrite fmap_cons. cbn [fst]. by rewrite Hkeys.
    + destruct (IH (S (S k))) as [Hkeys Hk].
      destruct (normalize_loop items min_x range_x min_y range_y scale jitter random
                  (S (S k))) as [normalized k'].
      cbn [fst snd] in *. rewrite fmap_cons. cbn [fst]. rewrite Hkeys.
      split; [done|]. rewrite Hk. simpl. lia.
Qed.

Lemma positions_get_is_Some positions n :
  is_Some (positions_get positions n) ↔ n ∈ positions.*1.
Proof.
  induction positions as [|[m xy] positions IH].
  - split; [by intros [? [=]]|by intros ?%elem_of_nil].
  - simpl. destruct (decide (m = n)) as [->|Hne].
    + split; [intros _; by left|by eexists].
    + rewrite IH. split; [by right|]. by intros [?|?]%elem_of_cons.
Qed.

Lemma normalize_positions_keys_run pos scale jitter random k :
  (normalize_positions pos scale jitter random k).1.*1 = pos.*1 ∧
  (normalize_positions pos scale jitter random k).2
  = (if Qle_bool (default 0%Q jitter) 0 then k else k + 2 * length pos)%nat.
Proof.
  unfold normalize_positions. cbv zeta.
  destruct pos as [|[n0 [x0 y0]] rest].
  - simpl. destruct (Qle_bool (default 0%Q jitter) 0); [done|]. split; [done|lia].
  - apply normalize_loop_keys.
Qed.

(** X27.  Position normalisation returns a position for the same nodes,
    in the same order, whatever the scale and the jitter are.  It draws
    two random numbers per node when the jitter is positive and none
    otherwise.  So when the layout has a position for every node, the
    export of the nodes with the normalised positions of
    [render_cosmograph_csv] writes its rows and raises no [KeyError]. *)
Theorem normalize_positions_keys (pos : list (node * position))
    (scale jitter : option Q) (random : nat → Q) (k : nat) :
  (normalize_positions pos scale jitter random k).1.*1 = pos.*1 ∧
  (normalize_positions pos scale jitter random k).2
  = (if Qle_bool (default 0%Q jitter) 0 then k else k + 2 * length pos)%nat ∧
  (∀ n, is_Some (positions_get (normalize_positions pos scale jitter random k).1 n)
        ↔ is_Some (positions_get pos n)) ∧
  (∀ (log2 : Z → Q) (hash : string → Z) (g : DiGraph),
     (∀ n, n ∈ node_ids g → is_Some (positions_get pos n)) →
     ∃ rows,
       export_nodes_to_csv log2 hash g
         (render_cosmograph_csv_positions pos scale jitter random k).1
       = Written rows).
Proof.
  destruct (normalize_positions_keys_run pos scale jitter random k) as [Hkeys Hk].
  split; [done|]. split; [done|]. split.
  - intros n. by rewrite !positions_get_is_Some, Hkeys.
  - intros log2 hash g Hpos. unfold export_nodes_to_csv.
    apply export_nodes_loop_written_iff. intros n Hn.
    unfold render_cosmograph_csv_positions. cbv zeta.
    apply positions_get_is_Some.
    rewrite (proj1 (normalize_positions_keys_run pos _ _ random k)).
    apply positions_get_is_Some. by apply Hpos.
Qed.

(* ===================================================================== *)
(** ** loader.py: extracting twice                                        *)
(* ===================================================================== *)

Lemma within_mono g k1 k2 r m :
  (k1 ≤ k2)%nat → within g k1 r m → within g k2 r m.
Proof.
  intros Hle Hw. apply elem_of_hop_set. apply (hop_set_mono g r k1 k2 Hle).
  by apply elem_of_hop_set.
Qed.

Lemma within_subgraph g r K k m :
  (k ≤ K)%nat → within g k r m → within (subgraph g (hop_set g r K)) k r m.
Proof.
  intros Hk Hw. induction Hw as [k r|k r n m Hw IH Hadj]; [constructor|].
  econstructor; [apply IH; lia|].
  assert (n ∈ hop_set g r K) as Hn
    by (apply elem_of_hop_set; apply (within_mono g k K); [lia|done]).
  assert (m ∈ hop_set g r K) as Hm.
  { apply elem_of_hop_set. apply (within_mono g (S k) K); [lia|].
    by econstructor. }
  destruct Hadj as [[e He]|[e He]]; [left|right]; exists e;
    apply subgraph_edge; done.
Qed.

Lemma within_subgraph_inv g nodes k r m :
  within (subgraph g nodes) k r m → within g k r m.
Proof.
  induction 1 as [k r|k r n m Hw IH Hadj]; [constructor|].
  econstructor; [exact IH|].
  destruct Hadj as [[e He]|[e He]]; apply subgraph_edge in He as [He _];
    [left|right]; by exists e.
Qed.

Lemma hop_set_subgraph g r K :
  hop_set (subgraph g (hop_set g r K)) r K = hop_set g r K.
Proof.
  apply set_eq. intros m. rewrite !elem_of_hop_set. split.
  - apply within_subgraph_inv.
  - by apply within_subgraph.
Qed.

Lemma subgraph_idemp g nodes : subgraph (subgraph g nodes) nodes = subgraph g nodes.
Proof.
  apply digraph_eq.
  - unfold subgraph. simpl. rewrite list_filter_filter.
    apply list_filter_iff. intros kv. tauto.
  - apply map_eq. intros [u v]. apply option_eq. intros e.
    rewrite !subgraph_edge. tauto.
Qed.

Lemma find_root_subgraph g nodes d r :
  find_root (_node g) d = Some r → r ∈ nodes →
  find_root (_node (subgraph g nodes)) d = Some r.
Proof.
  unfold subgraph. simpl. intros Hfind Hr.
  induction (_node g) as [|[n data] l IH]; [done|].
  simpl in Hfind. rewrite filter_cons. simpl.
  destruct (decide (domain data = Some d)) as [Hd|Hd].
  - injection Hfind as ->. rewrite decide_True by done. simpl.
    by rewrite decide_True.
  - destruct (decide (n ∈ nodes)); [|by apply IH].
    simpl. rewrite decide_False by done. by apply IH.
Qed.

Lemma hop_round_adj g g' (nodes : gset node) :
  _adj g = _adj g' → hop_round g nodes = hop_round g' nodes.
Proof.
  intros Hadj. unfold hop_round. f_equal.
  generalize (∅ : gset node). induction (elements nodes) as [|n l IH]; [done|].
  intros acc. simpl. rewrite <- IH. f_equal.
  unfold add_neighbours, successors, predecessors. by rewrite Hadj.
Qed.

Lemma hop_set_adj g g' r k : _adj g = _adj g' → hop_set g r k = hop_set g' r k.
Proof.
  intros Hadj. induction k as [|k IH]; [done|]. simpl.
  rewrite IH. by apply hop_round_adj.
Qed.

Lemma find_root_unique l d r :
  (∃ data, (r, data) ∈ l ∧ domain data = Some d) →
  (∀ n data, (n, data) ∈ l → domain data = Some d → n = r) →
  find_root l d = Some r.
Proof.
  intros (data & Hin & Hd) Huniq.
  induction l as [|[n data'] l IH]; [by apply elem_of_nil in Hin|].
  simpl. destruct (decide (domain data' = Some d)) as [Hd'|Hd'].
  - f_equal. apply (Huniq n data'); [by left|done].
  - apply IH.
    + apply elem_of_cons in Hin as [[= -> ->]|Hin]; [done|done].
    + intros m dm Hm. apply Huniq. by right.
Qed.

(** X28.  When one node only carries the root domain, subgraph
    extraction is idempotent: extracting again from the result, with the
    same root domain and depth, returns a graph with the same nodes,
    attributes and edges.  This holds in whatever order the first result
    lists its nodes, which networkx does not fix.  (With the root domain
    on two nodes the second extraction can start from the other one.) *)
Theorem extract_subgraph_idempotent (s : state) (G : ref) (g : DiGraph)
    (root_domain : string) (r : node) (depth : Z) :
  objects s !! G = Some g → find_root (_node g) root_domain = Some r →
  (∀ n data, (n, data) ∈ _node g → domain data = Some root_domain → n = r) →
  ∃ G1 s1 g1,
    extract_subgraph G root_domain depth s = (Return G1, s1) ∧
    objects s1 !! G1 = Some g1 ∧
    ∀ (s' : state) (G' : ref) (g' : DiGraph),
      objects s' !! G' = Some g' →
      _node g' ≡ₚ _node g1 → _adj g' = _adj g1 →
      ∃ G2 s2 g2,
        extract_subgraph G' root_domain depth s' = (Return G2, s2) ∧
        objects s2 !! G2 = Some g2 ∧
        _node g2 ≡ₚ _node g1 ∧ _adj g2 = _adj g1.
Proof.
  intros HG Hroot Huniq.
  set (nodes := hop_set g r (Z.to_nat depth)).
  set (g1 := subgraph g nodes).
  eexists (length (objects s)), _, g1.
  split; [by eapply extract_subgraph_run_found|].
  split; [apply lookup_last_object|].
  intros s' G' g' HG' Hperm Hadj.
  assert (find_root (_node g') root_domain = Some r) as Hroot'.
  { apply find_root_unique.
    - apply find_root_Some in Hroot as (l1 & data & l2 & Hl & Hd & _).
      exists data. split; [|done]. rewrite Hperm. apply subgraph_node.
      split; [|apply hop_set_root]. rewrite Hl. apply elem_of_app. right. by left.
    - intros n data Hin Hd. rewrite Hperm in Hin.
      apply subgraph_node in Hin as [Hin _]. by apply (Huniq n data). }
  assert (hop_set g' r (Z.to_nat depth) = nodes) as Hhop.
  { rewrite (hop_set_adj g' g1) by done. apply hop_set_subgraph. }
  eexists (length (objects s')), _, (subgraph g' nodes).
  split; [by eapply extract_subgraph_run_found|].
  split; [simpl; rewrite Hhop; apply lookup_last_object|].
  pose proof (subgraph_idemp g nodes) as Hidemp. fold g1 in Hidemp.
  split.
  - unfold subgraph at 1. simpl. rewrite Hperm.
    change (_node (subgraph g1 nodes) ≡ₚ _node g1). by rewrite Hidemp.
  - unfold subgraph at 1. simpl. rewrite Hadj.
    change (_adj (subgraph g1 nodes) = _adj g1). by rewrite Hidemp.
Qed.

Lemma extract_subgraph_idempotent_witness :
  (objects scenario_state !! 0%nat = Some scenario_graph ∧
   find_root (_node scenario_graph) "a.com" = Some 1 ∧
   ∀ n data, (n, data) ∈ _node scenario_graph → domain data = Some "a.com" → n = 1) ∧
  ∃ G1 s1 g1,
    extract_subgraph 0%nat "a.com" 1 scenario_state = (Return G1, s1) ∧
    objects s1 !! G1 = Some g1 ∧
    ∀ (s' : state) (G' : ref) (g' : DiGraph),
      objects s' !! G' = Some g' →
      _node g' ≡ₚ _node g1 → _adj g' = _adj g1 →
      ∃ G2 s2 g2,
        extract_subgraph G' "a.com" 1 s' = (Return G2, s2) ∧
        objects s2 !! G2 = Some g2 ∧
        _node g2 ≡ₚ _node g1 ∧ _adj g2 = _adj g1.
Proof.
  assert (∀ n data, (n, data) ∈ _node scenario_graph →
                    domain data = Some "a.com" → n = 1) as Huniq.
  { intros n data Hin Hd.
    change (_node scenario_graph)
      with [(1, site "a.com"); (2, site "b.com"); (3, site "c.com")] in Hin.
    apply elem_of_cons in Hin as [[= -> ->]|Hin]; [done|].
    apply elem_of_cons in Hin as [[= -> ->]|Hin]; [discriminate Hd|].
    apply list_elem_of_singleton in Hin as [= -> ->]. discriminate Hd. }
  split; [exact (conj eq_refl (conj eq_refl Huniq))|].
  exact (extract_subgraph_idempotent scenario_state 0%nat scenario_graph "a.com" 1 1
           eq_refl eq_refl Huniq).
Defined.

(* ===================================================================== *)
(** ** renderer.py: normalisation keeps the order on each axis            *)
(* ===================================================================== *)

Lemma rescale_mono lo range scale v1 v2 :
  (0 < range)%Q → (0 <= scale)%Q → (v1 <= v2)%Q →
  (rescale lo range scale v1 <= rescale lo range scale v2)%Q.
Proof.
  intros Hr Hs Hv. unfold rescale.
  apply Qmult_le_compat_r; [|done].
  unfold Qdiv. apply Qmult_le_compat_r; [lra|].
  apply Qlt_le_weak. by apply Qinv_lt_0_compat.
Qed.

(** X29.  Without jitter, with a scale that is not negative and with
    coordinates and a scale of a magnitude at which binary64 does not
    overflow, normalisation keeps each node at its place in the
    dictionary and keeps the order of the coordinates on each axis: a
    node that was not to the right of (not above) another one is not to
    the right of (not above) it afterwards. *)
Theorem normalize_positions_monotone (pos : list (node * position))
    (scale jitter : Q) (random : nat → Q) (k : nat)
    (i j : nat) (c c' o o' : node * position) :
  (0 <= scale)%Q → (jitter <= 0)%Q →
  positions_safe pos → binary64_safe scale →
  pos !! i = Some c → pos !! j = Some c' →
  (normalize_positions pos (Some scale) (Some jitter) random k).1 !! i = Some o →
  (normalize_positions pos (Some scale) (Some jitter) random k).1 !! j = Some o' →
  o.1 = c.1 ∧ o'.1 = c'.1 ∧
  (c.2.1 <= c'.2.1 → o.2.1 <= o'.2.1)%Q ∧
  (c.2.2 <= c'.2.2 → o.2.2 <= o'.2.2)%Q.
Proof.
  intros Hs Hj _ _ Hc Hc' Ho Ho'.
  destruct pos as [|[n0 [x0 y0]] rest]; [by rewrite lookup_nil in Hc|].
  rewrite normalize_positions_unfold in Ho, Ho'.
  rewrite normalize_loop_no_jitter in Ho, Ho' by (apply Qle_bool_iff; lra).
  cbn [fst] in Ho, Ho'.
  apply list_lookup_fmap_Some in Ho as (c0 & -> & E).
  apply list_lookup_fmap_Some in Ho' as (c0' & -> & E').
  injection (eq_trans (eq_sym E) Hc) as ->.
  injection (eq_trans (eq_sym E') Hc') as ->. cbn [fst snd].
  split; [done|]. split; [done|].
  split; intros Hle; apply rescale_mono; try done; apply axis_range_pos.
Qed.

Lemma normalize_positions_monotone_witness :
  ((0 <= 10)%Q ∧ (0 <= 0)%Q ∧
   positions_safe two_positions ∧ binary64_safe 10 ∧
   two_positions !! 0%nat = Some (1, (0, 0)%Q) ∧
   two_positions !! 1%nat = Some (2, (1, 1)%Q) ∧
   (normalize_positions two_positions (Some 10%Q) (Some 0%Q) draw_half 0).1 !! 0%nat
   = Some (1, (0 / 1 * 10, 0 / 1 * 10)%Q)) ∧
  ∃ o o',
    (normalize_positions two_positions (Some 10%Q) (Some 0%Q) draw_half 0).1 !! 0%nat
    = Some o ∧
    (normalize_positions two_positions (Some 10%Q) (Some 0%Q) draw_half 0).1 !! 1%nat
    = Some o' ∧
    (o.2.1 <= o'.2.1)%Q ∧ (o.2.2 <= o'.2.2)%Q.
Proof.
  assert (0 <= 10)%Q as Hs by discriminate.
  assert (0 <= 0)%Q as Hj by discriminate.
  assert ((0 : Q) <= 1)%Q as Hle by discriminate.
  split; [|eexists _, _; split; [reflexivity|]; split; [reflexivity|]].
  - exact (conj Hs (conj Hj (conj two_positions_safe
             (conj (small_binary64_safe 10 eq_refl)
                (conj eq_refl (conj eq_refl eq_refl)))))).
  - destruct (normalize_positions_monotone two_positions 10 0 draw_half 0 0 1
                (1, (0, 0)%Q) (2, (1, 1)%Q) _ _ Hs Hj two_positions_safe
                (small_binary64_safe 10 eq_refl) eq_refl eq_refl
                eq_refl eq_refl) as (_ & _ & Hx & Hy).
    split; [exact (Hx Hle)|exact (Hy Hle)].
Defined.
